(** * CityGrid: greedy tower placement and tower-to-tower path search

    A shallow embedding of [src/main.py] (class [CityGrid]) and the
    properties of its placement loop, its A*-style search and its path
    annotation.

    Python integers are [Z]; a Python list is a [list]; list indexing
    follows Python (a negative index counts from the end, anything else out
    of range raises [IndexError]).  Methods that assign to attributes of
    [self] take the object and return the object they leave behind. *)

From stdpp Require Import base decidable option list list_numbers sorting gmap.
From Stdlib Require Import ZArith Lia.

Local Open Scope Z_scope.

(** ** Cells *)

(** The values stored in [self.grid]: [0], ['X'], ['#'], ['|'] and the three
    markers written by [build_path_on_grid]: ['*'], ['B'], ['E']. *)
Inductive cell : Set :=
  | Empty        (* 0   *)
  | Obstructed   (* 'X' *)
  | Covered      (* '#' *)
  | Station      (* '|' *)
  | PathMark     (* '*' *)
  | BeginMark    (* 'B' *)
  | EndMark.     (* 'E' *)

#[global] Instance cell_eq_dec : EqDecision cell.
Proof. solve_decision. Defined.

Abbreviation coord := (Z * Z)%type.
Abbreviation cells := (list (list cell)).

(** ** Python sequences *)

Module Py.

(** [lst[k]]: the position a Python index denotes in a sequence of length
    [len], if any. *)
Definition index (len : nat) (k : Z) : option nat :=
  if decide (0 <= k < Z.of_nat len) then Some (Z.to_nat k)
  else if decide (- Z.of_nat len <= k < 0) then Some (Z.to_nat (k + Z.of_nat len))
  else None.

Definition getitem {A} (l : list A) (k : Z) : option A :=
  i ← index (length l) k; l !! i.

Definition setitem {A} (l : list A) (k : Z) (v : A) : option (list A) :=
  i ← index (length l) k; Some (<[i:=v]> l).

(** [range(lo, hi)] *)
Definition range (lo hi : Z) : list Z := seqZ lo (hi - lo).

(** [for i in rows: for j in cols: ...] visits these pairs, in this order. *)
Definition nested (rows cols : list Z) : list coord :=
  i ← rows; j ← cols; [(i, j)].

(** [l[1:-1]] *)
Definition interior {A} (l : list A) : list A := removelast (tail l).

End Py.

(** ** The object *)

Record CityGrid : Set := mkCityGrid {
  n : Z;
  m : Z;
  tower_radius : Z;
  grid : cells;
  towers : list coord
}.

(** How a method call ends: it returns, or it stops at an [IndexError]; in
    both cases [self] is left in some state. *)
Inductive exn : Set := IndexError.

Inductive outcome : Set :=
  | Returned (s : CityGrid)
  | Raised (e : exn) (s : CityGrid).

Definition raises (o : outcome) : Prop :=
  match o with Raised _ _ => True | Returned _ => False end.

Definition final (o : outcome) : CityGrid :=
  match o with Returned s | Raised _ s => s end.

(** [self.grid[x][y]] *)
Definition grid_get (g : cells) (x y : Z) : option cell :=
  row ← Py.getitem g x; Py.getitem row y.

(** [self.grid[x][y] = v]; the rows of [self.grid] are distinct list
    objects, so storing into row [x] changes that row only. *)
Definition grid_set (g : cells) (x y : Z) (v : cell) : option cells :=
  row ← Py.getitem g x; row' ← Py.setitem row y v; Py.setitem g x row'.

(** A store that follows a successful read of the same element. *)
Definition grid_put (g : cells) (x y : Z) (v : cell) : cells :=
  default g (grid_set g x y v).

Definition with_grid (s : CityGrid) (g : cells) : CityGrid :=
  mkCityGrid (n s) (m s) (tower_radius s) g (towers s).

(** The square of side [2r+1] around [(x, y)], clipped to the grid:
    [range(max(0, x - r), min(self.n, x + r + 1))] by
    [range(max(0, y - r), min(self.m, y + r + 1))]. *)
Definition window (s : CityGrid) (x y r : Z) : list coord :=
  Py.nested (Py.range (Z.max 0 (x - r)) (Z.min (n s) (x + r + 1)))
            (Py.range (Z.max 0 (y - r)) (Z.min (m s) (y + r + 1))).

(** [range(self.n)] by [range(self.m)] *)
Definition all_cells (s : CityGrid) : list coord :=
  Py.nested (Py.range 0 (n s)) (Py.range 0 (m s)).

(** [self.grid[i][j] == c] for a loop index [(i, j)]. The loops below only
    produce indices inside [0, n) x [0, m), where the read cannot fail on a
    grid of that shape (lemma [grid_get_in_bounds]). *)
Definition cell_is (g : cells) (c : cell) (p : coord) : bool :=
  bool_decide (grid_get g p.1 p.2 = Some c).

(** ** get_coverage, get_uncovered_blocks *)

Definition get_coverage (s : CityGrid) (x y R : Z) : Z :=
  foldl (fun coverage p => if cell_is (grid s) Empty p then coverage + 1 else coverage)
        0 (window s x y R).

Definition get_uncovered_blocks (s : CityGrid) : list coord :=
  foldl (fun uncovered_blocks p =>
           if cell_is (grid s) Empty p then uncovered_blocks ++ [p] else uncovered_blocks)
        [] (all_cells s).

(** ** place_tower *)

(** The two inner loops of [place_tower]: every cell of the window that
    holds [0] is set to ['#']. *)
Definition mark_covered (g : cells) (l : list coord) : cells :=
  foldl (fun g p => if cell_is g Empty p then grid_put g p.1 p.2 Covered else g) g l.

(** The first branch of [place_tower]: the cell becomes ['|'], the
    coordinate is appended to [self.towers], the window is covered. *)
Definition commit (s : CityGrid) (x y r : Z) : CityGrid :=
  let s1 := mkCityGrid (n s) (m s) (tower_radius s)
              (grid_put (grid s) x y Station) (towers s ++ [(x, y)]) in
  with_grid s1 (mark_covered (grid s1) (window s1 x y r)).

Definition place_tower (s : CityGrid) (x y r : Z) : outcome :=
  match grid_get (grid s) x y with
  | None => Raised IndexError s
  | Some c =>
      if bool_decide (c ∉ [Station; Obstructed]) then Returned (commit s x y r)
      else Returned s
  end.

(** ** place_optimal_towers *)

(** [self.grid[i][j] in cs] for a loop index [(i, j)]. *)
Definition cell_in (g : cells) (cs : list cell) (p : coord) : bool :=
  match grid_get g p.1 p.2 with
  | Some c => bool_decide (c ∈ cs)
  | None => false
  end.

(** One pass of the two [for] loops of the [while] body, threading
    [(best_tower_position, best_coverage)]. *)
Definition scan_step (s : CityGrid) (acc : option coord * Z) (p : coord)
  : option coord * Z :=
  if cell_in (grid s) [Covered; Empty] p then
    let coverage := get_coverage s p.1 p.2 (tower_radius s) in
    if bool_decide (coverage > acc.2) then (Some p, coverage) else acc
  else acc.

Definition best_tower (s : CityGrid) : option coord * Z :=
  foldl (scan_step s) (None, 0) (all_cells s).

(** Modelled from the spec: [display_info] is called by
    [place_optimal_towers] but is not part of [src/main.py]; the spec
    describes the renderer as a read-only consumer of the grid that never
    mutates it. *)
Definition display_info (s : CityGrid) : CityGrid := s.

(** The body of the [while] loop, entered with [uncovered_blocks] non-empty.
    [None]: no position was selected, nothing is assigned (and
    [uncovered_blocks] is not refreshed). *)
Definition place_iteration (s : CityGrid) : option outcome :=
  match (best_tower s).1 with
  | Some best_tower_position =>
      Some (match place_tower s best_tower_position.1 best_tower_position.2
                    (tower_radius s) with
            | Returned s' => Returned (display_info s')
            | Raised e s' => Raised e s'
            end)
  | None => None
  end.

(** The [while uncovered_blocks:] loop; [fuel] bounds the number of times the
    body runs, [None] means the bound was reached with the loop still
    running. *)
Fixpoint place_loop (fuel : nat) (s : CityGrid) : option outcome :=
  match get_uncovered_blocks s with
  | [] => Some (Returned s)
  | _ :: _ =>
      match fuel with
      | O => None
      | S fuel' =>
          match place_iteration s with
          | Some (Returned s') => place_loop fuel' s'
          | Some (Raised e s') => Some (Raised e s')
          | None => place_loop fuel' s
          end
      end
  end.

Definition place_optimal_towers (fuel : nat) (s : CityGrid) : option outcome :=
  place_loop fuel s.

(** ** find_path *)

Module Search.

(** An element of [open_list]: [(key, (x, y), path)]. *)
Definition entry : Set := Z * coord * list coord.

Definition key (e : entry) : Z := e.1.1.
Definition pos (e : entry) : coord := e.1.2.
Definition trail (e : entry) : list coord := e.2.

(** Python's [<] on tuples and lists of integers is lexicographic. *)
Definition coord_ltb (a b : coord) : bool :=
  if bool_decide (a.1 = b.1) then bool_decide (a.2 < b.2) else bool_decide (a.1 < b.1).

Fixpoint path_ltb (p q : list coord) : bool :=
  match p, q with
  | _, [] => false
  | [], _ :: _ => true
  | a :: p', b :: q' => if bool_decide (a = b) then path_ltb p' q' else coord_ltb a b
  end.

Definition entry_ltb (e1 e2 : entry) : bool :=
  if bool_decide (key e1 = key e2) then
    if bool_decide (pos e1 = pos e2) then path_ltb (trail e1) (trail e2)
    else coord_ltb (pos e1) (pos e2)
  else bool_decide (key e1 < key e2).

(** [min(open_list)] for a non-empty list: the first element no other
    element is smaller than. *)
Definition py_min (e0 : entry) (rest : list entry) : entry :=
  foldl (fun best e => if entry_ltb e best then e else best) e0 rest.

(** [open_list.remove(v)]: drops the first element equal to [v]. *)
Fixpoint remove (v : entry) (l : list entry) : list entry :=
  match l with
  | [] => []
  | e :: l' => if decide (e = v) then l' else e :: remove v l'
  end.

(** The entries appended for the cell [(x, y)] reached along [path]. *)
Definition successors (s : CityGrid) (end_ : coord) (x y : Z) (path : list coord)
  : list entry :=
  foldl (fun acc p =>
           if bool_decide (p.1 ≠ x ∨ p.2 ≠ y) && cell_in (grid s) [Covered; Station] p
           then acc ++ [(Z.of_nat (length path) + 1 + Z.abs (p.1 - end_.1)
                           + Z.abs (p.2 - end_.2), p, path ++ [(x, y)])]
           else acc)
        []
        (Py.nested (Py.range (Z.max 0 (x - 1)) (Z.min (n s) (x + 2)))
                   (Py.range (Z.max 0 (y - 1)) (Z.min (m s) (y + 2)))).

Inductive step_result : Type :=
  | Found (path : list coord)
  | Continue (open_list : list entry) (closed_list : gset coord).

(** The entry the next iteration takes out of a non-empty [open_list]. *)
Definition explored (e0 : entry) (rest : list entry) : entry := py_min e0 rest.

(** One iteration of [while open_list:], for [open_list = e0 :: rest]. *)
Definition step (s : CityGrid) (end_ : coord) (e0 : entry) (rest : list entry)
    (closed_list : gset coord) : step_result :=
  let e := explored e0 rest in
  let open_list := remove e (e0 :: rest) in
  if bool_decide (pos e = end_) then Found (trail e ++ [pos e])
  else if bool_decide (pos e ∈ closed_list) then Continue open_list closed_list
  else Continue (open_list ++ successors s end_ (pos e).1 (pos e).2 (trail e))
                ({[pos e]} ∪ closed_list).

(** The loop; [self] is passed along and handed back with the result.
    [None]: the bound [fuel] on the number of iterations was reached. *)
Fixpoint loop (fuel : nat) (s : CityGrid) (end_ : coord)
    (open_list : list entry) (closed_list : gset coord)
  : option (option (list coord) * CityGrid) :=
  match open_list with
  | [] => Some (None, s)
  | e0 :: rest =>
      match fuel with
      | O => None
      | S fuel' =>
          match step s end_ e0 rest closed_list with
          | Found path => Some (Some path, s)
          | Continue open_list' closed_list' => loop fuel' s end_ open_list' closed_list'
          end
      end
  end.

Definition init (start : coord) : list entry := [(0, start, [])].

End Search.

Definition find_path (fuel : nat) (s : CityGrid) (start end_ : coord)
  : option (option (list coord) * CityGrid) :=
  Search.loop fuel s end_ (Search.init start) ∅.

(** ** build_path_on_grid *)

(** [self.grid[cord[0]][cord[1]] = v] *)
Definition store (s : CityGrid) (cord : coord) (v : cell) : outcome :=
  match grid_set (grid s) cord.1 cord.2 v with
  | Some g => Returned (with_grid s g)
  | None => Raised IndexError s
  end.

Definition and_then (o : outcome) (k : CityGrid → outcome) : outcome :=
  match o with
  | Returned s => k s
  | Raised e s => Raised e s
  end.

Fixpoint mark_interior (s : CityGrid) (l : list coord) : outcome :=
  match l with
  | [] => Returned s
  | cord :: l' => and_then (store s cord PathMark) (fun s' => mark_interior s' l')
  end.

Definition build_path_on_grid (s : CityGrid) (ttt_path : list coord) : outcome :=
  and_then (mark_interior s (Py.interior ttt_path)) (fun s1 =>
  match Py.getitem ttt_path 0 with
  | None => Raised IndexError s1
  | Some first =>
      and_then (store s1 first BeginMark) (fun s2 =>
      match Py.getitem ttt_path (-1) with
      | None => Raised IndexError s2
      | Some last => store s2 last EndMark
      end)
  end).

(** ** The class invariant *)

(** [__init__] builds [n] rows of [m] cells and no method changes the shape
    of [self.grid]. *)
Definition shape_ok (s : CityGrid) : Prop :=
  Z.of_nat (length (grid s)) = n s ∧
  Forall (fun row => Z.of_nat (length row) = m s) (grid s).

Definition in_bounds (s : CityGrid) (p : coord) : Prop :=
  0 <= p.1 < n s ∧ 0 <= p.2 < m s.

(** [[[c for _ in range(m)] for _ in range(n)]], with no tower: the object
    [__init__] starts from when [c] is [0]. *)
Definition uniform (n m r : Z) (c : cell) : CityGrid :=
  mkCityGrid n m r (replicate (Z.to_nat n) (replicate (Z.to_nat m) c)) [].

(** ** Locations *)

(** The row and column a pair of Python indices denotes in [g]. *)
Definition locate (g : cells) (x y : Z) : option (nat * nat) :=
  a ← Py.index (length g) x; row ← g !! a; b ← Py.index (length row) y; Some (a, b).

Definition cell_at (g : cells) (ab : nat * nat) : option cell :=
  row ← g !! ab.1; row !! ab.2.

Definition update (g : cells) (ab : nat * nat) (v : cell) : cells :=
  alter (<[ab.2 := v]>) ab.1 g.

(** The cell of the grid at a coordinate inside it. *)
Definition state_at (s : CityGrid) (p : coord) : option cell :=
  grid_get (grid s) p.1 p.2.

(** ** Vocabulary of the placement scan *)

(** The cells the scan of [place_optimal_towers] scores:
    [self.grid[i][j] in ['#', 0]]. *)
Definition candidate (s : CityGrid) (p : coord) : Prop :=
  state_at s p = Some Covered ∨ state_at s p = Some Empty.

(** [self.get_coverage(i, j, self.tower_radius)] *)
Definition score (s : CityGrid) (p : coord) : Z :=
  get_coverage s p.1 p.2 (tower_radius s).

(** The order in which [for i in range(n): for j in range(m):] meets the
    cells. *)
Definition row_major_lt (p q : coord) : Prop :=
  p.1 < q.1 ∨ (p.1 = q.1 ∧ p.2 < q.2).

(** A property of every cell stored in [self.grid]. *)
Definition every_cell (P : cell → Prop) (s : CityGrid) : Prop :=
  Forall (Forall P) (grid s).

(** ** Vocabulary of the search *)

Definition chebyshev (a b : coord) : Z :=
  Z.max (Z.abs (a.1 - b.1)) (Z.abs (a.2 - b.2)).

Definition manhattan (a b : coord) : Z :=
  Z.abs (a.1 - b.1) + Z.abs (a.2 - b.2).

(** The cells the search may step on: inside the grid and holding ['#'] or
    ['|']. *)
Definition passable (s : CityGrid) (p : coord) : Prop :=
  in_bounds s p ∧ (state_at s p = Some Covered ∨ state_at s p = Some Station).

(** The coordinate sequences that begin at [start] and go on, one cell at
    a time, to a passable cell at Chebyshev distance at most 1. *)
Inductive walk (s : CityGrid) (start : coord) : list coord → Prop :=
  | walk_start : walk s start [start]
  | walk_step l p q :
      walk s start (l ++ [p]) → passable s q → chebyshev p q <= 1 →
      walk s start ((l ++ [p]) ++ [q]).

(** The states [(open_list, closed_list)] the loop of [find_path] can be in
    at the top of an iteration. *)
Inductive reachable (s : CityGrid) (start end_ : coord)
  : list Search.entry → gset coord → Prop :=
  | reachable_init : reachable s start end_ (Search.init start) ∅
  | reachable_step e0 rest closed_list open_list' closed_list' :
      reachable s start end_ (e0 :: rest) closed_list →
      Search.step s end_ e0 rest closed_list = Search.Continue open_list' closed_list' →
      reachable s start end_ open_list' closed_list'.

(** What holds of every entry of [open_list]: its trail followed by its
    position is a walk from [start], and its key is the number of steps of
    that walk plus the Manhattan distance to [end_], except for the entry
    the search starts with, whose key is 0. *)
Definition entry_ok (s : CityGrid) (start end_ : coord) (e : Search.entry) : Prop :=
  walk s start (Search.trail e ++ [Search.pos e]) ∧
  (e = (0, start, []) ∨
   Search.key e = Z.of_nat (length (Search.trail e)) + manhattan (Search.pos e) end_).

(** A number of iterations within which the loop of [find_path] ends. *)
Definition search_bound (s : CityGrid) : nat :=
  (10 + 9 * Z.to_nat (n s * m s))%nat.

(** ** Python indices inside the grid *)

(** The indices Python accepts for a grid of [n] rows and [m] columns. *)
Definition valid_index (s : CityGrid) (p : coord) : Prop :=
  - n s <= p.1 < n s ∧ - m s <= p.2 < m s.

(** The cell such a pair of indices denotes: a negative index counts from
    the end. *)
Definition wrap (s : CityGrid) (p : coord) : coord :=
  (p.1 `mod` n s, p.2 `mod` m s).

(** ** Invariants of the search loop *)

(** A coordinate the search has dealt with or still has on its list. *)
Definition seen (open_list : list Search.entry) (closed_list : gset coord)
    (p : coord) : Prop :=
  p ∈ closed_list ∨ ∃ e, e ∈ open_list ∧ Search.pos e = p.

(** The search never closes the end, has seen the start, and has seen every
    passable cell next to a closed one. *)
Definition frontier_inv (s : CityGrid) (start end_ : coord)
    (open_list : list Search.entry) (closed_list : gset coord) : Prop :=
  (end_ ∉ closed_list) ∧
  seen open_list closed_list start ∧
  ∀ c p, c ∈ closed_list → passable s p → chebyshev c p <= 1 →
         seen open_list closed_list p.

(** The trail of every entry of the open list goes through closed
    coordinates, each once. *)
Definition trail_inv (end_ : coord)
    (open_list : list Search.entry) (closed_list : gset coord) : Prop :=
  (end_ ∉ closed_list) ∧
  ∀ e, e ∈ open_list →
       NoDup (Search.trail e) ∧ ∀ t, t ∈ Search.trail e → t ∈ closed_list.

(** ** Vocabulary of the annotation *)

(** The three values [build_path_on_grid] writes. *)
Definition marker (c : cell) : Prop :=
  c = PathMark ∨ c = BeginMark ∨ c = EndMark.

(** [s'] is [s] with markers written on some cells denoted by coordinates
    of [path], and nothing else changed. *)
Definition overlay (s : CityGrid) (path : list coord) (s' : CityGrid) : Prop :=
  shape_ok s' ∧ n s' = n s ∧ m s' = m s ∧
  tower_radius s' = tower_radius s ∧ towers s' = towers s ∧
  ∀ q, in_bounds s q →
       state_at s' q = state_at s q ∨
       ((∃ c, state_at s' q = Some c ∧ marker c) ∧
        ∃ p, p ∈ path ∧ valid_index s p ∧ wrap s p = q).

(** ** generate_obstructions *)

Module Gen.

(** What can stop [generate_obstructions]: [randint] on an empty range, a
    grid read out of range. *)
Inductive error : Set := ValueError | IndexError.

(** How a run ends for a given sequence of draws: it returns (with the
    draws it did not use), or the draws are used up with the loop still
    running (after [count] obstructions), or it raises. *)
Inductive result : Set :=
  | Done (s : CityGrid) (unused : list coord)
  | Starved (s : CityGrid) (count : Z)
  | Failed (e : error) (s : CityGrid).

(** [not self.grid[i][j]]: of the values a cell holds only [0] is falsy. *)
Definition falsy (c : cell) : bool := bool_decide (c = Empty).

(** The [while] loop. [quota] is the value of
    [int(self.n * self.m * obs_coverage)], which the loop computes anew at
    each test from values it never changes; a draw [(random_n, random_m)]
    is the pair [randint(0, self.n - 1)], [randint(0, self.m - 1)], taken
    from [draws] in order. *)
Fixpoint loop (quota : Z) (draws : list coord) (count_of_obstructed_blocks : Z)
    (s : CityGrid) : result :=
  if bool_decide (count_of_obstructed_blocks < quota) then
    if bool_decide (n s - 1 < 0) then Failed ValueError s
    else if bool_decide (m s - 1 < 0) then Failed ValueError s
    else
      match draws with
      | [] => Starved s count_of_obstructed_blocks
      | (random_n, random_m) :: draws' =>
          match grid_get (grid s) random_n random_m with
          | None => Failed IndexError s
          | Some c =>
              if falsy c then
                loop quota draws' (count_of_obstructed_blocks + 1)
                     (with_grid s (grid_put (grid s) random_n random_m Obstructed))
              else loop quota draws' count_of_obstructed_blocks s
          end
      end
  else Done s draws.

End Gen.

Definition generate_obstructions (s : CityGrid) (quota : Z) (draws : list coord)
  : Gen.result :=
  Gen.loop quota draws 0 s.

(** ** __init__ *)

(** How the constructor ends: with the object, at one of its three
    assertions, or at an error of [generate_obstructions] or
    [place_optimal_towers]. *)
Inductive constructed : Set :=
  | Built (s : CityGrid)
  | AssertionError
  | Error (e : Gen.error).

(** [CityGrid(n, m, r, obs_coverage)], for the draws [generate_obstructions]
    makes and a bound [fuel] on the iterations of the placement loop.
    [None]: the draws or the bound did not suffice to reach the end. *)
Definition init (n m r quota : Z) (draws : list coord) (fuel : nat)
  : option constructed :=
  if bool_decide (n > 0) then
    if bool_decide (m > 0) then
      if bool_decide (r > 0) then
        match generate_obstructions (uniform n m r Empty) quota draws with
        | Gen.Done s1 _ =>
            match place_optimal_towers fuel s1 with
            | Some (Returned s2) => Some (Built s2)
            | Some (Raised IndexError _) => Some (Error Gen.IndexError)
            | None => None
            end
        | Gen.Starved _ _ => None
        | Gen.Failed e _ => Some (Error e)
        end
      else Some AssertionError
    else Some AssertionError
  else Some AssertionError.

(** The number of cells of the grid that hold [c]. *)
Definition count_cells (c : cell) (s : CityGrid) : nat :=
  length (filter (fun p => state_at s p = Some c) (all_cells s)).

(** ** Vocabulary of the state placement leaves *)

(** [towers] lists, each once, coordinates inside the grid whose cells hold
    ['|']. *)
Definition registry_ok (s : CityGrid) : Prop :=
  NoDup (towers s) ∧
  ∀ t, t ∈ towers s → in_bounds s t ∧ state_at s t = Some Station.

(** Every cell holding ['#'] is within Chebyshev distance [tower_radius] of
    a coordinate of [towers]. *)
Definition covered_ok (s : CityGrid) : Prop :=
  ∀ q, in_bounds s q → state_at s q = Some Covered →
       ∃ t, t ∈ towers s ∧ chebyshev t q <= tower_radius s.

(** [s1] has the dimensions of [s0], and each cell of [s1] holds what it
    held in [s0], unless it held [0] or ['#'] and now holds ['#'] or
    ['|']. *)
Definition placed_from (s0 s1 : CityGrid) : Prop :=
  n s1 = n s0 ∧ m s1 = m s0 ∧
  ∀ q c, in_bounds s0 q → state_at s0 q = Some c →
         state_at s1 q = Some c ∨
         ((c = Empty ∨ c = Covered) ∧
          (state_at s1 q = Some Covered ∨ state_at s1 q = Some Station)).

(* ====================================================================== *)
(** * Properties *)

(** Membership of a cell in a list of cells written out, as in
    [c in ['|', 'X']]. *)
Ltac cell_cases :=
  rewrite ?elem_of_cons, ?elem_of_nil in *;
  intuition (try discriminate; try congruence).

(** ** The model on small inputs *)

Example getitem_negative :
  Py.getitem [Empty; Covered; Station] (-1) = Some Station ∧
  Py.getitem [Empty; Covered; Station] (-3) = Some Empty ∧
  Py.getitem [Empty; Covered; Station] 3 = None ∧
  Py.getitem [Empty; Covered; Station] (-4) = None.
Proof. repeat split. Qed.

Example interior_short :
  Py.interior [1; 2; 3; 4] = [2; 3] ∧ Py.interior [1; 2] = [] ∧
  Py.interior [1] = [] ∧ Py.interior (@nil Z) = [].
Proof. repeat split. Qed.

Example window_clipped :
  window (uniform 3 3 1 Empty) 0 2 1 = [(0, 1); (0, 2); (1, 1); (1, 2)].
Proof. reflexivity. Qed.

(** Five rows, five columns, radius 1, no obstruction: four towers. *)
Example placement_5x5 :
  place_optimal_towers 25 (uniform 5 5 1 Empty)
  = Some (Returned (mkCityGrid 5 5 1
            [[Covered; Covered; Covered; Station; Covered];
             [Covered; Station; Covered; Covered; Covered];
             [Covered; Covered; Covered; Covered; Covered];
             [Station; Covered; Covered; Station; Covered];
             [Covered; Covered; Covered; Covered; Covered]]
            [(1, 1); (3, 3); (0, 3); (3, 0)])).
Proof. vm_compute. reflexivity. Qed.

(** A tower walled in by obstructions reaches no other tower. *)
Example find_path_walled_in :
  let s := mkCityGrid 3 4 1 [[Obstructed; Obstructed; Obstructed; Station];
                             [Obstructed; Station; Obstructed; Covered];
                             [Obstructed; Obstructed; Obstructed; Covered]]
                      [(1, 1); (0, 3)] in
  find_path (search_bound s) s (1, 1) (0, 3) = Some (None, s).
Proof. vm_compute. reflexivity. Qed.

(** Among entries of equal key the one with the lower coordinate is taken. *)
Example min_breaks_ties_by_coordinate :
  Search.py_min (2, (1, 0), [(0, 0)]) [(2, (0, 1), [(0, 0)]); (3, (0, 0), [])]
  = (2, (0, 1), [(0, 0)]).
Proof. reflexivity. Qed.

(** ** Python indexing *)

Lemma index_nonneg len k :
  0 <= k < Z.of_nat len → Py.index len k = Some (Z.to_nat k).
Proof. intros H. unfold Py.index. by rewrite decide_True. Qed.

Lemma index_lt len k i : Py.index len k = Some i → (i < len)%nat.
Proof.
  unfold Py.index. repeat case_decide; intros; simplify_eq; lia.
Qed.

Lemma index_None len k :
  Py.index len k = None ↔ k < - Z.of_nat len ∨ Z.of_nat len <= k.
Proof.
  unfold Py.index. repeat case_decide; split; intros; simplify_eq; try done; lia.
Qed.

Lemma getitem_nil {A} k : Py.getitem (@nil A) k = None.
Proof.
  unfold Py.getitem. destruct (Py.index _ _) as [i|] eqn:E; [|done].
  apply index_lt in E. simpl in E. lia.
Qed.

(** ** Reading and writing cells through locations *)

Lemma grid_get_locate g x y : grid_get g x y = locate g x y ≫= cell_at g.
Proof.
  unfold grid_get, locate, cell_at, Py.getitem.
  destruct (Py.index (length g) x) as [a|]; simpl; [|done].
  destruct (g !! a) as [row|] eqn:Ha; simpl; [|done].
  destruct (Py.index (length row) y) as [b|]; simpl; [|done].
  by rewrite Ha.
Qed.

Lemma locate_Some g x y a b :
  locate g x y = Some (a, b) → ∃ row, g !! a = Some row ∧ (b < length row)%nat.
Proof.
  unfold locate. intros H.
  destruct (Py.index (length g) x) as [a'|]; simplify_eq/=.
  destruct (g !! a') as [row|] eqn:Ha; simplify_eq/=.
  destruct (Py.index (length row) y) as [b'|] eqn:Hb; simplify_eq/=.
  exists row. split; [done|]. by eapply index_lt.
Qed.

Lemma locate_is_Some g x y :
  is_Some (locate g x y) ↔ is_Some (grid_get g x y).
Proof.
  rewrite grid_get_locate. split.
  - intros [[a b] H]. rewrite H. simpl.
    destruct (locate_Some _ _ _ _ _ H) as (row & Hr & Hb).
    unfold cell_at. simpl. rewrite Hr. simpl. by apply lookup_lt_is_Some.
  - intros [c H]. destruct (locate g x y); [done|]. by simplify_eq/=.
Qed.

Lemma grid_set_locate g x y v :
  grid_set g x y v = (ab ← locate g x y; Some (update g ab v)).
Proof.
  unfold grid_set, locate, update, Py.getitem, Py.setitem.
  destruct (Py.index (length g) x) as [a|]; simpl; [|done].
  destruct (g !! a) as [row|] eqn:Ha; simpl; [|done].
  destruct (Py.index (length row) y) as [b|]; simpl; [|done].
  f_equal. apply list_eq. intros i.
  destruct (decide (a = i)) as [->|Hne].
  - rewrite list_lookup_alter_eq, Ha. simpl.
    apply list_lookup_insert_eq. by eapply lookup_lt_Some.
  - by rewrite list_lookup_insert_ne, list_lookup_alter_ne.
Qed.

Lemma grid_put_locate g x y v :
  grid_put g x y v = from_option (fun ab => update g ab v) g (locate g x y).
Proof.
  unfold grid_put. rewrite grid_set_locate. by destruct (locate g x y).
Qed.

Lemma update_length g ab v : length (update g ab v) = length g.
Proof. apply length_alter. Qed.

Lemma update_lookup_length g ab v i :
  length <$> (update g ab v !! i) = length <$> (g !! i).
Proof.
  unfold update. destruct (decide (ab.1 = i)) as [<-|Hne].
  - rewrite list_lookup_alter_eq. destruct (g !! ab.1); simpl; [|done].
    by rewrite length_insert.
  - by rewrite list_lookup_alter_ne.
Qed.

Lemma locate_update g ab v x y : locate (update g ab v) x y = locate g x y.
Proof.
  unfold locate. rewrite update_length.
  destruct (Py.index (length g) x) as [a|]; simpl; [|done].
  pose proof (update_lookup_length g ab v a) as Hl.
  destruct (update g ab v !! a) as [row'|], (g !! a) as [row|]; simplify_eq/=; [|done].
  by rewrite Hl.
Qed.

Lemma cell_at_update g ab v ab' :
  is_Some (cell_at g ab) →
  cell_at (update g ab v) ab' = if decide (ab = ab') then Some v else cell_at g ab'.
Proof.
  destruct ab as [a b], ab' as [a' b']. unfold cell_at, update. simpl.
  intros [c Hc]. destruct (g !! a) as [row|] eqn:Ha; simplify_eq/=.
  apply lookup_lt_Some in Hc.
  destruct (decide (a = a')) as [<-|Hne].
  - rewrite list_lookup_alter_eq, Ha. simpl.
    destruct (decide (b = b')) as [<-|Hneb].
    + rewrite decide_True by done. by apply list_lookup_insert_eq.
    + rewrite decide_False by congruence. by rewrite list_lookup_insert_ne.
  - rewrite decide_False by congruence. by rewrite list_lookup_alter_ne.
Qed.

Lemma locate_cell_at g x y ab : locate g x y = Some ab → is_Some (cell_at g ab).
Proof.
  intros H. pose proof (proj1 (locate_is_Some g x y) (mk_is_Some _ _ H)) as [c Hc].
  rewrite grid_get_locate, H in Hc. by exists c.
Qed.

(** A store changes the cell it addresses and no other. *)
Lemma grid_get_put g x y v i j :
  grid_get (grid_put g x y v) i j =
    if decide (is_Some (locate g x y) ∧ locate g i j = locate g x y)
    then Some v else grid_get g i j.
Proof.
  rewrite grid_put_locate, !grid_get_locate.
  destruct (locate g x y) as [ab|] eqn:Hxy.
  - cbn [from_option]. rewrite locate_update.
    destruct (locate g i j) as [ab'|] eqn:Hij.
    + cbn [mbind option_bind]. rewrite cell_at_update by by eapply locate_cell_at.
      destruct (decide (ab = ab')) as [->|Hne].
      * by rewrite decide_True.
      * rewrite decide_False; [done|]. intros [_ ?]. congruence.
    + rewrite decide_False; [done|]. intros [_ ?]. done.
  - cbn [from_option]. case_decide as H; [|done]. destruct H as [[? ?] _]. done.
Qed.

Lemma same_location_same_cell g x y i j :
  locate g i j = locate g x y → grid_get g i j = grid_get g x y.
Proof. intros H. by rewrite !grid_get_locate, H. Qed.

Lemma locate_put g x y v i j : locate (grid_put g x y v) i j = locate g i j.
Proof.
  rewrite grid_put_locate. destruct (locate g x y); simpl; [|done].
  apply locate_update.
Qed.

(** ** Loop ranges *)

Lemma elem_of_range lo hi k : k ∈ Py.range lo hi ↔ lo <= k < hi.
Proof. unfold Py.range. rewrite elem_of_seqZ. lia. Qed.

Lemma elem_of_nested rows cols p :
  p ∈ Py.nested rows cols ↔ p.1 ∈ rows ∧ p.2 ∈ cols.
Proof.
  unfold Py.nested. rewrite list_elem_of_bind. split.
  - intros (i & Hp & Hi). apply list_elem_of_bind in Hp as (j & Hp & Hj).
    apply list_elem_of_ret in Hp. by subst.
  - intros [Hi Hj]. exists p.1. split; [|done].
    apply list_elem_of_bind. exists p.2. split; [|done].
    apply list_elem_of_ret. by destruct p.
Qed.

Lemma elem_of_all_cells s p : p ∈ all_cells s ↔ in_bounds s p.
Proof.
  unfold all_cells, in_bounds. rewrite elem_of_nested, !elem_of_range. done.
Qed.

Lemma elem_of_window s x y r p :
  p ∈ window s x y r ↔
    in_bounds s p ∧ x - r <= p.1 <= x + r ∧ y - r <= p.2 <= y + r.
Proof.
  unfold window, in_bounds. rewrite elem_of_nested, !elem_of_range. lia.
Qed.

Lemma length_range lo hi : length (Py.range lo hi) = Z.to_nat (hi - lo).
Proof. apply length_seqZ. Qed.

Lemma length_nested rows cols :
  length (Py.nested rows cols) = (length rows * length cols)%nat.
Proof.
  unfold Py.nested. induction rows as [|i rows IH]; [done|].
  rewrite bind_cons, length_app, IH. simpl. f_equal.
  clear IH. induction cols as [|j cols IH]; [done|].
  rewrite bind_cons. simpl. by rewrite IH.
Qed.

Lemma length_all_cells s :
  0 <= n s → 0 <= m s → Z.of_nat (length (all_cells s)) = n s * m s.
Proof.
  intros Hn Hm. unfold all_cells. rewrite length_nested, !length_range. lia.
Qed.

(** ** The shape of the grid *)

Lemma locate_in_bounds s p :
  shape_ok s → in_bounds s p →
  locate (grid s) p.1 p.2 = Some (Z.to_nat p.1, Z.to_nat p.2).
Proof.
  intros [Hn Hm] [Hi Hj]. unfold locate.
  rewrite index_nonneg by lia. simpl.
  destruct (lookup_lt_is_Some_2 (grid s) (Z.to_nat p.1)) as [row Hrow]; [lia|].
  rewrite Hrow. simpl.
  rewrite Forall_lookup in Hm. specialize (Hm _ _ Hrow). simpl in Hm.
  rewrite index_nonneg by lia. done.
Qed.

Lemma grid_get_in_bounds s p :
  shape_ok s → in_bounds s p → is_Some (state_at s p).
Proof.
  intros Hs Hp. apply locate_is_Some. rewrite locate_in_bounds by done. by eexists.
Qed.

Lemma same_location_in_bounds s p q :
  shape_ok s → in_bounds s p → in_bounds s q →
  locate (grid s) p.1 p.2 = locate (grid s) q.1 q.2 → p = q.
Proof.
  intros Hs Hp Hq. rewrite !locate_in_bounds by done.
  destruct Hp, Hq, p, q. simpl in *. intros [= Ha Hb]. f_equal; lia.
Qed.

Lemma shape_ok_update s g ab v :
  shape_ok (with_grid s g) → shape_ok (with_grid s (update g ab v)).
Proof.
  unfold shape_ok. simpl. intros [Hn Hm]. split.
  - by rewrite update_length.
  - apply Forall_lookup. intros i row Hrow.
    pose proof (update_lookup_length g ab v i) as Hl. rewrite Hrow in Hl.
    destruct (g !! i) as [row0|] eqn:H0; simplify_eq/=.
    rewrite Forall_lookup in Hm. specialize (Hm _ _ H0). simpl in Hm. congruence.
Qed.

Lemma shape_ok_put s g x y v :
  shape_ok (with_grid s g) → shape_ok (with_grid s (grid_put g x y v)).
Proof.
  intros H. rewrite grid_put_locate. destruct (locate g x y); simpl; [|done].
  by apply shape_ok_update.
Qed.

Lemma shape_ok_with_grid s : shape_ok s ↔ shape_ok (with_grid s (grid s)).
Proof. done. Qed.

(** In a grid of the right shape a store at one coordinate inside the grid
    is seen at that coordinate and at no other. *)
Lemma state_at_put s p q v :
  shape_ok s → in_bounds s p → in_bounds s q →
  grid_get (grid_put (grid s) p.1 p.2 v) q.1 q.2 =
    if decide (p = q) then Some v else state_at s q.
Proof.
  intros Hs Hp Hq. rewrite grid_get_put.
  repeat case_decide; try done.
  - destruct H as [_ H]. apply same_location_in_bounds in H; done.
  - subst. destruct H. split; [|done]. rewrite locate_in_bounds by done. by eexists.
Qed.

(** ** get_uncovered_blocks and get_coverage as a filter and a count *)

Lemma foldl_collect {A} (P : A → bool) (l : list A) (acc : list A) :
  foldl (fun acc p => if P p then acc ++ [p] else acc) acc l
  = acc ++ filter (fun p => P p = true) l.
Proof.
  revert acc. induction l as [|a l IH]; intros acc; simpl.
  - by rewrite app_nil_r.
  - rewrite IH, filter_cons. destruct (P a).
    + rewrite decide_True by done. by rewrite <- app_assoc.
    + by rewrite decide_False by done.
Qed.

Lemma foldl_count {A} (P : A → bool) (l : list A) (acc : Z) :
  foldl (fun acc p => if P p then acc + 1 else acc) acc l
  = acc + Z.of_nat (length (filter (fun p => P p = true) l)).
Proof.
  revert acc. induction l as [|a l IH]; intros acc; simpl.
  - lia.
  - rewrite IH, filter_cons. destruct (P a).
    + rewrite decide_True by done. simpl. lia.
    + by rewrite decide_False by done.
Qed.

Lemma get_uncovered_blocks_filter s :
  get_uncovered_blocks s
  = filter (fun p => cell_is (grid s) Empty p = true) (all_cells s).
Proof. unfold get_uncovered_blocks. by rewrite foldl_collect. Qed.

Lemma elem_of_uncovered s p :
  p ∈ get_uncovered_blocks s ↔ in_bounds s p ∧ state_at s p = Some Empty.
Proof.
  rewrite get_uncovered_blocks_filter, list_elem_of_filter, elem_of_all_cells.
  unfold cell_is, state_at. rewrite bool_decide_eq_true. tauto.
Qed.

Lemma get_coverage_count s x y R :
  get_coverage s x y R
  = Z.of_nat (length (filter (fun p => cell_is (grid s) Empty p = true) (window s x y R))).
Proof. unfold get_coverage. by rewrite foldl_count. Qed.

Lemma get_coverage_nonneg s x y R : 0 <= get_coverage s x y R.
Proof. rewrite get_coverage_count. lia. Qed.

Lemma get_coverage_pos s x y R :
  0 < get_coverage s x y R ↔
  ∃ p, p ∈ window s x y R ∧ state_at s p = Some Empty.
Proof.
  rewrite get_coverage_count. split.
  - intros H.
    destruct (filter _ (window s x y R)) as [|p l] eqn:E; [simpl in H; lia|].
    exists p. assert (Hp : p ∈ p :: l) by left. rewrite <- E in Hp.
    apply list_elem_of_filter in Hp as [Hp ?]. split; [done|].
    unfold cell_is in Hp. by apply bool_decide_eq_true in Hp.
  - intros (p & Hp & He).
    assert (Hin : p ∈ filter (fun p => cell_is (grid s) Empty p = true) (window s x y R)).
    { apply list_elem_of_filter. split; [|done]. unfold cell_is.
      by apply bool_decide_eq_true. }
    destruct (filter _ _); [by apply elem_of_nil in Hin|]. simpl. lia.
Qed.

(** The score of a cell counts that cell when it is uncovered. *)
Lemma get_coverage_self s p R :
  0 <= R → in_bounds s p → state_at s p = Some Empty →
  0 < get_coverage s p.1 p.2 R.
Proof.
  intros HR Hp He. apply get_coverage_pos. exists p. split; [|done].
  apply elem_of_window. split; [done|]. lia.
Qed.

(** ** The footprint loop of place_tower *)

Lemma mark_covered_locate l g i j : locate (mark_covered g l) i j = locate g i j.
Proof.
  revert g. induction l as [|p l IH]; intros g; simpl; [done|].
  unfold mark_covered in *. simpl. rewrite IH.
  destruct (cell_is g Empty p); [|done]. apply locate_put.
Qed.

(** It changes a cell only from [0] to ['#']. *)
Lemma mark_covered_get l g i j :
  grid_get (mark_covered g l) i j = grid_get g i j ∨
  (grid_get g i j = Some Empty ∧ grid_get (mark_covered g l) i j = Some Covered).
Proof.
  revert g. induction l as [|p l IH]; intros g; [by left|].
  unfold mark_covered in *. simpl.
  destruct (cell_is g Empty p) eqn:Hp; [|apply IH].
  unfold cell_is in Hp. apply bool_decide_eq_true in Hp.
  specialize (IH (grid_put g p.1 p.2 Covered)).
  rewrite grid_get_put in IH. case_decide as Hloc.
  - destruct Hloc as [_ Hloc]. apply same_location_same_cell in Hloc.
    right. split; [congruence|]. destruct IH as [IH|[IH _]]; [done|done].
  - done.
Qed.

Lemma mark_covered_keeps l g i j c :
  c ≠ Empty → grid_get g i j = Some c → grid_get (mark_covered g l) i j = Some c.
Proof.
  intros Hc H. destruct (mark_covered_get l g i j) as [->|[H' _]]; [done|congruence].
Qed.

(** Every cell it visits holds something other than [0] afterwards. *)
Lemma mark_covered_covers l g p :
  p ∈ l → is_Some (grid_get g p.1 p.2) →
  ∃ c, grid_get (mark_covered g l) p.1 p.2 = Some c ∧ c ≠ Empty.
Proof.
  revert g. induction l as [|q l IH]; intros g Hp [c Hc]; [by apply elem_of_nil in Hp|].
  assert (Hstep : ∀ g', (∃ c', grid_get g' p.1 p.2 = Some c' ∧ c' ≠ Empty) →
                        ∃ c', grid_get (mark_covered g' l) p.1 p.2 = Some c' ∧ c' ≠ Empty).
  { intros g' (c' & Hc' & Hne). exists c'. split; [|done]. by apply mark_covered_keeps. }
  apply elem_of_cons in Hp as [->|Hp].
  - change (mark_covered g (q :: l))
      with (mark_covered (if cell_is g Empty q then grid_put g q.1 q.2 Covered else g) l).
    apply Hstep. destruct (cell_is g Empty q) eqn:Hq.
    + exists Covered. split; [|done]. rewrite grid_get_put, decide_True; [done|].
      split; [|done]. apply locate_is_Some. by exists c.
    + exists c. split; [done|]. intros ->. unfold cell_is in Hq.
      by apply bool_decide_eq_false in Hq.
  - change (mark_covered g (q :: l))
      with (mark_covered (if cell_is g Empty q then grid_put g q.1 q.2 Covered else g) l).
    apply IH; [done|]. destruct (cell_is g Empty q); [|by exists c].
    apply locate_is_Some. rewrite locate_put. apply locate_is_Some. by exists c.
Qed.

(** ** place_tower *)

Lemma place_tower_occupied s x y r c :
  grid_get (grid s) x y = Some c → c ∈ [Station; Obstructed] →
  place_tower s x y r = Returned s.
Proof.
  intros Hc Hin. unfold place_tower. rewrite Hc.
  rewrite bool_decide_eq_false_2; [done|]. by intros ?.
Qed.

Lemma place_tower_free s x y r c :
  grid_get (grid s) x y = Some c → c ∉ [Station; Obstructed] →
  place_tower s x y r = Returned (commit s x y r).
Proof.
  intros Hc Hin. unfold place_tower. rewrite Hc.
  by rewrite bool_decide_eq_true_2.
Qed.

Lemma place_tower_out_of_range s x y r :
  grid_get (grid s) x y = None → place_tower s x y r = Raised IndexError s.
Proof. intros Hc. unfold place_tower. by rewrite Hc. Qed.

Lemma commit_get s x y r i j :
  is_Some (grid_get (grid s) x y) →
  let old := grid_get (grid s) i j in
  let new := grid_get (grid (commit s x y r)) i j in
  if decide (locate (grid s) i j = locate (grid s) x y) then new = Some Station
  else new = old ∨ (old = Some Empty ∧ new = Some Covered).
Proof.
  intros Hxy old new. subst old new. unfold commit. simpl.
  pose proof (mark_covered_get
    (window (mkCityGrid (n s) (m s) (tower_radius s)
               (grid_put (grid s) x y Station) (towers s ++ [(x, y)])) x y r)
    (grid_put (grid s) x y Station) i j) as H.
  rewrite grid_get_put in H. apply locate_is_Some in Hxy.
  destruct (decide (locate (grid s) i j = locate (grid s) x y)) as [Heq|Hne].
  - rewrite decide_True in H by done. destruct H as [H|[? _]]; done.
  - rewrite decide_False in H by (by intros [_ ?]). done.
Qed.

(** Committing a tower never produces an uncovered cell. *)
Lemma commit_no_new_empty s x y r i j :
  is_Some (grid_get (grid s) x y) →
  grid_get (grid (commit s x y r)) i j = Some Empty →
  grid_get (grid s) i j = Some Empty.
Proof.
  intros Hxy H. pose proof (commit_get s x y r i j Hxy) as Hc. cbv zeta in Hc.
  case_decide; [congruence|]. destruct Hc as [<-|[_ ?]]; [done|congruence].
Qed.


(** Committing a tower on a cell that holds neither ['|'] nor ['X'] leaves
    every ['|'] and every ['X'] in place. *)
Lemma commit_keeps_identity s x y r c0 i j c :
  grid_get (grid s) x y = Some c0 → c0 ∉ [Station; Obstructed] →
  c ∈ [Station; Obstructed] →
  grid_get (grid s) i j = Some c →
  grid_get (grid (commit s x y r)) i j = Some c.
Proof.
  intros Hxy Hc0 Hc Hij.
  pose proof (commit_get s x y r i j (mk_is_Some _ _ Hxy)) as H. cbv zeta in H.
  case_decide as Hloc.
  - apply same_location_same_cell in Hloc. congruence.
  - destruct H as [->|[He _]]; [done|]. rewrite Hij in He. simplify_eq. cell_cases.
Qed.

Lemma commit_station s x y r :
  is_Some (grid_get (grid s) x y) →
  grid_get (grid (commit s x y r)) x y = Some Station.
Proof.
  intros Hxy. pose proof (commit_get s x y r x y Hxy) as H. cbv zeta in H.
  by rewrite decide_True in H.
Qed.

Lemma commit_locate s x y r i j :
  locate (grid (commit s x y r)) i j = locate (grid s) i j.
Proof. unfold commit. simpl. by rewrite mark_covered_locate, locate_put. Qed.

Lemma commit_frame s x y r :
  n (commit s x y r) = n s ∧ m (commit s x y r) = m s ∧
  tower_radius (commit s x y r) = tower_radius s ∧
  towers (commit s x y r) = towers s ++ [(x, y)].
Proof. done. Qed.

Lemma mark_covered_shape s g l :
  shape_ok (with_grid s g) → shape_ok (with_grid s (mark_covered g l)).
Proof.
  revert g. induction l as [|p l IH]; intros g Hg; [done|].
  change (mark_covered g (p :: l))
    with (mark_covered (if cell_is g Empty p then grid_put g p.1 p.2 Covered else g) l).
  apply IH. destruct (cell_is g Empty p); [|done]. by apply shape_ok_put.
Qed.

Lemma commit_shape s x y r : shape_ok s → shape_ok (commit s x y r).
Proof.
  intros Hs. unfold commit.
  pose proof (mark_covered_shape s (grid_put (grid s) x y Station)
    (window (mkCityGrid (n s) (m s) (tower_radius s)
               (grid_put (grid s) x y Station) (towers s ++ [(x, y)])) x y r)) as H.
  apply H. by apply shape_ok_put.
Qed.

(** Every cell of the window around a committed tower is covered. *)
Lemma commit_covers s x y r p :
  is_Some (grid_get (grid s) x y) →
  p ∈ window s x y r → is_Some (state_at s p) →
  ∃ c, state_at (commit s x y r) p = Some c ∧ c ≠ Empty.
Proof.
  intros Hxy Hp Hsome. unfold state_at, commit. simpl.
  apply mark_covered_covers; [done|].
  apply locate_is_Some. rewrite locate_put. by apply locate_is_Some.
Qed.

(** ** The scan for the best tower position *)

Lemma cell_in_candidate s p :
  cell_in (grid s) [Covered; Empty] p = true ↔ candidate s p.
Proof.
  unfold cell_in, candidate, state_at.
  destruct (grid_get (grid s) p.1 p.2) as [c|]; [|by intuition].
  rewrite bool_decide_eq_true. destruct c; cell_cases.
Qed.

(** What the scan holds after a prefix [l] of the cells: nothing while no
    candidate scored above zero, else the first candidate of [l] that
    reaches the highest score of [l]. *)
Lemma scan_spec s l :
  match foldl (scan_step s) (None, 0) l with
  | (None, c) => c = 0 ∧ ∀ q, q ∈ l → candidate s q → score s q <= 0
  | (Some b, c) =>
      ∃ l1 l2, l = l1 ++ b :: l2 ∧ candidate s b ∧ score s b = c ∧ 0 < c ∧
        (∀ q, q ∈ l1 → candidate s q → score s q < c) ∧
        (∀ q, q ∈ l2 → candidate s q → score s q <= c)
  end.
Proof.
  induction l as [|p l IH] using rev_ind.
  - simpl. split; [done|]. intros q Hq. by apply elem_of_nil in Hq.
  - rewrite foldl_snoc. destruct (foldl (scan_step s) (None, 0) l) as [best c].
    unfold scan_step. fold (score s p). simpl.
    destruct (cell_in (grid s) [Covered; Empty] p) eqn:Hcand.
    + apply cell_in_candidate in Hcand. case_bool_decide as Hgt.
      * destruct best as [b|].
        -- destruct IH as (l1 & l2 & -> & Hb & Hsc & Hpos & Hbefore & Hafter).
           exists (l1 ++ b :: l2), []. split; [done|].
           split; [done|]. split; [done|]. split; [lia|]. split.
           ++ intros q Hq Hc. apply elem_of_app in Hq as [Hq|Hq].
              ** specialize (Hbefore q Hq Hc). lia.
              ** apply elem_of_cons in Hq as [->|Hq]; [lia|].
                 specialize (Hafter q Hq Hc). lia.
           ++ intros q Hq. by apply elem_of_nil in Hq.
        -- destruct IH as [-> Hall]. exists l, []. split; [done|].
           split; [done|]. split; [done|]. split; [lia|]. split.
           ++ intros q Hq Hc. specialize (Hall q Hq Hc). lia.
           ++ intros q Hq. by apply elem_of_nil in Hq.
      * destruct best as [b|].
        -- destruct IH as (l1 & l2 & -> & Hb & Hsc & Hpos & Hbefore & Hafter).
           exists l1, (l2 ++ [p]). split; [by rewrite <- app_assoc|].
           split; [done|]. split; [done|]. split; [done|]. split; [done|].
           intros q Hq Hc. apply elem_of_app in Hq as [Hq|Hq]; [by apply Hafter|].
           apply list_elem_of_singleton in Hq as ->. lia.
        -- destruct IH as [-> Hall]. split; [done|].
           intros q Hq Hc. apply elem_of_app in Hq as [Hq|Hq]; [by apply Hall|].
           apply list_elem_of_singleton in Hq as ->. lia.
    + assert (Hnc : ¬ candidate s p).
      { rewrite <- cell_in_candidate. by rewrite Hcand. }
      destruct best as [b|].
      * destruct IH as (l1 & l2 & -> & Hb & Hsc & Hpos & Hbefore & Hafter).
        exists l1, (l2 ++ [p]). split; [by rewrite <- app_assoc|].
        split; [done|]. split; [done|]. split; [done|]. split; [done|].
        intros q Hq Hc. apply elem_of_app in Hq as [Hq|Hq]; [by apply Hafter|].
        apply list_elem_of_singleton in Hq as ->. done.
      * destruct IH as [-> Hall]. split; [done|].
        intros q Hq Hc. apply elem_of_app in Hq as [Hq|Hq]; [by apply Hall|].
        apply list_elem_of_singleton in Hq as ->. done.
Qed.

(** ** Row-major order of the scan *)

Lemma range_sorted lo hi : StronglySorted Z.lt (Py.range lo hi).
Proof.
  unfold Py.range. remember (Z.to_nat (hi - lo)) as k eqn:Hk.
  revert lo hi Hk. induction k as [|k IH]; intros lo hi Hk.
  - rewrite seqZ_nil by lia. constructor.
  - rewrite seqZ_cons by lia. constructor.
    + replace (Z.pred (hi - lo)) with (hi - Z.succ lo) by lia. apply IH. lia.
    + apply Forall_forall. intros x Hx. apply elem_of_seqZ in Hx. lia.
Qed.

Lemma nested_sorted rows cols :
  StronglySorted Z.lt rows → StronglySorted Z.lt cols →
  StronglySorted row_major_lt (Py.nested rows cols).
Proof.
  intros Hrows Hcols. unfold Py.nested.
  induction Hrows as [|i rows Hrows IH Hi]; [constructor|].
  rewrite bind_cons. apply StronglySorted_app_2.
  - intros p q Hp Hq. left.
    apply list_elem_of_bind in Hp as (j & Hp & _). apply list_elem_of_ret in Hp as ->.
    apply (elem_of_nested rows cols) in Hq as [Hq _].
    rewrite Forall_forall in Hi. simpl. by apply Hi.
  - clear IH. induction Hcols as [|j cols Hcols IH Hj]; [constructor|].
    rewrite bind_cons. simpl. constructor; [done|].
    apply Forall_forall. intros q Hq.
    apply list_elem_of_bind in Hq as (j' & Hq & Hj'). apply list_elem_of_ret in Hq as ->.
    right. simpl. split; [done|]. rewrite Forall_forall in Hj. by apply Hj.
  - done.
Qed.

Lemma all_cells_sorted s : StronglySorted row_major_lt (all_cells s).
Proof. apply nested_sorted; apply range_sorted. Qed.

Lemma row_major_lt_asym p q : row_major_lt p q → row_major_lt q p → False.
Proof. unfold row_major_lt. lia. Qed.

Lemma row_major_lt_irrefl p : ¬ row_major_lt p p.
Proof. unfold row_major_lt. lia. Qed.

(** The cells met before [b] are the cells of the grid that precede it. *)
Lemma all_cells_before s l1 b l2 q :
  all_cells s = l1 ++ b :: l2 → in_bounds s q → row_major_lt q b → q ∈ l1.
Proof.
  intros Hl Hq Hlt. apply elem_of_all_cells in Hq. rewrite Hl in Hq.
  pose proof (all_cells_sorted s) as Hs. rewrite Hl in Hs.
  apply elem_of_app in Hq as [Hq|Hq]; [done|].
  apply elem_of_cons in Hq as [->|Hq]; [by apply row_major_lt_irrefl in Hlt|].
  apply StronglySorted_app_1_r, StronglySorted_cons in Hs as [Hs _].
  rewrite Forall_forall in Hs. specialize (Hs q Hq).
  by destruct (row_major_lt_asym _ _ Hlt Hs).
Qed.

(** ** One iteration of the placement loop *)

Lemma best_tower_spec s :
  match best_tower s with
  | (None, c) => c = 0 ∧ ∀ q, in_bounds s q → candidate s q → score s q <= 0
  | (Some b, c) =>
      in_bounds s b ∧ candidate s b ∧ score s b = c ∧ 0 < c ∧
      (∀ q, in_bounds s q → candidate s q → score s q <= c) ∧
      (∀ q, in_bounds s q → candidate s q → row_major_lt q b → score s q < c)
  end.
Proof.
  unfold best_tower. pose proof (scan_spec s (all_cells s)) as H.
  destruct (foldl (scan_step s) (None, 0) (all_cells s)) as [[b|] c].
  - destruct H as (l1 & l2 & Hl & Hb & Hsc & Hpos & Hbefore & Hafter).
    split; [|split; [done|split; [done|split; [done|split]]]].
    + apply elem_of_all_cells. rewrite Hl. apply elem_of_app. right. left.
    + intros q Hq Hc. apply elem_of_all_cells in Hq. rewrite Hl in Hq.
      apply elem_of_app in Hq as [Hq|Hq].
      * specialize (Hbefore q Hq Hc). lia.
      * apply elem_of_cons in Hq as [->|Hq]; [lia|]. by apply Hafter.
    + intros q Hq Hc Hlt. apply Hbefore; [|done]. by eapply all_cells_before.
  - destruct H as [-> H]. split; [done|]. intros q Hq. apply H.
    by apply elem_of_all_cells.
Qed.

Lemma best_tower_Some s b :
  (best_tower s).1 = Some b →
  in_bounds s b ∧ candidate s b ∧ 0 < score s b ∧
  (∀ q, in_bounds s q → candidate s q →
        score s q <= score s b ∧ (row_major_lt q b → score s q < score s b)).
Proof.
  intros Hb. pose proof (best_tower_spec s) as H.
  destruct (best_tower s) as [b' c]. simpl in Hb. subst b'.
  destruct H as (Hin & Hc & <- & Hpos & Hmax & Hfirst).
  split; [done|]. split; [done|]. split; [done|].
  intros q Hq Hcq. split; [by apply Hmax|]. by apply Hfirst.
Qed.

Lemma best_tower_exists s :
  0 <= tower_radius s → get_uncovered_blocks s ≠ [] →
  ∃ b, (best_tower s).1 = Some b.
Proof.
  intros Hr Hne. pose proof (best_tower_spec s) as H.
  destruct (best_tower s) as [[b|] c]; [by exists b|].
  destruct H as [_ H]. exfalso.
  destruct (get_uncovered_blocks s) as [|p l] eqn:E; [done|].
  assert (Hp : p ∈ get_uncovered_blocks s) by (rewrite E; left).
  apply elem_of_uncovered in Hp as [Hp He].
  pose proof (get_coverage_self s p (tower_radius s) Hr Hp He) as Hpos.
  specialize (H p Hp (or_intror He)). unfold score in H. lia.
Qed.

Lemma candidate_free s b :
  candidate s b →
  ∃ c, grid_get (grid s) b.1 b.2 = Some c ∧ c ∉ [Station; Obstructed].
Proof.
  unfold candidate, state_at. intros [H|H]; eexists; (split; [done|]); cell_cases.
Qed.

Lemma place_iteration_best s b :
  (best_tower s).1 = Some b →
  place_iteration s = Some (Returned (commit s b.1 b.2 (tower_radius s))).
Proof.
  intros Hb. unfold place_iteration. rewrite Hb.
  destruct (best_tower_Some s b Hb) as (_ & Hc & _).
  destruct (candidate_free _ _ Hc) as (c0 & Hget & Hfree).
  by rewrite (place_tower_free _ _ _ _ _ Hget Hfree).
Qed.

Lemma cell_is_Empty g p : cell_is g Empty p = true ↔ grid_get g p.1 p.2 = Some Empty.
Proof. unfold cell_is. apply bool_decide_eq_true. Qed.

(** A tower committed where the score is positive leaves fewer uncovered
    cells. *)
Lemma commit_decreases s b :
  candidate s b → 0 < score s b →
  (length (get_uncovered_blocks (commit s b.1 b.2 (tower_radius s)))
   < length (get_uncovered_blocks s))%nat.
Proof.
  intros Hc Hpos. apply get_coverage_pos in Hpos as (p & Hp & He).
  destruct (candidate_free _ _ Hc) as (c0 & Hget & _).
  assert (Hsome : is_Some (grid_get (grid s) b.1 b.2)) by by exists c0.
  rewrite !get_uncovered_blocks_filter.
  change (all_cells (commit s b.1 b.2 (tower_radius s))) with (all_cells s).
  set (s' := commit s b.1 b.2 (tower_radius s)).
  rewrite <- (list_filter_filter_l (fun p => cell_is (grid s') Empty p = true)
                                   (fun p => cell_is (grid s) Empty p = true)).
  - apply (length_filter_lt _ _ p).
    + apply list_elem_of_filter. split; [by apply cell_is_Empty|].
      apply elem_of_window in Hp as [Hp _]. by apply elem_of_all_cells.
    + rewrite cell_is_Empty. intros Hn.
      destruct (commit_covers s b.1 b.2 (tower_radius s) p Hsome Hp) as (c & Hc' & Hne).
      { by exists Empty. }
      unfold state_at in Hc'. fold s' in Hc'. congruence.
  - intros q. rewrite !cell_is_Empty. by apply commit_no_new_empty.
Qed.

Lemma length_all_cells_le s :
  (length (all_cells s) <= Z.to_nat (n s * m s))%nat.
Proof.
  unfold all_cells. rewrite length_nested, !length_range.
  destruct (decide (0 <= n s)), (decide (0 <= m s)); nia.
Qed.

Lemma length_uncovered_le s :
  (length (get_uncovered_blocks s) <= Z.to_nat (n s * m s))%nat.
Proof.
  rewrite get_uncovered_blocks_filter.
  etrans; [apply length_filter|apply length_all_cells_le].
Qed.

(** ** The placement loop *)

(** The loop returns within as many iterations as there are uncovered
    cells, with no uncovered cell left, and every property that each
    iteration keeps holds at the end. *)
Lemma place_loop_returns (P : CityGrid → Prop) :
  (∀ s b, P s → shape_ok s → (best_tower s).1 = Some b →
          P (commit s b.1 b.2 (tower_radius s))) →
  ∀ fuel s,
    shape_ok s → 0 <= tower_radius s → P s →
    (length (get_uncovered_blocks s) <= fuel)%nat →
    ∃ s', place_loop fuel s = Some (Returned s') ∧
          get_uncovered_blocks s' = [] ∧ shape_ok s' ∧ P s' ∧
          n s' = n s ∧ m s' = m s ∧ tower_radius s' = tower_radius s.
Proof.
  intros HP fuel. induction fuel as [|fuel IH]; intros s Hs Hr HPs Hlen.
  - destruct (get_uncovered_blocks s) as [|p l] eqn:E; [|simpl in Hlen; lia].
    exists s. simpl. rewrite E. done.
  - simpl. destruct (get_uncovered_blocks s) as [|p l] eqn:E.
    { exists s. by rewrite E. }
    destruct (best_tower_exists s Hr) as [b Hb]; [by rewrite E|].
    rewrite (place_iteration_best _ _ Hb). unfold display_info.
    destruct (best_tower_Some s b Hb) as (_ & Hc & Hpos & _).
    pose proof (commit_decreases s b Hc Hpos) as Hdec. rewrite E in Hdec.
    destruct (IH (commit s b.1 b.2 (tower_radius s))) as (s' & Hloop & Hrest).
    + by apply commit_shape.
    + done.
    + by apply HP.
    + simpl in Hlen, Hdec. lia.
    + exists s'. split; [done|]. destruct Hrest as (?&?&?&?&?&?). done.
Qed.

(** ** Statements about every cell *)

Lemma every_cell_in_bounds P s :
  shape_ok s →
  every_cell P s ↔ ∀ p c, in_bounds s p → state_at s p = Some c → P c.
Proof.
  intros Hs. unfold every_cell. split.
  - intros H p c Hp Hc. unfold state_at in Hc.
    rewrite grid_get_locate, locate_in_bounds in Hc by done.
    unfold cell_at in Hc. simpl in Hc.
    destruct (grid s !! Z.to_nat p.1) as [row|] eqn:Hrow; simplify_eq/=.
    rewrite Forall_lookup in H. specialize (H _ _ Hrow).
    rewrite Forall_lookup in H. by eapply H.
  - intros H. apply Forall_lookup. intros a row Ha.
    apply Forall_lookup. intros b c Hb.
    destruct Hs as [Hn Hm].
    pose proof (lookup_lt_Some _ _ _ Ha) as Hlta.
    pose proof (lookup_lt_Some _ _ _ Hb) as Hltb.
    assert (Hrow : Z.of_nat (length row) = m s).
    { rewrite Forall_lookup in Hm. by apply (Hm a). }
    assert (Hin : in_bounds s (Z.of_nat a, Z.of_nat b)).
    { unfold in_bounds. simpl. lia. }
    apply (H (Z.of_nat a, Z.of_nat b) c Hin).
    unfold state_at. rewrite grid_get_locate, locate_in_bounds by done.
    unfold cell_at. simpl. rewrite !Nat2Z.id, Ha. done.
Qed.

(* ---------------------------------------------------------------------- *)
(** ** C1: placement covers a grid without obstructions *)



(* ---------------------------------------------------------------------- *)
(** ** C2: the placement loop terminates *)

(** C2. On a grid of the right shape with a non-negative radius: an
    iteration entered with an uncovered cell commits a tower and leaves
    strictly fewer uncovered cells; the loop returns within [n * m]
    iterations with no uncovered cell left; and on a grid whose cells are
    all obstructed it returns without running its body, the object (and so
    the list of towers) untouched. *)
Theorem placement_terminates s :
  shape_ok s → 0 <= tower_radius s →
  (get_uncovered_blocks s ≠ [] →
     ∃ s', place_iteration s = Some (Returned s') ∧
           (length (get_uncovered_blocks s') < length (get_uncovered_blocks s))%nat) ∧
  (∀ fuel, (Z.to_nat (n s * m s) <= fuel)%nat →
     ∃ s', place_optimal_towers fuel s = Some (Returned s') ∧
           get_uncovered_blocks s' = []) ∧
  (every_cell (fun c => c = Obstructed) s →
     place_optimal_towers 0 s = Some (Returned s)).
Proof.
  intros Hs Hr. split; [|split].
  - intros Hne. destruct (best_tower_exists s Hr Hne) as [b Hb].
    exists (commit s b.1 b.2 (tower_radius s)). split; [by apply place_iteration_best|].
    destruct (best_tower_Some s b Hb) as (_ & Hc & Hpos & _).
    by apply commit_decreases.
  - intros fuel Hfuel.
    destruct (place_loop_returns (fun _ => True)) with (fuel := fuel) (s := s)
      as (s' & Hloop & Hnone & _); try done.
    + pose proof (length_uncovered_le s). lia.
    + by exists s'.
  - intros Hobs. unfold place_optimal_towers. simpl.
    destruct (get_uncovered_blocks s) as [|p l] eqn:E; [done|]. exfalso.
    assert (Hp : p ∈ get_uncovered_blocks s) by (rewrite E; left).
    apply elem_of_uncovered in Hp as [Hp He].
    rewrite every_cell_in_bounds in Hobs by done.
    by specialize (Hobs p Empty Hp He).
Qed.

Lemma placement_terminates_witness :
  let s := mkCityGrid 1 2 1 [[Empty; Obstructed]] [] in
  (get_uncovered_blocks s ≠ [] →
     ∃ s', place_iteration s = Some (Returned s') ∧
           (length (get_uncovered_blocks s') < length (get_uncovered_blocks s))%nat) ∧
  (∀ fuel, (Z.to_nat (n s * m s) <= fuel)%nat →
     ∃ s', place_optimal_towers fuel s = Some (Returned s') ∧
           get_uncovered_blocks s' = []) ∧
  (every_cell (fun c => c = Obstructed) s →
     place_optimal_towers 0 s = Some (Returned s)).
Proof.
  apply (placement_terminates (mkCityGrid 1 2 1 [[Empty; Obstructed]] [])).
  - split; [reflexivity|]. repeat constructor.
  - simpl. lia.
Defined.

(* ---------------------------------------------------------------------- *)
(** ** C5: the scan commits the first cell of maximum score *)

(** C5. In an iteration of the placement loop (entered with an uncovered
    cell, on a grid of the right shape with a non-negative radius) a tower
    is committed at a cell [b] of the grid that holds [0] or ['#'];
    no cell of the grid holding [0] or ['#'] has a higher coverage score
    than [b], and every such cell met before [b] in row-major order has a
    strictly lower one. *)
Theorem scan_commits_first_maximum s :
  shape_ok s → 0 <= tower_radius s → get_uncovered_blocks s ≠ [] →
  ∃ b, place_iteration s = Some (Returned (commit s b.1 b.2 (tower_radius s))) ∧
       towers (commit s b.1 b.2 (tower_radius s)) = towers s ++ [b] ∧
       in_bounds s b ∧
       (state_at s b = Some Covered ∨ state_at s b = Some Empty) ∧
       ∀ q, in_bounds s q →
            (state_at s q = Some Covered ∨ state_at s q = Some Empty) →
            get_coverage s q.1 q.2 (tower_radius s)
              <= get_coverage s b.1 b.2 (tower_radius s) ∧
            (row_major_lt q b →
             get_coverage s q.1 q.2 (tower_radius s)
               < get_coverage s b.1 b.2 (tower_radius s)).
Proof.
  intros Hs Hr Hne. destruct (best_tower_exists s Hr Hne) as [b Hb].
  exists b. split; [by apply place_iteration_best|].
  split; [by destruct b|].
  destruct (best_tower_Some s b Hb) as (Hin & Hc & _ & Hmax).
  split; [done|]. split; [done|]. intros q Hq Hcq. by apply Hmax.
Qed.

Lemma scan_commits_first_maximum_witness :
  let s := mkCityGrid 1 4 1 [[Covered; Station; Covered; Empty]] [(0, 1)] in
  ∃ b, place_iteration s = Some (Returned (commit s b.1 b.2 (tower_radius s))) ∧
       towers (commit s b.1 b.2 (tower_radius s)) = towers s ++ [b] ∧
       in_bounds s b ∧
       (state_at s b = Some Covered ∨ state_at s b = Some Empty) ∧
       ∀ q, in_bounds s q →
            (state_at s q = Some Covered ∨ state_at s q = Some Empty) →
            get_coverage s q.1 q.2 (tower_radius s)
              <= get_coverage s b.1 b.2 (tower_radius s) ∧
            (row_major_lt q b →
             get_coverage s q.1 q.2 (tower_radius s)
               < get_coverage s b.1 b.2 (tower_radius s)).
Proof.
  apply (scan_commits_first_maximum
           (mkCityGrid 1 4 1 [[Covered; Station; Covered; Empty]] [(0, 1)])).
  - split; [reflexivity|]. repeat constructor.
  - simpl. lia.
  - vm_compute. discriminate.
Defined.

(** The scan on the grid [# | # 0]: the cells [(0,2)] and [(0,3)] both score
    1, and the tower goes to the first of them. *)
Example scan_tie_break :
  place_iteration (mkCityGrid 1 4 1 [[Covered; Station; Covered; Empty]] [(0, 1)])
  = Some (Returned
            (mkCityGrid 1 4 1 [[Covered; Station; Station; Covered]] [(0, 1); (0, 2)])).
Proof. reflexivity. Qed.

(* ---------------------------------------------------------------------- *)
(** ** C4: a tower on an occupied cell *)

(** C4, as the code has it. [place_tower] on a cell holding ['X'] or ['|']
    raises nothing: it returns with the object (grid and [towers])
    unchanged. And whatever cell it is called on: every cell holding ['X']
    or ['|'] before the call holds the same afterwards; and every cell
    either holds what it held, or held neither ['|'] nor ['X'] and holds
    ['|'], or held [0] and holds ['#']. *)
Theorem place_tower_keeps_identity s x y r :
  (∀ c, grid_get (grid s) x y = Some c → c = Obstructed ∨ c = Station →
        place_tower s x y r = Returned s) ∧
  (∀ i j c, c = Obstructed ∨ c = Station →
            grid_get (grid s) i j = Some c →
            grid_get (grid (final (place_tower s x y r))) i j = Some c) ∧
  (∀ i j,
     let old := grid_get (grid s) i j in
     let new := grid_get (grid (final (place_tower s x y r))) i j in
     new = old ∨
     (new = Some Station ∧ ∃ c0, old = Some c0 ∧ c0 ≠ Station ∧ c0 ≠ Obstructed) ∨
     (old = Some Empty ∧ new = Some Covered)).
Proof.
  split; [|split].
  - intros c Hc Hocc. apply (place_tower_occupied s x y r c Hc).
    destruct Hocc as [-> | ->]; cell_cases.
  - intros i j c Hc Hij.
    destruct (grid_get (grid s) x y) as [c0|] eqn:Hxy.
    + destruct (decide (c0 ∈ [Station; Obstructed])) as [Hocc|Hfree].
      * by rewrite (place_tower_occupied s x y r c0 Hxy Hocc).
      * rewrite (place_tower_free s x y r c0 Hxy Hfree). simpl.
        apply (commit_keeps_identity s x y r c0 i j c Hxy Hfree); [|done].
        destruct Hc as [-> | ->]; cell_cases.
    + by rewrite (place_tower_out_of_range s x y r Hxy).
  - intros i j old new. subst old new.
    destruct (grid_get (grid s) x y) as [c0|] eqn:Hxy.
    + destruct (decide (c0 ∈ [Station; Obstructed])) as [Hocc|Hfree].
      * rewrite (place_tower_occupied s x y r c0 Hxy Hocc). by left.
      * rewrite (place_tower_free s x y r c0 Hxy Hfree). simpl.
        pose proof (commit_get s x y r i j) as H. cbv zeta in H.
        rewrite Hxy in H. specialize (H (mk_is_Some _ _ eq_refl)).
        case_decide as Hloc.
        -- right. left. split; [done|]. exists c0.
           apply same_location_same_cell in Hloc. rewrite Hloc, Hxy.
           split; [done|]. cell_cases.
        -- destruct H as [H|H]; [by left|by right; right].
    + rewrite (place_tower_out_of_range s x y r Hxy). by left.
Qed.

Lemma place_tower_keeps_identity_witness :
  let s := mkCityGrid 1 3 1 [[Obstructed; Empty; Station]] [(0, 2)] in
  place_tower s 0 0 1 = Returned s ∧
  grid_get (grid (final (place_tower s 0 1 1))) 0 2 = Some Station ∧
  (let old := grid_get (grid s) 0 1 in
   let new := grid_get (grid (final (place_tower s 0 1 1))) 0 1 in
   new = old ∨
   (new = Some Station ∧ ∃ c0, old = Some c0 ∧ c0 ≠ Station ∧ c0 ≠ Obstructed) ∨
   (old = Some Empty ∧ new = Some Covered)).
Proof.
  pose proof (place_tower_keeps_identity
                (mkCityGrid 1 3 1 [[Obstructed; Empty; Station]] [(0, 2)])) as H.
  split; [|split].
  - apply (proj1 (H 0 0 1) Obstructed); [reflexivity | by left].
  - apply (proj1 (proj2 (H 0 1 1)) 0 2 Station); [by right | reflexivity].
  - apply (proj2 (proj2 (H 0 1 1)) 0 1).
Defined.

(** C4, as the claim has it, fails: placing a tower on an obstructed cell
    raises no error. *)
Lemma place_tower_on_obstruction_returns :
  let s := uniform 1 1 1 Obstructed in
  grid_get (grid s) 0 0 = Some Obstructed ∧
  ¬ raises (place_tower s 0 0 1) ∧
  place_tower s 0 0 1 = Returned s.
Proof. split; [reflexivity|]. split; [|reflexivity]. intros H. exact H. Qed.

(** ** Stores of build_path_on_grid *)

Lemma store_in_bounds s p v :
  shape_ok s → in_bounds s p →
  store s p v = Returned (with_grid s (grid_put (grid s) p.1 p.2 v)).
Proof.
  intros Hs Hp. unfold store, grid_put. rewrite grid_set_locate.
  by rewrite locate_in_bounds.
Qed.

Lemma store_out_of_range s p v :
  grid_get (grid s) p.1 p.2 = None → store s p v = Raised IndexError s.
Proof.
  intros H. unfold store. rewrite grid_set_locate.
  destruct (locate (grid s) p.1 p.2) as [ab|] eqn:E; [|done].
  assert (is_Some (grid_get (grid s) p.1 p.2)) as [c Hc].
  { apply locate_is_Some. by exists ab. }
  congruence.
Qed.

Lemma with_grid_put_state s p v q :
  shape_ok s → in_bounds s p → in_bounds s q →
  state_at (with_grid s (grid_put (grid s) p.1 p.2 v)) q =
    if decide (p = q) then Some v else state_at s q.
Proof. intros. unfold state_at at 1. simpl. by apply state_at_put. Qed.

Lemma mark_interior_in_bounds l s :
  shape_ok s → Forall (in_bounds s) l →
  ∃ s', mark_interior s l = Returned s' ∧ shape_ok s' ∧
        n s' = n s ∧ m s' = m s ∧ tower_radius s' = tower_radius s ∧
        towers s' = towers s ∧
        ∀ q, in_bounds s q →
             state_at s' q = if decide (q ∈ l) then Some PathMark else state_at s q.
Proof.
  revert s. induction l as [|p l IH]; intros s Hs Hl.
  - exists s. repeat (split; [done|]). intros q Hq.
    rewrite decide_False; [done|]. apply not_elem_of_nil.
  - apply Forall_cons in Hl as [Hp Hl]. simpl.
    rewrite store_in_bounds by done. simpl.
    set (s1 := with_grid s (grid_put (grid s) p.1 p.2 PathMark)).
    assert (Hs1 : shape_ok s1) by by apply shape_ok_put.
    destruct (IH s1 Hs1 Hl) as (s' & Hm & Hs' & Hn' & Hm' & Hr' & Ht' & Hst).
    exists s'. split; [done|]. split; [done|]. repeat (split; [done|]).
    intros q Hq. rewrite (Hst q Hq).
    unfold s1. rewrite with_grid_put_state by done.
    destruct (decide (p = q)) as [->|Hne].
    + rewrite (decide_True (P := q ∈ q :: l)) by left. by case_decide.
    + destruct (decide (q ∈ l)) as [Hin|Hnin].
      * rewrite decide_True; [done|]. by right.
      * rewrite decide_False; [done|]. intros Hc.
        apply elem_of_cons in Hc as [->|?]; done.
Qed.

Lemma getitem_first {A} (l : list A) : Py.getitem l 0 = head l.
Proof.
  destruct l as [|a l]; [apply getitem_nil|].
  unfold Py.getitem. rewrite index_nonneg by (simpl; lia). done.
Qed.

Lemma getitem_last {A} (l : list A) : Py.getitem l (-1) = last l.
Proof.
  destruct l as [|a l]; [apply getitem_nil|].
  unfold Py.getitem, Py.index.
  rewrite decide_False by lia. rewrite decide_True by (simpl; lia).
  simpl. rewrite last_lookup. f_equal. simpl. lia.
Qed.

Lemma interior_subseteq {A} (l : list A) x : x ∈ Py.interior l → x ∈ l.
Proof.
  unfold Py.interior. destruct l as [|a l]; simpl; [done|].
  intros H. right. destruct l as [|b l] using rev_ind; [done|].
  rewrite removelast_last in H. apply elem_of_app. by left.
Qed.

Lemma in_bounds_same s s' p :
  n s' = n s → m s' = m s → in_bounds s p → in_bounds s' p.
Proof. unfold in_bounds. intros -> ->. done. Qed.

(** What [build_path_on_grid] leaves behind for a non-empty path inside the
    grid: the last cell holds ['E'], the first (if it is not also the last)
    ['B'], the other cells of the path ['*'], every other cell what it
    held. *)
Lemma build_path_on_grid_marks s path :
  shape_ok s → path ≠ [] → Forall (in_bounds s) path →
  ∃ s', build_path_on_grid s path = Returned s' ∧ shape_ok s' ∧
        n s' = n s ∧ m s' = m s ∧ tower_radius s' = tower_radius s ∧
        towers s' = towers s ∧
        ∀ q, in_bounds s q →
             state_at s' q =
               if decide (last path = Some q) then Some EndMark
               else if decide (head path = Some q) then Some BeginMark
               else if decide (q ∈ Py.interior path) then Some PathMark
               else state_at s q.
Proof.
  intros Hs Hne Hall. unfold build_path_on_grid.
  destruct (mark_interior_in_bounds (Py.interior path) s Hs)
    as (s1 & Hm1 & Hs1 & Hn1 & Hc1 & Hr1 & Ht1 & Hst1).
  { apply Forall_forall. intros q Hq. rewrite Forall_forall in Hall.
    by apply Hall, interior_subseteq. }
  rewrite Hm1. simpl. rewrite getitem_first, getitem_last.
  destruct path as [|first rest] eqn:Epath; [done|]. rewrite <- Epath in *.
  assert (Hhead : head path = Some first) by by rewrite Epath.
  destruct (last path) as [final_|] eqn:Elast;
    [|apply last_None in Elast; congruence].
  rewrite Hhead.
  assert (Hfirst : in_bounds s first).
  { rewrite Forall_forall in Hall. apply Hall. rewrite Epath. left. }
  assert (Hfinal : in_bounds s final_).
  { rewrite Forall_forall in Hall. apply Hall. by apply last_Some_elem_of. }
  rewrite store_in_bounds by (try done; by apply (in_bounds_same s)).
  simpl.
  set (s2 := with_grid s1 (grid_put (grid s1) first.1 first.2 BeginMark)).
  assert (Hs2 : shape_ok s2) by by apply shape_ok_put.
  rewrite store_in_bounds by (try done; by apply (in_bounds_same s)).
  set (s3 := with_grid s2 (grid_put (grid s2) final_.1 final_.2 EndMark)).
  exists s3. split; [done|]. split; [by apply shape_ok_put|].
  repeat (split; [done|]).
  intros q Hq. unfold s3.
  rewrite with_grid_put_state by (try done; by apply (in_bounds_same s)).
  unfold s2.
  rewrite with_grid_put_state by (try done; by apply (in_bounds_same s)).
  rewrite (Hst1 q Hq).
  repeat case_decide; simplify_eq; done.
Qed.

(* ---------------------------------------------------------------------- *)
(** ** C10: index accesses of build_path_on_grid *)

(** C10. For a non-empty path whose coordinates are inside the grid,
    [build_path_on_grid] returns without an [IndexError]: the last cell of
    the path then holds ['E'] (so a one-element path ends as ['E']), the
    first, when it differs from the last, holds ['B'], the cells in between
    hold ['*'] unless they are also the first or the last. Called with the
    empty path it raises [IndexError], the grid untouched. *)
Theorem build_path_on_grid_needs_a_path s :
  shape_ok s →
  (∀ path, path ≠ [] → Forall (in_bounds s) path →
     ∃ s', build_path_on_grid s path = Returned s' ∧
           ∀ q, in_bounds s q →
                state_at s' q =
                  if decide (last path = Some q) then Some EndMark
                  else if decide (head path = Some q) then Some BeginMark
                  else if decide (q ∈ Py.interior path) then Some PathMark
                  else state_at s q) ∧
  (∀ c, in_bounds s c →
     ∃ s', build_path_on_grid s [c] = Returned s' ∧ state_at s' c = Some EndMark) ∧
  build_path_on_grid s [] = Raised IndexError s.
Proof.
  intros Hs. split; [|split].
  - intros path Hne Hall.
    destruct (build_path_on_grid_marks s path Hs Hne Hall) as (s' & Hb & _ & _ & _ & _ & _ & Hst).
    by exists s'.
  - intros c Hc.
    destruct (build_path_on_grid_marks s [c] Hs) as (s' & Hb & _ & _ & _ & _ & _ & Hst).
    + done.
    + by apply Forall_singleton.
    + exists s'. split; [done|]. rewrite (Hst c Hc). by rewrite decide_True.
  - done.
Qed.

Lemma build_path_on_grid_needs_a_path_witness :
  let s := mkCityGrid 1 4 1 [[Covered; Station; Station; Covered]] [(0, 1); (0, 2)] in
  (∃ s', build_path_on_grid s [(0, 1); (0, 2); (0, 3)] = Returned s' ∧
         state_at s' (0, 1) = Some BeginMark ∧ state_at s' (0, 2) = Some PathMark ∧
         state_at s' (0, 3) = Some EndMark ∧ state_at s' (0, 0) = Some Covered) ∧
  (∃ s', build_path_on_grid s [(0, 1)] = Returned s' ∧
         state_at s' (0, 1) = Some EndMark) ∧
  build_path_on_grid s [] = Raised IndexError s.
Proof.
  intros s.
  assert (Hs : shape_ok s) by (split; [reflexivity | repeat constructor]).
  destruct (build_path_on_grid_needs_a_path s Hs) as (Hpath & Hone & Hnil).
  split; [|split; [|exact Hnil]].
  - destruct (Hpath [(0, 1); (0, 2); (0, 3)]) as (s' & Hb & Hst).
    + discriminate.
    + repeat constructor; simpl; lia.
    + exists s'. split; [exact Hb|].
      assert (Hin : ∀ j, 0 <= j < 4 → in_bounds s (0, j)).
      { intros j Hj. split; simpl; lia. }
      rewrite (Hst (0, 1)), (Hst (0, 2)), (Hst (0, 3)), (Hst (0, 0)) by (apply Hin; lia).
      repeat split; reflexivity.
  - apply (Hone (0, 1)). split; simpl; lia.
Defined.

(** ** The open list *)

Lemma entry_ltb_key e1 e2 :
  Search.entry_ltb e1 e2 = true → Search.key e1 <= Search.key e2.
Proof.
  unfold Search.entry_ltb. case_bool_decide as Hk; [lia|].
  rewrite bool_decide_eq_true. lia.
Qed.

Lemma entry_ltb_key_false e1 e2 :
  Search.entry_ltb e1 e2 = false → Search.key e2 <= Search.key e1.
Proof.
  unfold Search.entry_ltb. case_bool_decide as Hk; [lia|].
  rewrite bool_decide_eq_false. lia.
Qed.

Lemma py_min_spec rest e0 :
  Search.py_min e0 rest ∈ e0 :: rest ∧
  ∀ e, e ∈ e0 :: rest → Search.key (Search.py_min e0 rest) <= Search.key e.
Proof.
  unfold Search.py_min. induction rest as [|x rest IH] using rev_ind.
  - simpl. split; [left|]. intros e He. apply list_elem_of_singleton in He as ->. lia.
  - rewrite foldl_snoc. destruct IH as [Hin Hmin].
    set (best := foldl _ e0 rest) in *.
    destruct (Search.entry_ltb x best) eqn:Hlt.
    + apply entry_ltb_key in Hlt. split.
      * rewrite app_comm_cons. apply elem_of_app. right. left.
      * intros e He. rewrite app_comm_cons in He.
        apply elem_of_app in He as [He|He].
        -- specialize (Hmin e He). lia.
        -- apply list_elem_of_singleton in He as ->. lia.
    + apply entry_ltb_key_false in Hlt. split.
      * rewrite app_comm_cons. apply elem_of_app. by left.
      * intros e He. rewrite app_comm_cons in He.
        apply elem_of_app in He as [He|He]; [by apply Hmin|].
        apply list_elem_of_singleton in He as ->. lia.
Qed.

Lemma remove_subseteq v l e : e ∈ Search.remove v l → e ∈ l.
Proof.
  induction l as [|x l IH]; simpl; [done|].
  case_decide; [by right|]. intros Hin.
  apply elem_of_cons in Hin as [->|Hin]; [left|right; by apply IH].
Qed.

Lemma remove_length v l : v ∈ l → S (length (Search.remove v l)) = length l.
Proof.
  induction l as [|x l IH]; intros Hin; [by apply elem_of_nil in Hin|].
  simpl. case_decide as Hx; [done|].
  apply elem_of_cons in Hin as [->|Hin]; [done|]. simpl. by rewrite IH.
Qed.

Lemma foldl_collect_map {A B} (P : A → bool) (f : A → B) (l : list A) (acc : list B) :
  foldl (fun acc p => if P p then acc ++ [f p] else acc) acc l
  = acc ++ (f <$> filter (fun p => P p = true) l).
Proof.
  revert acc. induction l as [|a l IH]; intros acc; simpl.
  - by rewrite app_nil_r.
  - rewrite IH, filter_cons. destruct (P a).
    + rewrite decide_True by done. by rewrite <- app_assoc.
    + by rewrite decide_False by done.
Qed.

Lemma cell_in_passable s p :
  in_bounds s p → cell_in (grid s) [Covered; Station] p = true → passable s p.
Proof.
  intros Hp. unfold cell_in, passable, state_at.
  destruct (grid_get (grid s) p.1 p.2) as [c|]; [|done].
  rewrite bool_decide_eq_true. intros Hc. split; [done|]. destruct c; cell_cases.
Qed.

(** The entries appended for a cell: one for each passable cell of the grid
    at Chebyshev distance 1, with the trail extended by the cell and the
    key [len(path) + 1] plus the Manhattan distance to the end. *)
Lemma elem_of_successors s end_ x y path e :
  e ∈ Search.successors s end_ x y path →
  ∃ p, passable s p ∧ chebyshev (x, y) p <= 1 ∧
       e = (Z.of_nat (length path) + 1 + manhattan p end_, p, path ++ [(x, y)]).
Proof.
  unfold Search.successors.
  rewrite (foldl_collect_map
    (fun p => bool_decide (p.1 ≠ x ∨ p.2 ≠ y) && cell_in (grid s) [Covered; Station] p)
    (fun p => (Z.of_nat (length path) + 1 + Z.abs (p.1 - end_.1) + Z.abs (p.2 - end_.2),
               p, path ++ [(x, y)]))).
  simpl. intros He. apply list_elem_of_fmap in He as (p & -> & Hp).
  apply list_elem_of_filter in Hp as [Hc Hp].
  apply andb_true_iff in Hc as [_ Hc].
  apply elem_of_nested in Hp as [Hi Hj]. apply elem_of_range in Hi, Hj.
  exists p. split; [|split].
  - apply cell_in_passable; [|done]. unfold in_bounds. lia.
  - unfold chebyshev. simpl. lia.
  - unfold manhattan. f_equal. f_equal. lia.
Qed.

Lemma length_successors s end_ x y path :
  (length (Search.successors s end_ x y path) <= 9)%nat.
Proof.
  unfold Search.successors.
  rewrite (foldl_collect_map
    (fun p => bool_decide (p.1 ≠ x ∨ p.2 ≠ y) && cell_in (grid s) [Covered; Station] p)
    (fun p => (Z.of_nat (length path) + 1 + Z.abs (p.1 - end_.1) + Z.abs (p.2 - end_.2),
               p, path ++ [(x, y)]))).
  simpl. rewrite length_fmap.
  etrans; [apply length_filter|]. rewrite length_nested, !length_range. nia.
Qed.

(** ** Walks *)

Lemma walk_head s start l : walk s start l → head l = Some start.
Proof.
  induction 1 as [|l p q _ IH _ _]; [done|].
  rewrite <- IH. by destruct l.
Qed.

Lemma walk_elem_of s start l q :
  walk s start l → q ∈ l → q = start ∨ passable s q.
Proof.
  induction 1 as [|l p q' _ IH Hq' _]; intros Hq.
  - apply list_elem_of_singleton in Hq. by left.
  - apply elem_of_app in Hq as [Hq|Hq]; [by apply IH|].
    apply list_elem_of_singleton in Hq as ->. by right.
Qed.

Lemma walk_adjacent s start l i a b :
  walk s start l → l !! i = Some a → l !! S i = Some b → chebyshev a b <= 1.
Proof.
  induction 1 as [|l p q _ IH _ Hpq] in i, a, b |- *; intros Ha Hb.
  - by destruct i.
  - destruct (decide (S i < length (l ++ [p]))%nat) as [Hlt|Hge].
    + rewrite lookup_app_l in Ha by lia. rewrite lookup_app_l in Hb by lia.
      by eapply IH.
    + pose proof (lookup_lt_Some _ _ _ Hb) as Hlen.
      rewrite length_app in Hlen. simpl in Hlen.
      assert (Hi : S i = length (l ++ [p])) by lia.
      rewrite lookup_app_r in Hb by lia.
      replace (S i - length (l ++ [p]))%nat with 0%nat in Hb by lia.
      simpl in Hb. simplify_eq.
      rewrite lookup_app_l in Ha by lia.
      rewrite length_app in Hi. simpl in Hi.
      rewrite lookup_app_r in Ha by lia.
      replace (i - length l)%nat with 0%nat in Ha by lia.
      simpl in Ha. by simplify_eq.
Qed.

Lemma walk_last_in_reach s start l p :
  walk s start (l ++ [p]) → p = start ∨ in_bounds s p.
Proof.
  intros H. destruct (walk_elem_of s start (l ++ [p]) p H) as [?|[? _]]; auto.
  apply elem_of_app. right. left.
Qed.

(** ** The search loop *)

Lemma explored_in e0 rest : Search.explored e0 rest ∈ e0 :: rest.
Proof. apply py_min_spec. Qed.

Lemma entry_ok_init s start end_ : entry_ok s start end_ (0, start, []).
Proof. split; [apply walk_start | by left]. Qed.

Lemma entry_ok_successor s start end_ e e' :
  entry_ok s start end_ e →
  e' ∈ Search.successors s end_ (Search.pos e).1 (Search.pos e).2 (Search.trail e) →
  entry_ok s start end_ e'.
Proof.
  intros [Hw _] He'. apply elem_of_successors in He' as (p & Hp & Hnear & ->).
  replace ((Search.pos e).1, (Search.pos e).2) with (Search.pos e) in *
    by by destruct (Search.pos e).
  split.
  - simpl. by apply walk_step.
  - right. unfold Search.key, Search.pos, Search.trail. simpl.
    rewrite length_app. simpl. lia.
Qed.

(** An iteration that goes on leaves an open list of good entries. *)
Lemma step_continue s start end_ e0 rest closed open' closed' :
  Forall (entry_ok s start end_) (e0 :: rest) →
  Search.step s end_ e0 rest closed = Search.Continue open' closed' →
  Forall (entry_ok s start end_) open'.
Proof.
  intros Hall Hstep. unfold Search.step in Hstep.
  pose proof (explored_in e0 rest) as Hin.
  set (e := Search.explored e0 rest) in *.
  rewrite Forall_forall in Hall.
  assert (Hrem : ∀ x, x ∈ Search.remove e (e0 :: rest) → entry_ok s start end_ x).
  { intros x Hx. by apply Hall, (remove_subseteq e). }
  case_bool_decide; [done|]. case_bool_decide; simplify_eq.
  - by apply Forall_forall.
  - apply Forall_forall. intros x Hx. apply elem_of_app in Hx as [Hx|Hx]; [by apply Hrem|].
    apply (entry_ok_successor s start end_ e); [by apply Hall|done].
Qed.

(** An iteration that finds the end returns the walk of the entry it took. *)
Lemma step_found s start end_ e0 rest closed path :
  Forall (entry_ok s start end_) (e0 :: rest) →
  Search.step s end_ e0 rest closed = Search.Found path →
  walk s start path ∧ last path = Some end_.
Proof.
  intros Hall Hstep. unfold Search.step in Hstep.
  pose proof (explored_in e0 rest) as Hin.
  set (e := Search.explored e0 rest) in *.
  rewrite Forall_forall in Hall. destruct (Hall e Hin) as [Hw _].
  case_bool_decide as Hend; [|by case_bool_decide].
  simplify_eq. split; [done|]. by rewrite last_snoc.
Qed.

Lemma loop_result s start end_ fuel open_list closed r s' :
  Forall (entry_ok s start end_) open_list →
  Search.loop fuel s end_ open_list closed = Some (r, s') →
  s' = s ∧ ∀ path, r = Some path → walk s start path ∧ last path = Some end_.
Proof.
  revert open_list closed. induction fuel as [|fuel IH]; intros open_list closed Hall Hloop.
  - destruct open_list; simplify_eq/=. done.
  - destruct open_list as [|e0 rest]; simplify_eq/=; [done|].
    destruct (Search.step s end_ e0 rest closed) as [path|open' closed'] eqn:Hstep.
    + simplify_eq. split; [done|]. intros path' [= <-]. by eapply step_found.
    + eapply IH; [|done]. by eapply step_continue.
Qed.

Lemma reachable_entries s start end_ open_list closed :
  reachable s start end_ open_list closed →
  Forall (entry_ok s start end_) open_list.
Proof.
  induction 1 as [|e0 rest closed open' closed' _ IH Hstep].
  - apply Forall_singleton, entry_ok_init.
  - by eapply step_continue.
Qed.

(** ** The search ends *)

Lemma strongly_sorted_NoDup {A} (R : relation A) (l : list A) :
  (∀ x, ¬ R x x) → StronglySorted R l → NoDup l.
Proof.
  intros Hirr. induction 1 as [|x l _ IH Hx]; constructor; [|done].
  intros Hin. rewrite Forall_forall in Hx. by apply (Hirr x), Hx.
Qed.

Lemma universe_size s (start : coord) :
  (size ({[start]} ∪ list_to_set (all_cells s) : gset coord)
   <= 1 + Z.to_nat (n s * m s))%nat.
Proof.
  rewrite size_union_alt, size_singleton.
  assert (size (list_to_set (all_cells s) ∖ {[start]} : gset coord)
          <= Z.to_nat (n s * m s))%nat; [|lia].
  etrans; [apply subseteq_size, subseteq_difference_l; reflexivity|].
  rewrite size_list_to_set.
  - apply length_all_cells_le.
  - apply (strongly_sorted_NoDup row_major_lt); [apply row_major_lt_irrefl|].
    apply all_cells_sorted.
Qed.

Lemma loop_ends (s : CityGrid) (start end_ : coord) (fuel : nat)
    (open_list : list Search.entry) (closed : gset coord) :
  let U : gset coord := {[start]} ∪ list_to_set (all_cells s) in
  Forall (entry_ok s start end_) open_list →
  closed ⊆ U →
  (length open_list + 9 * (size U - size closed) <= fuel)%nat →
  ∃ r, Search.loop fuel s end_ open_list closed = Some (r, s).
Proof.
  intros U. revert open_list closed.
  induction fuel as [|fuel IH]; intros open_list closed Hall Hsub Hfuel.
  - destruct open_list; [by eexists|]. simpl in Hfuel. lia.
  - destruct open_list as [|e0 rest]; [by eexists|].
    simpl. destruct (Search.step s end_ e0 rest closed) as [path|open' closed'] eqn:Hstep;
      [by eexists|].
    pose proof (step_continue _ _ _ _ _ _ _ _ Hall Hstep) as Hall'.
    apply IH; [done| |]; unfold Search.step in Hstep;
      pose proof (explored_in e0 rest) as Hin;
      set (e := Search.explored e0 rest) in *;
      pose proof (remove_length e (e0 :: rest) Hin) as Hlen;
      (assert (HeU : Search.pos e ∈ U);
       [ rewrite Forall_forall in Hall; destruct (Hall e Hin) as [Hw _];
         apply walk_last_in_reach in Hw as [->|Hw];
         [ apply elem_of_union; left; by apply elem_of_singleton
         | apply elem_of_union; right; by apply elem_of_list_to_set, elem_of_all_cells ]
       | ]);
      (case_bool_decide; [done|]); case_bool_decide as Hcl; simplify_eq.
    + done.
    + apply union_subseteq. split; [by apply singleton_subseteq_l|done].
    + simpl in Hfuel, Hlen. lia.
    + assert (Hsub' : {[Search.pos e]} ∪ closed ⊆ U).
      { apply union_subseteq. split; [by apply singleton_subseteq_l|done]. }
      apply subseteq_size in Hsub'.
      rewrite size_union in Hsub' by (by apply disjoint_singleton_l).
      rewrite size_singleton in Hsub'.
      rewrite size_union by (by apply disjoint_singleton_l).
      rewrite size_singleton, length_app.
      pose proof (length_successors s end_ (Search.pos e).1 (Search.pos e).2
                    (Search.trail e)).
      simpl in Hfuel, Hlen. lia.
Qed.

(** [find_path] returns within [search_bound] iterations. *)
Lemma find_path_returns s start end_ fuel :
  (search_bound s <= fuel)%nat →
  ∃ r, find_path fuel s start end_ = Some (r, s).
Proof.
  intros Hfuel. unfold find_path. apply (loop_ends s start).
  - apply Forall_singleton, entry_ok_init.
  - apply empty_subseteq.
  - pose proof (universe_size s start). rewrite size_empty.
    unfold search_bound in Hfuel. simpl. lia.
Qed.

(* ---------------------------------------------------------------------- *)
(** ** C6: the paths find_path returns *)

(** C6, as the code has it. On a grid of the right shape every path
    [find_path] returns begins at the start and stops at the end; each of
    its coordinates is the start or a cell inside the grid holding ['#'] or
    ['|']; so, when the start lies inside the grid, every coordinate lies
    inside the grid and is the start, the end or a cell holding ['#'] or
    ['|'] (a start outside the grid is returned as given); and each two
    consecutive coordinates are at Chebyshev distance at most 1. *)
Theorem find_path_result s start end_ fuel path s' :
  shape_ok s →
  find_path fuel s start end_ = Some (Some path, s') →
  head path = Some start ∧ last path = Some end_ ∧
  (∀ q, q ∈ path →
        q = start ∨
        (in_bounds s q ∧
         (state_at s q = Some Covered ∨ state_at s q = Some Station))) ∧
  (in_bounds s start →
   ∀ q, q ∈ path →
        in_bounds s q ∧
        (q = start ∨ q = end_ ∨
         state_at s q = Some Covered ∨ state_at s q = Some Station)) ∧
  (∀ i a b, path !! i = Some a → path !! S i = Some b → chebyshev a b <= 1).
Proof.
  intros Hs Hfind. unfold find_path in Hfind.
  apply (loop_result s start) in Hfind as [_ Hpath].
  2: { apply Forall_singleton, entry_ok_init. }
  destruct (Hpath path eq_refl) as [Hw Hlast].
  split; [by apply (walk_head s)|]. split; [done|]. split; [|split].
  - intros q Hq. destruct (walk_elem_of s start path q Hw Hq) as [->|[Hin Hst]].
    + by left.
    + right. done.
  - intros Hstart q Hq.
    destruct (walk_elem_of s start path q Hw Hq) as [->|[Hin Hst]].
    + split; [done|by left].
    + split; [done|]. right. right. done.
  - intros i a b. by apply (walk_adjacent s start).
Qed.

Lemma find_path_result_witness :
  let s := mkCityGrid 2 3 1 [[Station; Covered; Obstructed];
                             [Obstructed; Covered; Station]] [(0, 0); (1, 2)] in
  let path := [(0, 0); (1, 1); (1, 2)] in
  head path = Some (0, 0) ∧ last path = Some (1, 2) ∧
  (∀ q, q ∈ path →
        q = (0, 0) ∨
        (in_bounds s q ∧
         (state_at s q = Some Covered ∨ state_at s q = Some Station))) ∧
  (in_bounds s (0, 0) →
   ∀ q, q ∈ path →
        in_bounds s q ∧
        (q = (0, 0) ∨ q = (1, 2) ∨
         state_at s q = Some Covered ∨ state_at s q = Some Station)) ∧
  (∀ i a b, path !! i = Some a → path !! S i = Some b → chebyshev a b <= 1).
Proof.
  intros s path. apply (find_path_result s (0, 0) (1, 2) 20 path s).
  - split; [reflexivity|]. repeat constructor.
  - vm_compute. reflexivity.
Defined.

(** C6, as the claim has it, fails: the start is the first coordinate of a
    returned path whether or not it lies inside the grid. On the grid
    [# | | #] the search from [(-1, -1)] to [(0, 1)] returns a path whose
    first coordinate is outside the grid. *)
Lemma find_path_from_outside :
  let s := mkCityGrid 1 4 1 [[Covered; Station; Station; Covered]] [(0, 1); (0, 2)] in
  find_path 10 s (-1, -1) (0, 1) = Some (Some [(-1, -1); (0, 0); (0, 1)], s) ∧
  (-1, -1) ∈ [(-1, -1); (0, 0); (0, 1)] ∧
  ¬ in_bounds s (-1, -1).
Proof.
  intros s. split; [vm_compute; reflexivity|]. split; [left|].
  intros [Hx _]. simpl in Hx. lia.
Qed.

(* ---------------------------------------------------------------------- *)
(** ** C7: the keys of the open list *)

(** C7, as the code has it. In every state the loop of [find_path] reaches,
    each entry of the open list other than the one the search starts with
    has as key the number [g] of steps of its walk from the start plus the
    Manhattan distance from its coordinate to the end; the entry the search
    starts with has key 0. The entry an iteration explores is in the open
    list and no entry of the open list has a lower key. *)
Theorem open_list_keys s start end_ open_list closed :
  shape_ok s → reachable s start end_ open_list closed →
  (∀ e, e ∈ open_list →
        walk s start (Search.trail e ++ [Search.pos e]) ∧
        (e = (0, start, []) ∨
         Search.key e
           = Z.of_nat (length (Search.trail e)) + manhattan (Search.pos e) end_)) ∧
  (∀ e0 rest, open_list = e0 :: rest →
        Search.explored e0 rest ∈ open_list ∧
        ∀ e, e ∈ open_list → Search.key (Search.explored e0 rest) <= Search.key e).
Proof.
  intros Hs Hreach. split.
  - intros e He. apply reachable_entries in Hreach.
    rewrite Forall_forall in Hreach. by apply Hreach.
  - intros e0 rest ->. apply py_min_spec.
Qed.

Lemma open_list_keys_witness :
  let s := mkCityGrid 1 4 1 [[Covered; Station; Station; Covered]] [(0, 1); (0, 2)] in
  let open_list := [(4, (0, 0), [(0, 1)]); (2, (0, 2), [(0, 1)])] in
  (∀ e, e ∈ open_list →
        walk s (0, 1) (Search.trail e ++ [Search.pos e]) ∧
        (e = (0, (0, 1), []) ∨
         Search.key e
           = Z.of_nat (length (Search.trail e)) + manhattan (Search.pos e) (0, 3))) ∧
  (∀ e0 rest, open_list = e0 :: rest →
        Search.explored e0 rest ∈ open_list ∧
        ∀ e, e ∈ open_list → Search.key (Search.explored e0 rest) <= Search.key e).
Proof.
  intros s open_list.
  apply (open_list_keys s (0, 1) (0, 3) open_list {[(0, 1)]}).
  - split; [reflexivity|]. repeat constructor.
  - apply (reachable_step s (0, 1) (0, 3) (0, (0, 1), []) [] ∅).
    + apply reachable_init.
    + vm_compute. reflexivity.
Defined.

(** C7, as the claim has it, fails for the entry the search starts with:
    it stands for the start, reached after 0 steps, and its key is 0 where
    the Manhattan distance to the end is 3. *)
Lemma first_entry_key_is_zero :
  let s := mkCityGrid 1 4 1 [[Covered; Station; Station; Covered]] [(0, 1); (0, 2)] in
  ∃ e, e ∈ Search.init (0, 0) ∧
       reachable s (0, 0) (0, 3) (Search.init (0, 0)) ∅ ∧
       Search.pos e = (0, 0) ∧ length (Search.trail e) = 0%nat ∧
       Search.key e = 0 ∧
       Z.of_nat (length (Search.trail e)) + manhattan (Search.pos e) (0, 3) = 3.
Proof.
  intros s. exists (0, (0, 0), []).
  split; [left|]. split; [apply reachable_init|]. repeat split.
Qed.

(* ---------------------------------------------------------------------- *)
(** ** C8: a path from a coordinate to itself *)

(** C8. For every grid and every coordinate [c], [find_path(c, c)] returns
    the one-element path [[c]] (in the first iteration of its loop). *)
Theorem find_path_same s c fuel :
  find_path (S fuel) s c c = Some (Some [c], s).
Proof.
  unfold find_path, Search.init. simpl. unfold Search.step.
  change (Search.explored (0, c, []) []) with ((0, c, []) : Search.entry).
  rewrite bool_decide_eq_true_2 by done. done.
Qed.

(* ---------------------------------------------------------------------- *)
(** ** C9: find_path leaves the object alone *)

(** C9. On a grid of the right shape, for every start and end, whenever
    [find_path] returns (a path or [None]) the object it hands back is the
    object it was called on: [grid], [n], [m], [tower_radius] and [towers]
    are what they were. And it does return, within [search_bound]
    iterations of its loop. *)
Theorem find_path_read_only s start end_ :
  shape_ok s →
  (∀ fuel r s', find_path fuel s start end_ = Some (r, s') →
     s' = s ∧ grid s' = grid s ∧ n s' = n s ∧ m s' = m s ∧
     tower_radius s' = tower_radius s ∧ towers s' = towers s) ∧
  (∀ fuel, (search_bound s <= fuel)%nat →
     ∃ r, find_path fuel s start end_ = Some (r, s)).
Proof.
  intros Hs. split.
  - intros fuel r s' Hfind. unfold find_path in Hfind.
    apply (loop_result s start) in Hfind as [-> _]; [done|].
    apply Forall_singleton, entry_ok_init.
  - intros fuel Hfuel. by apply find_path_returns.
Qed.

Lemma find_path_read_only_witness :
  let s := mkCityGrid 1 4 1 [[Covered; Station; Station; Covered]] [(0, 1); (0, 2)] in
  (∀ fuel r s', find_path fuel s (0, 1) (0, 2) = Some (r, s') →
     s' = s ∧ grid s' = grid s ∧ n s' = n s ∧ m s' = m s ∧
     tower_radius s' = tower_radius s ∧ towers s' = towers s) ∧
  (∀ fuel, (search_bound s <= fuel)%nat →
     ∃ r, find_path fuel s (0, 1) (0, 2) = Some (r, s)).
Proof.
  intros s. apply (find_path_read_only s (0, 1) (0, 2)).
  split; [reflexivity|]. repeat constructor.
Defined.

(** ** Annotating a found path *)

Lemma elem_of_interior {A} (l : list A) x :
  x ∈ l → head l ≠ Some x → last l ≠ Some x → x ∈ Py.interior l.
Proof.
  unfold Py.interior. destruct l as [|a l]; [by intros ?%elem_of_nil|].
  simpl. intros Hin Hhead Hlast.
  apply elem_of_cons in Hin as [->|Hin]; [done|].
  destruct l as [|b l _] using rev_ind; [by apply elem_of_nil in Hin|].
  rewrite removelast_last. rewrite app_comm_cons, last_snoc in Hlast.
  apply elem_of_app in Hin as [Hin|Hin]; [done|].
  apply list_elem_of_singleton in Hin as ->. done.
Qed.

(* ---------------------------------------------------------------------- *)
(** ** C3: what the annotation of a found path changes *)

(** C3, as the code has it. On a grid of the right shape, for a start
    inside the grid and a path [find_path] returned, [build_path_on_grid]
    returns; it leaves [towers] as it was; every cell off the path holds
    what it held; every cell on the path holds a marker (['B'], ['*'] or
    ['E']), whatever it held; and every obstructed cell other than the start
    is still obstructed. *)
Theorem annotation_overwrites_the_path s start end_ fuel path s1 :
  shape_ok s → in_bounds s start →
  find_path fuel s start end_ = Some (Some path, s1) →
  ∃ s', build_path_on_grid s1 path = Returned s' ∧
        towers s' = towers s ∧
        (∀ q, in_bounds s q → q ∉ path → state_at s' q = state_at s q) ∧
        (∀ q, in_bounds s q → q ∈ path →
              state_at s' q = Some BeginMark ∨ state_at s' q = Some PathMark ∨
              state_at s' q = Some EndMark) ∧
        (∀ q, in_bounds s q → q ≠ start → state_at s q = Some Obstructed →
              state_at s' q = Some Obstructed).
Proof.
  intros Hs Hstart Hfind. unfold find_path in Hfind.
  apply (loop_result s start) in Hfind as [-> Hpath].
  2: { apply Forall_singleton, entry_ok_init. }
  destruct (Hpath path eq_refl) as [Hw _].
  assert (Hhead : head path = Some start) by by apply (walk_head s).
  assert (Hall : Forall (in_bounds s) path).
  { apply Forall_forall. intros q Hq.
    destruct (walk_elem_of s start path q Hw Hq) as [->|[? _]]; done. }
  destruct (build_path_on_grid_marks s path Hs) as (s' & Hb & _ & _ & _ & _ & Ht & Hst).
  { intros ->. done. }
  { done. }
  assert (Hoff : ∀ q, in_bounds s q → q ∉ path → state_at s' q = state_at s q).
  { intros q Hq Hnin. rewrite (Hst q Hq).
    rewrite decide_False by (intros Hl; by apply Hnin, last_Some_elem_of).
    rewrite decide_False by (intros Hh; by apply Hnin, head_Some_elem_of).
    rewrite decide_False by (intros Hi; by apply Hnin, interior_subseteq).
    done. }
  exists s'. split; [done|]. split; [done|]. split; [done|]. split.
  - intros q Hq Hin. rewrite (Hst q Hq).
    destruct (decide (last path = Some q)) as [|Hl]; [by right; right|].
    destruct (decide (head path = Some q)) as [|Hh]; [by left|].
    rewrite decide_True by by apply elem_of_interior. right. by left.
  - intros q Hq Hne Hobs. rewrite Hoff; [done|done|].
    intros Hin. destruct (walk_elem_of s start path q Hw Hin) as [->|[_ [Hc|Hc]]];
      [done|congruence|congruence].
Qed.

Lemma annotation_overwrites_the_path_witness :
  let s := mkCityGrid 2 3 1 [[Station; Covered; Obstructed];
                             [Obstructed; Covered; Station]] [(0, 0); (1, 2)] in
  let path := [(0, 0); (1, 1); (1, 2)] in
  ∃ s', build_path_on_grid s path = Returned s' ∧
        towers s' = towers s ∧
        (∀ q, in_bounds s q → q ∉ path → state_at s' q = state_at s q) ∧
        (∀ q, in_bounds s q → q ∈ path →
              state_at s' q = Some BeginMark ∨ state_at s' q = Some PathMark ∨
              state_at s' q = Some EndMark) ∧
        (∀ q, in_bounds s q → q ≠ (0, 0) → state_at s q = Some Obstructed →
              state_at s' q = Some Obstructed).
Proof.
  intros s path.
  apply (annotation_overwrites_the_path s (0, 0) (1, 2) 20 path s).
  - split; [reflexivity|]. repeat constructor.
  - split; simpl; lia.
  - vm_compute. reflexivity.
Defined.

(** C3, as the claim has it, fails. On the 1 x 4 grid without obstructions
    and with radius 1, placement puts towers on [(0,1)] and [(0,2)];
    the path found from the first to the second is annotated, and the cell
    of the registered tower [(0,1)] then holds ['B'], not ['|']. *)
Lemma annotation_overwrites_stations :
  let s := mkCityGrid 1 4 1 [[Covered; Station; Station; Covered]] [(0, 1); (0, 2)] in
  place_optimal_towers 4 (uniform 1 4 1 Empty) = Some (Returned s) ∧
  find_path 10 s (0, 1) (0, 2) = Some (Some [(0, 1); (0, 2)], s) ∧
  (0, 1) ∈ towers s ∧ state_at s (0, 1) = Some Station ∧
  ∃ s', build_path_on_grid s [(0, 1); (0, 2)] = Returned s' ∧
        (0, 1) ∈ towers s' ∧
        state_at s' (0, 1) = Some BeginMark ∧
        state_at s' (0, 1) ≠ Some Station.
Proof.
  intros s. split; [reflexivity|]. split; [vm_compute; reflexivity|].
  split; [left|]. split; [reflexivity|].
  exists (mkCityGrid 1 4 1 [[Covered; BeginMark; EndMark; Covered]] [(0, 1); (0, 2)]).
  split; [reflexivity|]. split; [left|]. split; [reflexivity|]. discriminate.
Qed.


(* ====================================================================== *)
(** * Further properties of the code *)

(** ** Indices that count from the end *)

Lemma index_mod len k :
  - Z.of_nat len <= k < Z.of_nat len →
  Py.index len k = Some (Z.to_nat (k `mod` Z.of_nat len)).
Proof.
  intros Hk. unfold Py.index. case_decide as H1.
  - by rewrite Z.mod_small.
  - rewrite decide_True by lia. f_equal. f_equal.
    rewrite <- (Z.mod_small (k + Z.of_nat len) (Z.of_nat len)) by lia.
    rewrite <- (Z_mod_plus_full k 1 (Z.of_nat len)). f_equal. lia.
Qed.

Lemma wrap_in_bounds s p : valid_index s p → in_bounds s (wrap s p).
Proof.
  intros [Hx Hy]. unfold in_bounds, wrap. simpl.
  split; apply Z.mod_pos_bound; lia.
Qed.

Lemma wrap_id s p : in_bounds s p → wrap s p = p.
Proof.
  intros [Hx Hy]. unfold wrap. rewrite !Z.mod_small by done. by destruct p.
Qed.

Lemma locate_valid s p :
  shape_ok s → valid_index s p →
  locate (grid s) p.1 p.2 = locate (grid s) (wrap s p).1 (wrap s p).2.
Proof.
  intros Hs Hp. pose proof (wrap_in_bounds s p Hp) as Hw.
  rewrite (locate_in_bounds s (wrap s p)) by done.
  destruct Hs as [Hn Hm], Hp as [Hx Hy]. unfold locate.
  rewrite index_mod by lia. simpl. rewrite Hn.
  destruct (lookup_lt_is_Some_2 (grid s) (Z.to_nat (p.1 `mod` n s))) as [row Hrow].
  { destruct Hw as [Hw _]. simpl in Hw. lia. }
  rewrite Hrow. simpl.
  rewrite Forall_lookup in Hm. specialize (Hm _ _ Hrow). simpl in Hm.
  rewrite index_mod by lia. simpl. by rewrite Hm.
Qed.

Lemma grid_get_valid s p :
  shape_ok s → valid_index s p →
  grid_get (grid s) p.1 p.2 = state_at s (wrap s p).
Proof. intros Hs Hp. apply same_location_same_cell. by apply locate_valid. Qed.

Lemma grid_get_invalid s p :
  shape_ok s → ¬ valid_index s p → grid_get (grid s) p.1 p.2 = None.
Proof.
  intros [Hn Hm] Hp. unfold grid_get, Py.getitem.
  destruct (Py.index (length (grid s)) p.1) as [a|] eqn:Ha; [|done]. simpl.
  destruct (grid s !! a) as [row|] eqn:Hrow; [|done]. simpl.
  rewrite Forall_lookup in Hm. specialize (Hm _ _ Hrow). simpl in Hm.
  destruct (Py.index (length row) p.2) as [b|] eqn:Hb; [|done]. exfalso.
  apply Hp. split.
  - destruct (decide (- n s <= p.1 < n s)); [done|].
    assert (Py.index (length (grid s)) p.1 = None) by (apply index_None; lia).
    congruence.
  - destruct (decide (- m s <= p.2 < m s)); [done|].
    assert (Py.index (length row) p.2 = None) by (apply index_None; lia).
    congruence.
Qed.

Lemma valid_index_is_Some s p :
  shape_ok s → valid_index s p ↔ is_Some (grid_get (grid s) p.1 p.2).
Proof.
  intros Hs. split.
  - intros Hp. rewrite grid_get_valid by done.
    by apply grid_get_in_bounds, wrap_in_bounds.
  - intros [c Hc]. destruct (decide (valid_index s p)) as [|Hn]; [done|].
    rewrite grid_get_invalid in Hc by done. done.
Qed.

(** ** The exact effect of the footprint loop and of a committed tower *)

Lemma mark_covered_outside l g i j :
  (∀ p, p ∈ l → locate g p.1 p.2 ≠ locate g i j) →
  grid_get (mark_covered g l) i j = grid_get g i j.
Proof.
  revert g. induction l as [|q l IH]; intros g Hout; [done|].
  change (mark_covered g (q :: l))
    with (mark_covered (if cell_is g Empty q then grid_put g q.1 q.2 Covered else g) l).
  assert (Hq : locate g q.1 q.2 ≠ locate g i j) by (apply Hout; left).
  destruct (cell_is g Empty q).
  - rewrite IH.
    + rewrite grid_get_put. rewrite decide_False; [done|]. by intros [_ ?].
    + intros p Hp. rewrite !locate_put. apply Hout. by right.
  - apply IH. intros p Hp. apply Hout. by right.
Qed.

Lemma window_in_bounds s x y r p : p ∈ window s x y r → in_bounds s p.
Proof. intros Hp. by apply elem_of_window in Hp as [? _]. Qed.

(** After a tower is committed at the indices [(x, y)], the cell they
    denote holds ['|'], every other cell of the window around [(x, y)] that
    held [0] holds ['#'], and every other cell holds what it held. *)
Lemma commit_state s x y r q :
  shape_ok s → valid_index s (x, y) → in_bounds s q →
  state_at (commit s x y r) q =
    if decide (q = wrap s (x, y)) then Some Station
    else if decide (q ∈ window s x y r ∧ state_at s q = Some Empty) then Some Covered
    else state_at s q.
Proof.
  intros Hs Hxy Hq.
  assert (Hsome : is_Some (grid_get (grid s) x y)).
  { by apply (valid_index_is_Some s (x, y)). }
  pose proof (wrap_in_bounds s (x, y) Hxy) as Hw.
  pose proof (locate_valid s (x, y) Hs Hxy) as Hloc. simpl in Hloc.
  pose proof (commit_get s x y r q.1 q.2 Hsome) as H. cbv zeta in H.
  unfold state_at at 1 3.
  destruct (decide (q = wrap s (x, y))) as [->|Hne].
  - rewrite decide_True in H by done. done.
  - rewrite decide_False in H.
    2: { rewrite Hloc. intros Heq.
         by apply (same_location_in_bounds s q (wrap s (x, y))) in Heq. }
    destruct (decide (q ∈ window s x y r ∧ state_at s q = Some Empty)) as [[Hin He]|Hnot].
    + destruct (commit_covers s x y r q Hsome Hin) as (c & Hc & Hcne); [by exists Empty|].
      unfold state_at in Hc. destruct H as [H|[_ H]]; [|done].
      unfold state_at in He. congruence.
    + destruct H as [H|[He H]]; [done|]. exfalso.
      assert (Hout : q ∉ window s x y r) by (intros ?; by apply Hnot).
      unfold commit in H. simpl in H.
      rewrite mark_covered_outside in H.
      * rewrite grid_get_put, decide_False in H; [congruence|].
        intros [_ Heq]. rewrite Hloc in Heq.
        by apply (same_location_in_bounds s q (wrap s (x, y))) in Heq.
      * intros p Hp. rewrite !locate_put. intros Heq.
        apply same_location_in_bounds in Heq; [by subst|done| |done].
        by apply (window_in_bounds _ x y r).
Qed.

(* ---------------------------------------------------------------------- *)
(** ** X1: what place_tower does to a free cell *)

(** X1. On a grid of the right shape, [place_tower(x, y, r)] with indices
    Python accepts (negative ones count from the end) on a cell holding
    neither ['|'] nor ['X'] returns with: that cell holding ['|']; every
    other cell of the clipped window around the indices as given that held
    [0] now holding ['#']; every other cell as it was; [(x, y)] as given
    appended to [towers]; [n], [m], [tower_radius] and the shape kept. *)
Theorem place_tower_effect s x y r c :
  shape_ok s → valid_index s (x, y) →
  state_at s (wrap s (x, y)) = Some c → c ≠ Station → c ≠ Obstructed →
  ∃ s', place_tower s x y r = Returned s' ∧ shape_ok s' ∧
        n s' = n s ∧ m s' = m s ∧ tower_radius s' = tower_radius s ∧
        towers s' = towers s ++ [(x, y)] ∧
        ∀ q, in_bounds s q →
             state_at s' q =
               if decide (q = wrap s (x, y)) then Some Station
               else if decide (q ∈ window s x y r ∧ state_at s q = Some Empty)
                    then Some Covered
               else state_at s q.
Proof.
  intros Hs Hxy Hc HnS HnO.
  rewrite <- (grid_get_valid s (x, y)) in Hc by done. simpl in Hc.
  exists (commit s x y r). split.
  - apply (place_tower_free s x y r c Hc). cell_cases.
  - split; [by apply commit_shape|]. repeat (split; [done|]).
    intros q Hq. by apply commit_state.
Qed.

Lemma place_tower_effect_witness :
  let s := mkCityGrid 2 3 1 [[Empty; Empty; Empty]; [Obstructed; Empty; Covered]] [] in
  ∃ s', place_tower s (-1) (-1) 1 = Returned s' ∧ shape_ok s' ∧
        n s' = n s ∧ m s' = m s ∧ tower_radius s' = tower_radius s ∧
        towers s' = towers s ++ [(-1, -1)] ∧
        ∀ q, in_bounds s q →
             state_at s' q =
               if decide (q = wrap s (-1, -1)) then Some Station
               else if decide (q ∈ window s (-1) (-1) 1 ∧ state_at s q = Some Empty)
                    then Some Covered
               else state_at s q.
Proof.
  intros s. apply (place_tower_effect s (-1) (-1) 1 Covered).
  - split; [reflexivity|]. repeat constructor.
  - split; simpl; lia.
  - reflexivity.
  - discriminate.
  - discriminate.
Defined.

(* ---------------------------------------------------------------------- *)
(** ** X2: when place_tower raises *)

(** X2. On a grid of the right shape [place_tower(x, y, r)] raises exactly
    when [x] is outside [-n, n) or [y] is outside [-m, m); it then raises
    [IndexError] and leaves the object as it was. *)
Theorem place_tower_raises_iff s x y r :
  shape_ok s →
  (raises (place_tower s x y r) ↔ ¬ valid_index s (x, y)) ∧
  (¬ valid_index s (x, y) → place_tower s x y r = Raised IndexError s).
Proof.
  intros Hs.
  assert (Hout : ¬ valid_index s (x, y) → place_tower s x y r = Raised IndexError s).
  { intros Hn. apply place_tower_out_of_range. by apply (grid_get_invalid s (x, y)). }
  split; [|done]. split.
  - intros Hr Hv. apply (valid_index_is_Some s (x, y) Hs) in Hv as [c Hc].
    simpl in Hc. unfold place_tower in Hr. rewrite Hc in Hr.
    by destruct (bool_decide (c ∉ [Station; Obstructed])).
  - intros Hn. by rewrite Hout.
Qed.

Lemma place_tower_raises_iff_witness :
  let s := uniform 2 3 1 Empty in
  (raises (place_tower s 2 0 1) ↔ ¬ valid_index s (2, 0)) ∧
  (¬ valid_index s (2, 0) → place_tower s 2 0 1 = Raised IndexError s).
Proof.
  intros s. apply (place_tower_raises_iff s 2 0 1).
  split; [reflexivity|]. repeat constructor.
Defined.

(* ---------------------------------------------------------------------- *)
(** ** X3: placing a tower twice *)

(** X3. On a grid of the right shape, once [place_tower(x, y, r)] has
    returned, a second [place_tower] on the same indices, with any radius,
    changes nothing: no second entry in [towers], no further cell
    covered. *)
Theorem place_tower_twice s x y r r' :
  shape_ok s → valid_index s (x, y) →
  ∃ s', place_tower s x y r = Returned s' ∧ place_tower s' x y r' = Returned s'.
Proof.
  intros Hs Hv. apply (valid_index_is_Some s (x, y) Hs) in Hv as [c Hc]. simpl in Hc.
  destruct (decide (c ∈ [Station; Obstructed])) as [Hocc|Hfree].
  - exists s. split; by apply (place_tower_occupied _ _ _ _ c).
  - exists (commit s x y r). split; [by apply (place_tower_free _ _ _ _ c)|].
    apply (place_tower_occupied _ _ _ _ Station); [|left].
    apply commit_station. by exists c.
Qed.

Lemma place_tower_twice_witness :
  ∃ s', place_tower (uniform 3 3 1 Empty) 1 1 1 = Returned s' ∧
        place_tower s' 1 1 2 = Returned s'.
Proof.
  apply (place_tower_twice (uniform 3 3 1 Empty) 1 1 1 2).
  - split; [reflexivity|]. repeat constructor.
  - split; simpl; lia.
Defined.

(* ---------------------------------------------------------------------- *)
(** ** X4: the score of a cell after a tower is placed on it *)

(** X4. On a grid of the right shape, after [place_tower(x, y, r)] on a
    cell holding neither ['|'] nor ['X'], no cell of the window around
    [(x, y)] holds [0], so [get_coverage(x, y, r)] is 0. *)
Theorem place_tower_exhausts_window s x y r c :
  shape_ok s → grid_get (grid s) x y = Some c → c ≠ Station → c ≠ Obstructed →
  ∃ s', place_tower s x y r = Returned s' ∧
        (∀ q, q ∈ window s' x y r → state_at s' q ≠ Some Empty) ∧
        get_coverage s' x y r = 0.
Proof.
  intros Hs Hc HnS HnO. exists (commit s x y r).
  split; [apply (place_tower_free s x y r c Hc); cell_cases|].
  assert (Hwin : ∀ q, q ∈ window (commit s x y r) x y r →
                      state_at (commit s x y r) q ≠ Some Empty).
  { intros q Hq He.
    change (window (commit s x y r) x y r) with (window s x y r) in Hq.
    destruct (commit_covers s x y r q) as (c' & Hc' & Hne); [by exists c|done| |congruence].
    by apply grid_get_in_bounds, (window_in_bounds _ x y r). }
  split; [done|].
  pose proof (get_coverage_nonneg (commit s x y r) x y r) as Hge.
  destruct (decide (0 < get_coverage (commit s x y r) x y r)) as [Hpos|]; [|lia].
  apply get_coverage_pos in Hpos as (q & Hq & He). by destruct (Hwin q Hq).
Qed.

Lemma place_tower_exhausts_window_witness :
  ∃ s', place_tower (uniform 3 4 1 Empty) 1 1 1 = Returned s' ∧
        (∀ q, q ∈ window s' 1 1 1 → state_at s' q ≠ Some Empty) ∧
        get_coverage s' 1 1 1 = 0.
Proof.
  apply (place_tower_exhausts_window (uniform 3 4 1 Empty) 1 1 1 Empty).
  - split; [reflexivity|]. repeat constructor.
  - reflexivity.
  - discriminate.
  - discriminate.
Defined.

(** ** Lists without repetition *)

Lemma strongly_sorted_filter {A} (R : relation A) (P : A → Prop)
    `{!∀ x, Decision (P x)} (l : list A) :
  StronglySorted R l → StronglySorted R (filter P l).
Proof.
  induction 1 as [|x l _ IH Hx]; [constructor|].
  rewrite filter_cons. case_decide; [|done].
  constructor; [done|]. apply Forall_forall. intros y Hy.
  apply list_elem_of_filter in Hy as [_ Hy]. rewrite Forall_forall in Hx. by apply Hx.
Qed.

Lemma filter_ext_in {A} (P1 P2 : A → Prop)
    `{!∀ x, Decision (P1 x), !∀ x, Decision (P2 x)} (l : list A) :
  (∀ x, x ∈ l → P1 x ↔ P2 x) → filter P1 l = filter P2 l.
Proof.
  induction l as [|a l IH]; intros Hext; [done|].
  rewrite !filter_cons.
  assert (Ha : P1 a ↔ P2 a) by (apply Hext; left).
  rewrite IH by (intros x Hx; apply Hext; by right).
  destruct (decide (P1 a)), (decide (P2 a)); tauto.
Qed.

Lemma all_cells_NoDup s : NoDup (all_cells s).
Proof.
  apply (strongly_sorted_NoDup row_major_lt); [apply row_major_lt_irrefl|].
  apply all_cells_sorted.
Qed.

Lemma window_NoDup s x y r : NoDup (window s x y r).
Proof.
  apply (strongly_sorted_NoDup row_major_lt); [apply row_major_lt_irrefl|].
  apply nested_sorted; apply range_sorted.
Qed.

Lemma length_window s x y r :
  0 <= r → Z.of_nat (length (window s x y r)) <= (2 * r + 1) * (2 * r + 1).
Proof.
  intros Hr. unfold window. rewrite length_nested, !length_range. nia.
Qed.

Lemma window_negative_radius s x y r : r < 0 → window s x y r = [].
Proof.
  intros Hr. apply length_zero_iff_nil. unfold window.
  rewrite length_nested, !length_range. lia.
Qed.

Lemma get_coverage_le_window s x y R :
  0 <= R → get_coverage s x y R <= (2 * R + 1) * (2 * R + 1).
Proof.
  intros HR. rewrite get_coverage_count.
  etrans; [|by apply (length_window s x y R)].
  apply Nat2Z.inj_le, length_filter.
Qed.

Lemma get_coverage_negative_radius s x y R : R < 0 → get_coverage s x y R = 0.
Proof.
  intros HR. by rewrite get_coverage_count, window_negative_radius.
Qed.

(* ---------------------------------------------------------------------- *)
(** ** X5: bounds on the coverage score *)

(** X5. On a grid of the right shape [get_coverage(x, y, R)] is never
    negative, never more than the number of uncovered cells of the grid,
    at most [(2R+1)^2] for a non-negative [R], and 0 for a negative [R]. *)
Theorem get_coverage_bounds s x y R :
  shape_ok s →
  0 <= get_coverage s x y R <= Z.of_nat (length (get_uncovered_blocks s)) ∧
  (0 <= R → get_coverage s x y R <= (2 * R + 1) * (2 * R + 1)) ∧
  (R < 0 → get_coverage s x y R = 0).
Proof.
  intros Hs. split; [split; [apply get_coverage_nonneg|]|split].
  - rewrite get_coverage_count, get_uncovered_blocks_filter.
    apply Nat2Z.inj_le, submseteq_length, NoDup_submseteq.
    + apply NoDup_filter, window_NoDup.
    + intros q Hq. apply list_elem_of_filter in Hq as [He Hq].
      apply list_elem_of_filter. split; [done|].
      by apply elem_of_all_cells, (window_in_bounds _ x y R).
  - intros HR. rewrite get_coverage_count.
    etrans; [|by apply (length_window s x y R)].
    apply Nat2Z.inj_le, length_filter.
  - intros HR. rewrite get_coverage_count, window_negative_radius by done. done.
Qed.

Lemma get_coverage_bounds_witness :
  let s := mkCityGrid 2 3 1 [[Empty; Obstructed; Empty]; [Covered; Empty; Empty]] [] in
  0 <= get_coverage s 0 0 5 <= Z.of_nat (length (get_uncovered_blocks s)) ∧
  (0 <= 5 → get_coverage s 0 0 5 <= (2 * 5 + 1) * (2 * 5 + 1)) ∧
  (5 < 0 → get_coverage s 0 0 5 = 0).
Proof.
  intros s. apply (get_coverage_bounds s 0 0 5).
  split; [reflexivity|]. repeat constructor.
Defined.

(* ---------------------------------------------------------------------- *)
(** ** X6: the list of uncovered blocks *)

(** X6. On a grid of the right shape [get_uncovered_blocks] lists exactly
    the coordinates inside the grid whose cell holds [0], in strictly
    increasing row-major order, hence each once. *)
Theorem get_uncovered_blocks_exact s :
  shape_ok s →
  (∀ p, p ∈ get_uncovered_blocks s ↔ in_bounds s p ∧ state_at s p = Some Empty) ∧
  StronglySorted row_major_lt (get_uncovered_blocks s) ∧
  NoDup (get_uncovered_blocks s).
Proof.
  intros Hs. split; [intros p; apply elem_of_uncovered|].
  assert (Hsorted : StronglySorted row_major_lt (get_uncovered_blocks s)).
  { rewrite get_uncovered_blocks_filter.
    apply strongly_sorted_filter, all_cells_sorted. }
  split; [done|].
  by apply (strongly_sorted_NoDup row_major_lt); [apply row_major_lt_irrefl|].
Qed.

Lemma get_uncovered_blocks_exact_witness :
  let s := mkCityGrid 2 3 1 [[Empty; Obstructed; Empty]; [Covered; Empty; Empty]] [] in
  (∀ p, p ∈ get_uncovered_blocks s ↔ in_bounds s p ∧ state_at s p = Some Empty) ∧
  StronglySorted row_major_lt (get_uncovered_blocks s) ∧
  NoDup (get_uncovered_blocks s).
Proof.
  intros s. apply (get_uncovered_blocks_exact s).
  split; [reflexivity|]. repeat constructor.
Defined.

(** ** What one placement iteration removes from the uncovered cells *)

Lemma score_pos_radius s b : 0 < score s b → 0 <= tower_radius s.
Proof.
  intros H. apply get_coverage_pos in H as (p & Hp & _).
  apply elem_of_window in Hp. lia.
Qed.

Lemma window_self s b r : in_bounds s b → 0 <= r → b ∈ window s b.1 b.2 r.
Proof. intros Hb Hr. apply elem_of_window. split; [done|lia]. Qed.

Lemma commit_state_in_bounds s b r q :
  shape_ok s → in_bounds s b → in_bounds s q →
  state_at (commit s b.1 b.2 r) q =
    if decide (q = b) then Some Station
    else if decide (q ∈ window s b.1 b.2 r ∧ state_at s q = Some Empty) then Some Covered
    else state_at s q.
Proof.
  intros Hs Hb Hq.
  rewrite (commit_state s b.1 b.2 r q Hs); [|destruct Hb; split; simpl; lia|done].
  replace (b.1, b.2) with b by by destruct b. by rewrite wrap_id.
Qed.

Lemma commit_uncovered s b :
  shape_ok s → in_bounds s b → 0 < score s b →
  get_uncovered_blocks (commit s b.1 b.2 (tower_radius s))
  = filter (fun q => q ∉ window s b.1 b.2 (tower_radius s)) (get_uncovered_blocks s).
Proof.
  intros Hs Hb Hpos. pose proof (score_pos_radius s b Hpos) as Hr.
  rewrite !get_uncovered_blocks_filter, list_filter_filter.
  change (all_cells (commit s b.1 b.2 (tower_radius s))) with (all_cells s).
  apply filter_ext_in. intros q Hq. apply elem_of_all_cells in Hq.
  rewrite !cell_is_Empty.
  change (grid_get (grid (commit s b.1 b.2 (tower_radius s))) q.1 q.2)
    with (state_at (commit s b.1 b.2 (tower_radius s)) q).
  change (grid_get (grid s) q.1 q.2) with (state_at s q).
  rewrite commit_state_in_bounds by done.
  pose proof (window_self s b (tower_radius s) Hb Hr) as Hself.
  repeat case_decide; split; intros Hq'; try done.
  - destruct Hq' as [Hn _]. by subst.
  - destruct Hq' as [Hn _]. tauto.
  - split; [|done]. intros Hin. tauto.
  - by destruct Hq'.
Qed.

Lemma window_uncovered_count s x y r :
  length (filter (fun q => q ∈ window s x y r) (get_uncovered_blocks s))
  = length (filter (fun p => cell_is (grid s) Empty p = true) (window s x y r)).
Proof.
  apply Permutation_length, NoDup_Permutation.
  - apply NoDup_filter. rewrite get_uncovered_blocks_filter.
    apply NoDup_filter, all_cells_NoDup.
  - apply NoDup_filter, window_NoDup.
  - intros q. rewrite !list_elem_of_filter, elem_of_uncovered, cell_is_Empty.
    unfold state_at. split.
    + tauto.
    + intros [He Hq]. pose proof (window_in_bounds _ _ _ _ _ Hq). tauto.
Qed.

Lemma commit_uncovered_count s b :
  shape_ok s → in_bounds s b → 0 < score s b →
  Z.of_nat (length (get_uncovered_blocks s))
  = Z.of_nat (length (get_uncovered_blocks (commit s b.1 b.2 (tower_radius s))))
    + score s b.
Proof.
  intros Hs Hin Hpos. rewrite (commit_uncovered s b Hs Hin Hpos).
  unfold score. rewrite get_coverage_count, <- window_uncovered_count.
  pose proof (filter_app_complement
                (fun q => q ∈ window s b.1 b.2 (tower_radius s))
                (get_uncovered_blocks s)) as Hperm.
  apply Permutation_length in Hperm. rewrite length_app in Hperm. lia.
Qed.

(* ---------------------------------------------------------------------- *)
(** ** X7: what an iteration of the placement loop uncovers *)

(** X7. On a grid of the right shape, when an iteration of the loop of
    [place_optimal_towers] commits a tower, on the cell [b] say, the cells
    left uncovered are the cells that were uncovered and lie outside the
    window of [b]; their number has gone down by exactly the score of
    [b]. *)
Theorem iteration_uncovers_window s s' :
  shape_ok s → place_iteration s = Some (Returned s') →
  ∃ b, towers s' = towers s ++ [b] ∧ in_bounds s b ∧
       get_uncovered_blocks s'
       = filter (fun q => q ∉ window s b.1 b.2 (tower_radius s)) (get_uncovered_blocks s) ∧
       Z.of_nat (length (get_uncovered_blocks s))
       = Z.of_nat (length (get_uncovered_blocks s'))
         + get_coverage s b.1 b.2 (tower_radius s).
Proof.
  intros Hs Hit. destruct ((best_tower s).1) as [b|] eqn:Hb.
  2: { unfold place_iteration in Hit. by rewrite Hb in Hit. }
  rewrite (place_iteration_best s b Hb) in Hit. simplify_eq.
  destruct (best_tower_Some s b Hb) as (Hin & _ & Hpos & _).
  exists b. split; [by destruct b|]. split; [done|].
  split; [by apply commit_uncovered|].
  by apply (commit_uncovered_count s b).
Qed.

Lemma iteration_uncovers_window_witness :
  let s := mkCityGrid 1 4 1 [[Covered; Station; Covered; Empty]] [(0, 1)] in
  let s' := mkCityGrid 1 4 1 [[Covered; Station; Station; Covered]] [(0, 1); (0, 2)] in
  ∃ b, towers s' = towers s ++ [b] ∧ in_bounds s b ∧
       get_uncovered_blocks s'
       = filter (fun q => q ∉ window s b.1 b.2 (tower_radius s)) (get_uncovered_blocks s) ∧
       Z.of_nat (length (get_uncovered_blocks s))
       = Z.of_nat (length (get_uncovered_blocks s'))
         + get_coverage s b.1 b.2 (tower_radius s).
Proof.
  intros s s'. apply (iteration_uncovers_window s s').
  - split; [reflexivity|]. repeat constructor.
  - reflexivity.
Defined.

(* ---------------------------------------------------------------------- *)
(** ** X8: how many towers the placement commits *)

(** X8. On a grid of the right shape with a non-negative radius [r] and
    [u] uncovered cells, [place_optimal_towers] returns having appended
    some [k] towers to [towers], with [k <= u <= k * (2r+1)^2]: never more
    towers than there were uncovered cells, never fewer than the windows
    needed to hold them. *)
Theorem placement_tower_count s fuel :
  shape_ok s → 0 <= tower_radius s → (Z.to_nat (n s * m s) <= fuel)%nat →
  ∃ s' k, place_optimal_towers fuel s = Some (Returned s') ∧
          length (towers s') = (length (towers s) + k)%nat ∧
          (k <= length (get_uncovered_blocks s))%nat ∧
          Z.of_nat (length (get_uncovered_blocks s))
          <= Z.of_nat k * ((2 * tower_radius s + 1) * (2 * tower_radius s + 1)).
Proof.
  intros Hs Hr Hfuel.
  set (W := (2 * tower_radius s + 1) * (2 * tower_radius s + 1)).
  set (u0 := length (get_uncovered_blocks s)).
  set (P := fun s1 : CityGrid =>
              tower_radius s1 = tower_radius s ∧
              ∃ k, length (towers s1) = (length (towers s) + k)%nat ∧
                   (length (get_uncovered_blocks s1) + k <= u0)%nat ∧
                   Z.of_nat u0 <= Z.of_nat (length (get_uncovered_blocks s1))
                                  + Z.of_nat k * W).
  destruct (place_loop_returns P) with (fuel := fuel) (s := s)
    as (s' & Hloop & Hnone & _ & [_ (k & Hk & Hle & Hge)] & _).
  - intros s1 b [Hr1 (k & Hk & Hle & Hge)] Hs1 Hb. split; [done|].
    destruct (best_tower_Some s1 b Hb) as (Hin & _ & Hpos & _).
    pose proof (commit_uncovered_count s1 b Hs1 Hin Hpos) as Hcount.
    unfold score in Hpos, Hcount.
    pose proof (get_coverage_le_window s1 b.1 b.2 (tower_radius s1) ltac:(lia)) as Hsq.
    rewrite Hr1 in Hsq, Hcount, Hpos. fold W in Hsq.
    exists (S k). split; [simpl; rewrite length_app; simpl; lia|].
    rewrite Hr1. split; [lia|]. nia.
  - done.
  - done.
  - split; [done|]. exists 0%nat. split; [lia|]. split; [lia|]. lia.
  - pose proof (length_uncovered_le s). lia.
  - exists s', k. split; [done|]. split; [done|].
    rewrite Hnone in Hle, Hge. simpl in Hle, Hge. split; lia.
Qed.

Lemma placement_tower_count_witness :
  let s := uniform 5 5 1 Empty in
  ∃ s' k, place_optimal_towers 25 s = Some (Returned s') ∧
          length (towers s') = (length (towers s) + k)%nat ∧
          (k <= length (get_uncovered_blocks s))%nat ∧
          Z.of_nat (length (get_uncovered_blocks s))
          <= Z.of_nat k * ((2 * tower_radius s + 1) * (2 * tower_radius s + 1)).
Proof.
  intros s. apply (placement_tower_count s 25).
  - split; [reflexivity|]. repeat constructor.
  - simpl. lia.
  - simpl. lia.
Defined.

(** ** Steps of the placement loop *)

Lemma place_loop_mono fuel fuel' s o :
  place_loop fuel s = Some o → (fuel <= fuel')%nat → place_loop fuel' s = Some o.
Proof.
  revert fuel' s. induction fuel as [|fuel IH]; intros fuel' s Hloop Hle.
  - simpl in Hloop. destruct fuel'; simpl;
      destruct (get_uncovered_blocks s); done.
  - destruct fuel' as [|fuel']; [lia|]. simpl in *.
    destruct (get_uncovered_blocks s); [done|].
    destruct (place_iteration s) as [[s1|e s1]|]; [|done|]; apply IH; (done || lia).
Qed.

(** What every iteration keeps still holds whenever the loop returns. *)
Lemma place_loop_inv (P : CityGrid → Prop) :
  (∀ s b, P s → shape_ok s → (best_tower s).1 = Some b →
          P (commit s b.1 b.2 (tower_radius s))) →
  ∀ fuel s s',
    shape_ok s → P s → place_loop fuel s = Some (Returned s') →
    P s' ∧ shape_ok s' ∧ get_uncovered_blocks s' = [] ∧
    n s' = n s ∧ m s' = m s ∧ tower_radius s' = tower_radius s.
Proof.
  intros HP fuel. induction fuel as [|fuel IH]; intros s s' Hs HPs Hloop.
  - simpl in Hloop. destruct (get_uncovered_blocks s) eqn:E; simplify_eq. done.
  - simpl in Hloop. destruct (get_uncovered_blocks s) eqn:E; simplify_eq; [done|].
    destruct ((best_tower s).1) as [b|] eqn:Hb.
    + rewrite (place_iteration_best s b Hb) in Hloop. unfold display_info in Hloop.
      destruct (IH _ _ (commit_shape s b.1 b.2 (tower_radius s) Hs)
                  (HP s b HPs Hs Hb) Hloop) as (? & ? & ? & ? & ? & ?).
      done.
    + unfold place_iteration in Hloop. rewrite Hb in Hloop. by apply IH.
Qed.

Lemma registry_step s b :
  registry_ok s → shape_ok s → (best_tower s).1 = Some b →
  registry_ok (commit s b.1 b.2 (tower_radius s)).
Proof.
  intros [Hnd Hreg] Hs Hb.
  destruct (best_tower_Some s b Hb) as (Hin & Hcand & _).
  destruct (candidate_free _ _ Hcand) as (c0 & Hget & Hfree).
  assert (Hpair : (b.1, b.2) = b) by by destruct b.
  split.
  - simpl. rewrite Hpair. apply NoDup_app.
    split; [done|]. split; [|apply NoDup_singleton].
    intros t Ht Htb. apply list_elem_of_singleton in Htb as ->.
    destruct (Hreg b Ht) as [_ Hst]. unfold state_at in Hst.
    rewrite Hget in Hst. simplify_eq. cell_cases.
  - intros t Ht. simpl in Ht. rewrite Hpair in Ht.
    apply elem_of_app in Ht as [Ht|Ht].
    + destruct (Hreg t Ht) as [Hti Hst]. split; [done|].
      apply (commit_keeps_identity s b.1 b.2 _ c0 t.1 t.2 Station Hget Hfree);
        [left|done].
    + apply list_elem_of_singleton in Ht as ->. split; [done|].
      unfold state_at. apply commit_station. by exists c0.
Qed.

Lemma covered_step s b :
  covered_ok s → shape_ok s → (best_tower s).1 = Some b →
  covered_ok (commit s b.1 b.2 (tower_radius s)).
Proof.
  intros Hcov Hs Hb q Hq Hst.
  destruct (best_tower_Some s b Hb) as (Hin & _ & _).
  change (in_bounds s q) in Hq.
  rewrite commit_state_in_bounds in Hst by done. simpl.
  replace (b.1, b.2) with b by by destruct b.
  case_decide as Hqb; [done|]. case_decide as Hwin.
  - exists b. split; [apply elem_of_app; right; left|].
    destruct Hwin as [Hwin _]. apply elem_of_window in Hwin.
    unfold chebyshev. lia.
  - destruct (Hcov q Hq Hst) as (t & Ht & Hd). exists t.
    split; [|done]. apply elem_of_app. by left.
Qed.

Lemma placed_from_refl s : placed_from s s.
Proof. split; [done|]. split; [done|]. intros q c _ Hc. by left. Qed.

Lemma placed_from_step s0 s b :
  placed_from s0 s → shape_ok s → (best_tower s).1 = Some b →
  placed_from s0 (commit s b.1 b.2 (tower_radius s)).
Proof.
  intros (Hn1 & Hm1 & HP1) Hs1 Hb.
  destruct (best_tower_Some s b Hb) as (Hin & Hcand & _).
  split; [done|]. split; [done|]. intros q c Hq Hc.
  assert (Hq1 : in_bounds s q) by by apply (in_bounds_same s0).
  rewrite commit_state_in_bounds by done.
  specialize (HP1 q c Hq Hc).
  case_decide as Hqb; [|case_decide as Hwin].
  - subst q. right. split; [|by right].
    destruct HP1 as [HP1|[? _]]; [|done].
    destruct Hcand as [Hcand|Hcand]; rewrite Hcand in HP1; simplify_eq; auto.
  - destruct Hwin as [_ He]. right. split; [|by left].
    destruct HP1 as [HP1|[? _]]; [|done]. rewrite He in HP1. simplify_eq. by left.
  - done.
Qed.

(** Where the loop has returned, a cell that held [0] or ['#'] holds ['#']
    or ['|'], and any other cell holds what it held. *)
Lemma placed_from_final s0 s' q c :
  placed_from s0 s' → get_uncovered_blocks s' = [] →
  in_bounds s0 q → state_at s0 q = Some c →
  if decide (c = Empty ∨ c = Covered)
  then state_at s' q = Some Covered ∨ state_at s' q = Some Station
  else state_at s' q = Some c.
Proof.
  intros (Hn & Hm & HP) Hnone Hq Hc. specialize (HP q c Hq Hc).
  assert (Hne : state_at s' q ≠ Some Empty).
  { intros He. assert (Hin : q ∈ get_uncovered_blocks s').
    { apply elem_of_uncovered. split; [by apply (in_bounds_same s0)|done]. }
    rewrite Hnone in Hin. by apply elem_of_nil in Hin. }
  case_decide as Hc'.
  - destruct HP as [HP|[_ HP]]; [|done].
    destruct Hc' as [-> | ->]; [done|by left].
  - destruct HP as [HP|[HP _]]; done.
Qed.

Lemma place_loop_returns_inv (P : CityGrid → Prop) s fuel :
  (∀ s b, P s → shape_ok s → (best_tower s).1 = Some b →
          P (commit s b.1 b.2 (tower_radius s))) →
  shape_ok s → 0 <= tower_radius s → (Z.to_nat (n s * m s) <= fuel)%nat → P s →
  ∃ s', place_loop fuel s = Some (Returned s') ∧
        P s' ∧ shape_ok s' ∧ get_uncovered_blocks s' = [] ∧
        n s' = n s ∧ m s' = m s ∧ tower_radius s' = tower_radius s.
Proof.
  intros HP Hs Hr Hfuel HPs.
  destruct (place_loop_returns (fun _ => True)) with (fuel := fuel) (s := s)
    as (s' & Hloop & _); try done.
  { pose proof (length_uncovered_le s). lia. }
  exists s'. split; [done|]. by apply (place_loop_inv P HP fuel s s').
Qed.

(* ---------------------------------------------------------------------- *)
(** ** X9: the tower registry after placement *)

(** X9. On a grid of the right shape with a non-negative radius, if
    [towers] lists without repetition coordinates inside the grid whose
    cells hold ['|'] (as the empty list does), it still does when
    [place_optimal_towers] returns, and the list it had is a prefix of the
    list it has. *)
Theorem placement_keeps_registry s fuel :
  shape_ok s → 0 <= tower_radius s → (Z.to_nat (n s * m s) <= fuel)%nat →
  NoDup (towers s) →
  (∀ t, t ∈ towers s → in_bounds s t ∧ state_at s t = Some Station) →
  ∃ s', place_optimal_towers fuel s = Some (Returned s') ∧
        towers s `prefix_of` towers s' ∧
        NoDup (towers s') ∧
        ∀ t, t ∈ towers s' → in_bounds s' t ∧ state_at s' t = Some Station.
Proof.
  intros Hs Hr Hfuel Hnd Hreg.
  destruct (place_loop_returns_inv
              (fun s1 => towers s `prefix_of` towers s1 ∧ registry_ok s1) s fuel)
    as (s' & Hloop & [Hpre [Hnd' Hreg']] & _); try done.
  - intros s1 b [Hpre Hok] Hs1 Hb. split; [|by apply registry_step].
    simpl. by apply prefix_app_r.
  - by exists s'.
Qed.

Lemma placement_keeps_registry_witness :
  let s := uniform 3 4 1 Empty in
  ∃ s', place_optimal_towers 12 s = Some (Returned s') ∧
        towers s `prefix_of` towers s' ∧
        NoDup (towers s') ∧
        ∀ t, t ∈ towers s' → in_bounds s' t ∧ state_at s' t = Some Station.
Proof.
  intros s. apply (placement_keeps_registry s 12).
  - split; [reflexivity|]. repeat constructor.
  - simpl. lia.
  - simpl. lia.
  - constructor.
  - intros t Ht. by apply elem_of_nil in Ht.
Defined.

(* ---------------------------------------------------------------------- *)
(** ** X10: covered means within reach of a tower *)

(** X10. On a grid of the right shape with a non-negative radius [r], if
    every cell holding ['#'] is within Chebyshev distance [r] of a
    coordinate of [towers] (as on a grid with no ['#']), the same holds
    when [place_optimal_towers] returns. *)
Theorem placement_covered_near_tower s fuel :
  shape_ok s → 0 <= tower_radius s → (Z.to_nat (n s * m s) <= fuel)%nat →
  (∀ q, in_bounds s q → state_at s q = Some Covered →
        ∃ t, t ∈ towers s ∧ chebyshev t q <= tower_radius s) →
  ∃ s', place_optimal_towers fuel s = Some (Returned s') ∧
        ∀ q, in_bounds s' q → state_at s' q = Some Covered →
             ∃ t, t ∈ towers s' ∧ chebyshev t q <= tower_radius s'.
Proof.
  intros Hs Hr Hfuel Hcov.
  destruct (place_loop_returns_inv covered_ok s fuel)
    as (s' & Hloop & Hcov' & _); try done.
  - intros s1 b. apply covered_step.
  - by exists s'.
Qed.

Lemma placement_covered_near_tower_witness :
  let s := mkCityGrid 2 3 1 [[Empty; Obstructed; Empty]; [Empty; Empty; Empty]] [] in
  ∃ s', place_optimal_towers 6 s = Some (Returned s') ∧
        ∀ q, in_bounds s' q → state_at s' q = Some Covered →
             ∃ t, t ∈ towers s' ∧ chebyshev t q <= tower_radius s'.
Proof.
  intros s. apply (placement_covered_near_tower s 6).
  - split; [reflexivity|]. repeat constructor.
  - simpl. lia.
  - simpl. lia.
  - intros [i j] [Hi Hj] Hst. simpl in Hi, Hj. exfalso.
    assert (Hi' : i = 0 ∨ i = 1) by lia. assert (Hj' : j = 0 ∨ j = 1 ∨ j = 2) by lia.
    destruct Hi' as [-> | ->], Hj' as [-> | [-> | ->]]; discriminate Hst.
Defined.

(* ---------------------------------------------------------------------- *)
(** ** X11: the cells placement changes *)

(** X11. On a grid of the right shape with a non-negative radius,
    [place_optimal_towers] returns with [n], [m], [tower_radius] and the
    shape kept; every cell that held [0] or ['#'] holds ['#'] or ['|'];
    every other cell (['X'], ['|'], a path marker) holds what it held. *)
Theorem placement_frame s fuel :
  shape_ok s → 0 <= tower_radius s → (Z.to_nat (n s * m s) <= fuel)%nat →
  ∃ s', place_optimal_towers fuel s = Some (Returned s') ∧ shape_ok s' ∧
        n s' = n s ∧ m s' = m s ∧ tower_radius s' = tower_radius s ∧
        ∀ q c, in_bounds s q → state_at s q = Some c →
               if decide (c = Empty ∨ c = Covered)
               then state_at s' q = Some Covered ∨ state_at s' q = Some Station
               else state_at s' q = Some c.
Proof.
  intros Hs Hr Hfuel.
  destruct (place_loop_returns_inv (placed_from s) s fuel)
    as (s' & Hloop & Hfrom & Hs' & Hnone & Hn & Hm & Hrad); try done.
  - intros s1 b. apply placed_from_step.
  - apply placed_from_refl.
  - exists s'. split; [done|]. repeat (split; [done|]).
    intros q c Hq Hc. by apply (placed_from_final s s').
Qed.

Lemma placement_frame_witness :
  let s := mkCityGrid 2 3 1 [[Empty; Obstructed; BeginMark]; [Empty; Covered; Empty]] [] in
  ∃ s', place_optimal_towers 6 s = Some (Returned s') ∧ shape_ok s' ∧
        n s' = n s ∧ m s' = m s ∧ tower_radius s' = tower_radius s ∧
        ∀ q c, in_bounds s q → state_at s q = Some c →
               if decide (c = Empty ∨ c = Covered)
               then state_at s' q = Some Covered ∨ state_at s' q = Some Station
               else state_at s' q = Some c.
Proof.
  intros s. apply (placement_frame s 6).
  - split; [reflexivity|]. repeat constructor.
  - simpl. lia.
  - simpl. lia.
Defined.

(* ---------------------------------------------------------------------- *)
(** ** X12: placement with a negative radius *)

(** X12. With a negative [tower_radius] (the constructor's assertion aside,
    nothing prevents it) and an uncovered cell on the grid, every window
    is empty, the scan selects no position, and the loop of
    [place_optimal_towers] does not end: it is still running after any
    number of iterations. *)
Theorem placement_spins_on_negative_radius s fuel :
  shape_ok s → tower_radius s < 0 → get_uncovered_blocks s ≠ [] →
  place_iteration s = None ∧ place_optimal_towers fuel s = None.
Proof.
  intros Hs Hr Hne.
  assert (Hit : place_iteration s = None).
  { unfold place_iteration. destruct ((best_tower s).1) as [b|] eqn:Hb; [|done].
    destruct (best_tower_Some s b Hb) as (_ & _ & Hpos & _). unfold score in Hpos.
    pose proof (get_coverage_negative_radius s b.1 b.2 (tower_radius s) Hr). lia. }
  split; [done|]. unfold place_optimal_towers.
  induction fuel as [|fuel IH]; simpl.
  - by destruct (get_uncovered_blocks s).
  - destruct (get_uncovered_blocks s); [done|]. by rewrite Hit.
Qed.

Lemma placement_spins_on_negative_radius_witness :
  let s := uniform 2 2 (-1) Empty in
  place_iteration s = None ∧ place_optimal_towers 1000 s = None.
Proof.
  intros s. apply (placement_spins_on_negative_radius s 1000).
  - split; [reflexivity|]. repeat constructor.
  - simpl. lia.
  - vm_compute. discriminate.
Defined.


(** ** Invariants of the search loop *)

Lemma loop_invariant (I : list Search.entry → gset coord → Prop) s end_ :
  (∀ e0 rest closed open' closed',
     I (e0 :: rest) closed →
     Search.step s end_ e0 rest closed = Search.Continue open' closed' →
     I open' closed') →
  ∀ fuel open_list closed r s',
    I open_list closed →
    Search.loop fuel s end_ open_list closed = Some (r, s') →
    match r with
    | None => ∃ closed', I [] closed'
    | Some path =>
        ∃ e0 rest closed', I (e0 :: rest) closed' ∧
                           Search.step s end_ e0 rest closed' = Search.Found path
    end.
Proof.
  intros Hstep fuel. induction fuel as [|fuel IH]; intros open_list closed r s' HI Hloop.
  - destruct open_list; simplify_eq/=. by exists closed.
  - destruct open_list as [|e0 rest]; simplify_eq/=; [by exists closed|].
    destruct (Search.step s end_ e0 rest closed) as [path|open' closed'] eqn:Hs.
    + simplify_eq. by exists e0, rest, closed.
    + eapply IH; [|done]. by eapply Hstep.
Qed.

Lemma remove_other v l e : e ∈ l → e ≠ v → e ∈ Search.remove v l.
Proof.
  induction l as [|x l IH]; intros Hin Hne; [done|]. simpl.
  apply elem_of_cons in Hin as [->|Hin].
  - rewrite decide_False by done. left.
  - case_decide; [done|]. right. by apply IH.
Qed.

Lemma elem_of_successors_2 s end_ x y path p :
  passable s p → chebyshev (x, y) p <= 1 → p ≠ (x, y) →
  ∃ e, e ∈ Search.successors s end_ x y path ∧ Search.pos e = p.
Proof.
  intros [[Hi Hj] Hst] Hnear Hne. unfold Search.successors.
  rewrite (foldl_collect_map
    (fun p => bool_decide (p.1 ≠ x ∨ p.2 ≠ y) && cell_in (grid s) [Covered; Station] p)
    (fun p => (Z.of_nat (length path) + 1 + Z.abs (p.1 - end_.1) + Z.abs (p.2 - end_.2),
               p, path ++ [(x, y)]))).
  simpl.
  exists (Z.of_nat (length path) + 1 + Z.abs (p.1 - end_.1) + Z.abs (p.2 - end_.2),
          p, path ++ [(x, y)]).
  split; [|reflexivity].
  apply list_elem_of_fmap. exists p. split; [reflexivity|].
  apply list_elem_of_filter. split.
  - apply andb_true_iff. split.
    + apply bool_decide_eq_true.
      destruct (decide (p.1 = x)) as [Hx|]; [|by left]. right. intros Hy.
      apply Hne. destruct p. simpl in *. by subst.
    + unfold cell_in. unfold state_at in Hst.
      destruct Hst as [-> | ->]; apply bool_decide_eq_true; cell_cases.
  - apply elem_of_nested. rewrite !elem_of_range.
    unfold chebyshev in Hnear. simpl in Hnear. lia.
Qed.

Lemma seen_step s end_ e0 rest closed open' closed' p :
  Search.step s end_ e0 rest closed = Search.Continue open' closed' →
  seen (e0 :: rest) closed p → seen open' closed' p.
Proof.
  intros Hstep Hp. unfold Search.step in Hstep.
  set (e := Search.explored e0 rest) in *.
  case_bool_decide as Hend; [done|]. case_bool_decide as Hcl; simplify_eq.
  - destruct Hp as [Hp|(e' & He' & Hpos)]; [by left|].
    destruct (decide (e' = e)) as [->|Hne]; [left; by subst|].
    right. exists e'. split; [by apply (remove_other e (e0 :: rest))|done].
  - destruct Hp as [Hp|(e' & He' & Hpos)].
    + left. apply elem_of_union. by right.
    + destruct (decide (e' = e)) as [->|Hne].
      * left. subst. apply elem_of_union. left. by apply elem_of_singleton.
      * right. exists e'. split; [|done]. apply elem_of_app. left.
        by apply (remove_other e (e0 :: rest)).
Qed.

Lemma frontier_inv_step s start end_ e0 rest closed open' closed' :
  frontier_inv s start end_ (e0 :: rest) closed →
  Search.step s end_ e0 rest closed = Search.Continue open' closed' →
  frontier_inv s start end_ open' closed'.
Proof.
  intros (Hend & Hstart & Hnext) Hstep.
  pose proof (seen_step s end_ e0 rest closed open' closed') as Hseen.
  split; [|split].
  - unfold Search.step in Hstep. set (e := Search.explored e0 rest) in *.
    case_bool_decide as He; [done|]. case_bool_decide as Hcl; simplify_eq; [done|].
    intros Hin. apply elem_of_union in Hin as [Hin|Hin]; [|done].
    apply elem_of_singleton in Hin. done.
  - by apply Hseen.
  - intros c p Hc Hp Hnear.
    destruct (decide (c ∈ closed)) as [Hold|Hnew].
    { apply Hseen; [done|]. by apply (Hnext c). }
    unfold Search.step in Hstep. set (e := Search.explored e0 rest) in *.
    case_bool_decide as He; [done|]. case_bool_decide as Hcl; simplify_eq; try done.
    apply elem_of_union in Hc as [Hc|Hc]; [|done].
    apply elem_of_singleton in Hc. subst c.
    destruct (decide (p = Search.pos e)) as [->|Hne].
    + left. apply elem_of_union. left. by apply elem_of_singleton.
    + right.
      destruct (elem_of_successors_2 s end_ (Search.pos e).1 (Search.pos e).2
                  (Search.trail e) p) as (e' & He' & Hpos); [done| |by destruct (Search.pos e)|].
      { by replace ((Search.pos e).1, (Search.pos e).2) with (Search.pos e)
          by by destruct (Search.pos e). }
      exists e'. split; [|done]. apply elem_of_app. by right.
Qed.

(** Once the open list is empty, every walk from the start ends on a
    closed coordinate. *)
Lemma frontier_closed s start end_ closed w q :
  frontier_inv s start end_ [] closed →
  walk s start w → last w = Some q → q ∈ closed.
Proof.
  intros (_ & Hstart & Hnext) Hw. revert q.
  assert (Hseen : ∀ p, seen [] closed p → p ∈ closed).
  { intros p [Hp|(e & He & _)]; [done|]. by apply elem_of_nil in He. }
  induction Hw as [|l p q' _ IH Hq' Hnear]; intros q Hlast.
  - simpl in Hlast. simplify_eq. by apply Hseen.
  - rewrite last_snoc in Hlast. simplify_eq.
    apply Hseen, (Hnext p); [|done|done]. apply IH. by rewrite last_snoc.
Qed.

Lemma trail_inv_step s end_ e0 rest closed open' closed' :
  trail_inv end_ (e0 :: rest) closed →
  Search.step s end_ e0 rest closed = Search.Continue open' closed' →
  trail_inv end_ open' closed'.
Proof.
  intros [Hend Hall] Hstep. unfold Search.step in Hstep.
  pose proof (explored_in e0 rest) as Hin.
  set (e := Search.explored e0 rest) in *.
  case_bool_decide as He; [done|]. case_bool_decide as Hcl; simplify_eq.
  - split; [done|]. intros x Hx. by apply Hall, (remove_subseteq e (e0 :: rest)).
  - split.
    + intros Hc. apply elem_of_union in Hc as [Hc|Hc]; [|done].
      by apply elem_of_singleton in Hc.
    + intros x Hx. apply elem_of_app in Hx as [Hx|Hx].
      * destruct (Hall x) as [Hnd Hsub]; [by apply (remove_subseteq e (e0 :: rest))|].
        split; [done|]. intros t Ht. apply elem_of_union. right. by apply Hsub.
      * apply elem_of_successors in Hx as (p & _ & _ & ->).
        destruct (Hall e Hin) as [Hnd Hsub].
        replace ((Search.pos e).1, (Search.pos e).2) with (Search.pos e)
          by by destruct (Search.pos e).
        unfold Search.trail at 1 2. simpl. split.
        -- apply NoDup_app. split; [done|]. split; [|apply NoDup_singleton].
           intros t Ht Ht'. apply list_elem_of_singleton in Ht' as ->.
           by apply Hcl, Hsub.
        -- intros t Ht. apply elem_of_app in Ht as [Ht|Ht].
           ++ apply elem_of_union. right. by apply Hsub.
           ++ apply list_elem_of_singleton in Ht as ->.
              apply elem_of_union. left. by apply elem_of_singleton.
Qed.

Lemma frontier_inv_init s start end_ :
  frontier_inv s start end_ (Search.init start) ∅.
Proof.
  split; [apply not_elem_of_empty|]. split.
  - right. exists (0, start, []). split; [left|done].
  - intros c p Hc. by apply not_elem_of_empty in Hc.
Qed.

Lemma trail_inv_init start end_ : trail_inv end_ (Search.init start) ∅.
Proof.
  split; [apply not_elem_of_empty|]. intros e He.
  apply list_elem_of_singleton in He as ->. split; [constructor|].
  intros t Ht. by apply elem_of_nil in Ht.
Qed.

Lemma find_path_some_walk s start end_ fuel path s' :
  find_path fuel s start end_ = Some (Some path, s') →
  walk s start path ∧ last path = Some end_.
Proof.
  intros Hfind. unfold find_path in Hfind.
  apply (loop_result s start) in Hfind as [_ Hpath].
  - by apply Hpath.
  - apply Forall_singleton, entry_ok_init.
Qed.

Lemma find_path_none_no_walk s start end_ fuel s' :
  find_path fuel s start end_ = Some (None, s') →
  ¬ (∃ l, walk s start (l ++ [end_])).
Proof.
  intros Hfind [l Hw]. unfold find_path in Hfind.
  apply (loop_invariant (frontier_inv s start end_)) in Hfind as [closed HI].
  - pose proof (frontier_closed s start end_ closed _ end_ HI Hw) as Hin.
    destruct HI as [Hend _]. apply Hend, Hin. by rewrite last_snoc.
  - intros. by eapply frontier_inv_step.
  - apply frontier_inv_init.
Qed.

(* ---------------------------------------------------------------------- *)
(** ** X13: find_path finds a path exactly when there is one *)

(** X13. On a grid of the right shape [find_path] returns a path exactly
    when the end can be reached from the start by steps of Chebyshev
    distance at most 1 onto cells inside the grid holding ['#'] or ['|'],
    and [None] exactly when it cannot. *)
Theorem find_path_complete s start end_ fuel :
  shape_ok s → (search_bound s <= fuel)%nat →
  ((∃ path, find_path fuel s start end_ = Some (Some path, s)) ↔
   (∃ l, walk s start (l ++ [end_]))) ∧
  (find_path fuel s start end_ = Some (None, s) ↔
   ¬ (∃ l, walk s start (l ++ [end_]))).
Proof.
  intros Hs Hfuel.
  assert (Hsound : ∀ path s', find_path fuel s start end_ = Some (Some path, s') →
                              ∃ l, walk s start (l ++ [end_])).
  { intros path s' Hfind.
    destruct (find_path_some_walk _ _ _ _ _ _ Hfind) as [Hw Hlast].
    apply last_Some in Hlast as [l ->]. by exists l. }
  assert (Hnone : ∀ s', find_path fuel s start end_ = Some (None, s') →
                        ¬ (∃ l, walk s start (l ++ [end_]))).
  { intros s'. apply find_path_none_no_walk. }
  destruct (find_path_returns s start end_ fuel Hfuel) as [[path|] Hret].
  - split; split.
    + intros _. by eapply Hsound.
    + intros _. by exists path.
    + intros H. congruence.
    + intros Hno. destruct Hno. by eapply Hsound.
  - split; split.
    + intros [path H]. congruence.
    + intros Hw. by destruct (Hnone s Hret).
    + intros _. by apply (Hnone s).
    + done.
Qed.

Lemma find_path_complete_witness :
  let s := mkCityGrid 2 3 1 [[Station; Covered; Obstructed];
                             [Obstructed; Covered; Station]] [(0, 0); (1, 2)] in
  ((∃ path, find_path 64 s (0, 0) (1, 2) = Some (Some path, s)) ↔
   (∃ l, walk s (0, 0) (l ++ [(1, 2)]))) ∧
  (find_path 64 s (0, 0) (1, 2) = Some (None, s) ↔
   ¬ (∃ l, walk s (0, 0) (l ++ [(1, 2)]))).
Proof.
  intros s. apply (find_path_complete s (0, 0) (1, 2) 64).
  - split; [reflexivity|]. repeat constructor.
  - vm_compute. lia.
Defined.

(* ---------------------------------------------------------------------- *)
(** ** X14: a found path visits no coordinate twice *)

(** X14. On a grid of the right shape every path [find_path] returns
    lists each of its coordinates once; it has at most [n * m + 1] entries,
    and at most [n * m] when the start is inside the grid. *)
Theorem find_path_simple s start end_ fuel path s' :
  shape_ok s → find_path fuel s start end_ = Some (Some path, s') →
  NoDup path ∧
  Z.of_nat (length path) <= n s * m s + 1 ∧
  (in_bounds s start → Z.of_nat (length path) <= n s * m s).
Proof.
  intros Hs Hfind.
  assert (Hnd : NoDup path).
  { unfold find_path in Hfind.
    apply (loop_invariant (trail_inv end_)) in Hfind as (e0 & rest & closed & HI & Hstep).
    - unfold Search.step in Hstep. pose proof (explored_in e0 rest) as Hin.
      set (e := Search.explored e0 rest) in *.
      destruct HI as [Hend Hall]. destruct (Hall e Hin) as [Hnd Hsub].
      case_bool_decide as He; [|by case_bool_decide]. simplify_eq.
      apply NoDup_app. split; [done|]. split; [|apply NoDup_singleton].
      intros t Ht Ht'. apply list_elem_of_singleton in Ht' as ->.
      by apply Hend, Hsub.
    - intros. by eapply trail_inv_step.
    - apply trail_inv_init. }
  split; [done|].
  unfold find_path in Hfind. apply (loop_result s start) in Hfind as [_ Hpath].
  2: { apply Forall_singleton, entry_ok_init. }
  destruct (Hpath path eq_refl) as [Hw _].
  pose proof (length_all_cells_le s) as Hcells.
  assert (Hbound : ∀ k : list coord, NoDup k → (∀ q, q ∈ k → in_bounds s q) →
                     (length k <= Z.to_nat (n s * m s))%nat).
  { intros k Hk Hin. etrans; [|exact Hcells].
    apply submseteq_length, NoDup_submseteq; [done|].
    intros q Hq. by apply elem_of_all_cells, Hin. }
  assert (Hpos : 0 <= n s * m s).
  { destruct Hs as [Hn Hm]. destruct (grid s) as [|row g] eqn:Hg.
    - simpl in Hn. rewrite <- Hn. lia.
    - apply Forall_cons in Hm as [Hm _]. simpl in Hn. nia. }
  split.
  - apply walk_head in Hw as Hhead.
    destruct path as [|a rest]; simplify_eq/=.
    apply NoDup_cons in Hnd as [Ha Hrest].
    assert (length rest <= Z.to_nat (n s * m s))%nat; [|lia].
    apply Hbound; [done|]. intros q Hq.
    destruct (walk_elem_of s start (start :: rest) q Hw) as [->|[? _]];
      [by right|done|done].
  - intros Hstart.
    assert (length path <= Z.to_nat (n s * m s))%nat; [|lia].
    apply Hbound; [done|]. intros q Hq.
    destruct (walk_elem_of s start path q Hw Hq) as [->|[? _]]; done.
Qed.

Lemma find_path_simple_witness :
  let s := mkCityGrid 2 3 1 [[Station; Covered; Obstructed];
                             [Obstructed; Covered; Station]] [(0, 0); (1, 2)] in
  let path := [(0, 0); (1, 1); (1, 2)] in
  NoDup path ∧
  Z.of_nat (length path) <= n s * m s + 1 ∧
  (in_bounds s (0, 0) → Z.of_nat (length path) <= n s * m s).
Proof.
  intros s path. apply (find_path_simple s (0, 0) (1, 2) 20 path s).
  - split; [reflexivity|]. repeat constructor.
  - vm_compute. reflexivity.
Defined.


(** ** Grids that agree cell by cell *)

Lemma grid_ext s s' :
  shape_ok s → shape_ok s' → n s' = n s → m s' = m s →
  (∀ q, in_bounds s q → state_at s' q = state_at s q) → grid s' = grid s.
Proof.
  intros [Hn Hm] [Hn' Hm'] Hnn Hmm Hst.
  assert (Hs : shape_ok s) by done. assert (Hs' : shape_ok s') by done.
  apply list_eq. intros a.
  destruct (grid s !! a) as [row|] eqn:Hrow.
  - pose proof (lookup_lt_Some _ _ _ Hrow) as Ha.
    destruct (lookup_lt_is_Some_2 (grid s') a) as [row' Hrow']; [lia|].
    rewrite Hrow'. f_equal.
    rewrite Forall_lookup in Hm, Hm'.
    pose proof (Hm _ _ Hrow) as Hl. pose proof (Hm' _ _ Hrow') as Hl'. simpl in Hl, Hl'.
    apply list_eq. intros b.
    destruct (decide (b < length row)%nat) as [Hb|Hb].
    + assert (Hq : in_bounds s (Z.of_nat a, Z.of_nat b)).
      { unfold in_bounds. simpl. lia. }
      specialize (Hst _ Hq). unfold state_at in Hst.
      rewrite !grid_get_locate in Hst.
      rewrite (locate_in_bounds s) in Hst by done.
      rewrite (locate_in_bounds s') in Hst by (try done; by apply (in_bounds_same s)).
      unfold cell_at in Hst. simpl in Hst. rewrite !Nat2Z.id in Hst.
      by rewrite Hrow, Hrow' in Hst.
    + rewrite !lookup_ge_None_2 by lia. done.
  - apply lookup_ge_None in Hrow. apply lookup_ge_None. lia.
Qed.

Lemma city_grid_ext s s' :
  shape_ok s → shape_ok s' → n s' = n s → m s' = m s →
  tower_radius s' = tower_radius s → towers s' = towers s →
  (∀ q, in_bounds s q → state_at s' q = state_at s q) → s' = s.
Proof.
  intros Hs Hs' Hn Hm Hr Ht Hst.
  pose proof (grid_ext s s' Hs Hs' Hn Hm Hst) as Hg.
  destruct s, s'. simpl in *. by subst.
Qed.

(* ---------------------------------------------------------------------- *)
(** ** X15: annotating twice *)

(** X15. On a grid of the right shape, for a non-empty path inside the
    grid, [build_path_on_grid] called a second time with the same path
    leaves the object exactly as the first call left it. *)
Theorem build_path_on_grid_twice s path :
  shape_ok s → path ≠ [] → Forall (in_bounds s) path →
  ∃ s', build_path_on_grid s path = Returned s' ∧
        build_path_on_grid s' path = Returned s'.
Proof.
  intros Hs Hne Hall.
  destruct (build_path_on_grid_marks s path Hs Hne Hall)
    as (s1 & Hb1 & Hs1 & Hn1 & Hm1 & Hr1 & Ht1 & Hst1).
  assert (Hall1 : Forall (in_bounds s1) path).
  { eapply Forall_impl; [exact Hall|]. intros q. by apply in_bounds_same. }
  destruct (build_path_on_grid_marks s1 path Hs1 Hne Hall1)
    as (s2 & Hb2 & Hs2 & Hn2 & Hm2 & Hr2 & Ht2 & Hst2).
  exists s1. split; [done|]. rewrite Hb2. f_equal.
  apply city_grid_ext; try done.
  intros q Hq. rewrite (Hst2 q Hq).
  assert (Hq0 : in_bounds s q) by (apply (in_bounds_same s1); done).
  rewrite (Hst1 q Hq0). by repeat case_decide.
Qed.

Lemma build_path_on_grid_twice_witness :
  let s := mkCityGrid 1 4 1 [[Covered; Station; Station; Covered]] [(0, 1); (0, 2)] in
  ∃ s', build_path_on_grid s [(0, 1); (0, 2); (0, 3)] = Returned s' ∧
        build_path_on_grid s' [(0, 1); (0, 2); (0, 3)] = Returned s'.
Proof.
  intros s. apply (build_path_on_grid_twice s [(0, 1); (0, 2); (0, 3)]).
  - split; [reflexivity|]. repeat constructor.
  - discriminate.
  - repeat constructor; simpl; lia.
Defined.

(** ** Stores at any pair of indices *)

Lemma valid_index_dec s p : Decision (valid_index s p).
Proof. unfold valid_index. apply _. Defined.

Lemma valid_index_same s s' p :
  n s' = n s → m s' = m s → valid_index s p → valid_index s' p.
Proof. unfold valid_index. intros -> ->. done. Qed.

Lemma store_valid s p v :
  shape_ok s → valid_index s p →
  store s p v = Returned (with_grid s (grid_put (grid s) p.1 p.2 v)) ∧
  ∀ q, in_bounds s q →
       state_at (with_grid s (grid_put (grid s) p.1 p.2 v)) q
       = if decide (wrap s p = q) then Some v else state_at s q.
Proof.
  intros Hs Hp. pose proof (locate_valid s p Hs Hp) as Hloc.
  pose proof (wrap_in_bounds s p Hp) as Hw.
  rewrite (locate_in_bounds s (wrap s p)) in Hloc by done. split.
  - unfold store, grid_put. rewrite grid_set_locate, Hloc. done.
  - intros q Hq. unfold state_at at 1. simpl. rewrite grid_get_put, Hloc.
    rewrite <- (locate_in_bounds s (wrap s p)) by done.
    case_decide as H1; case_decide as H2; try done.
    + destruct H1 as [_ H1]. by apply same_location_in_bounds in H1.
    + subst q. destruct H1. split; [|done]. rewrite locate_in_bounds by done.
      by eexists.
Qed.

Lemma store_invalid s p v :
  shape_ok s → ¬ valid_index s p → store s p v = Raised IndexError s.
Proof. intros Hs Hp. by apply store_out_of_range, grid_get_invalid. Qed.

Lemma overlay_refl s path : shape_ok s → overlay s path s.
Proof. intros Hs. repeat (split; [done|]). intros q _. by left. Qed.

Lemma overlay_store s path s1 p v :
  overlay s path s1 → p ∈ path → marker v →
  overlay s path (final (store s1 p v)).
Proof.
  intros Ho Hp Hv.
  destruct Ho as (Hs1 & Hn & Hm & Hr & Ht & Hst).
  destruct (valid_index_dec s1 p) as [Hvalid|Hinvalid].
  - destruct (store_valid s1 p v Hs1 Hvalid) as [-> Hput]. simpl.
    split; [by apply shape_ok_put|]. repeat (split; [done|]).
    intros q Hq. assert (Hq1 : in_bounds s1 q) by by apply (in_bounds_same s).
    rewrite (Hput q Hq1). case_decide as Hw; [|by apply Hst].
    right. split; [by exists v|]. exists p. split; [done|].
    split; [by apply (valid_index_same s1); try done|].
    rewrite <- Hw. unfold wrap. by rewrite Hn, Hm.
  - rewrite store_invalid by done. simpl. done.
Qed.

Lemma final_and_then o k :
  final (and_then o k) = match o with Returned s => final (k s) | Raised _ s => s end.
Proof. by destruct o. Qed.

Lemma raises_and_then o k :
  raises (and_then o k) ↔ raises o ∨ ∃ s1, o = Returned s1 ∧ raises (k s1).
Proof.
  destruct o as [s1|e s1]; simpl.
  - split; [intros H; right; by exists s1|]. intros [[]|(s2 & [= ->] & H)]. done.
  - split; [by left|done].
Qed.

Lemma overlay_mark_interior s path l s1 :
  overlay s path s1 → (∀ p, p ∈ l → p ∈ path) →
  overlay s path (final (mark_interior s1 l)).
Proof.
  revert s1. induction l as [|p l IH]; intros s1 Ho Hl; [done|].
  simpl. rewrite final_and_then.
  pose proof (overlay_store s path s1 p PathMark Ho) as Hst.
  destruct (store s1 p PathMark) as [s2|e s2]; simpl in Hst.
  - apply IH.
    + apply Hst; [apply Hl; left|by left].
    + intros q Hq. apply Hl. by right.
  - apply Hst; [apply Hl; left|by left].
Qed.

(* ---------------------------------------------------------------------- *)
(** ** X16: what build_path_on_grid can change *)

(** X16. On a grid of the right shape, for every path, whether
    [build_path_on_grid] returns or raises, the object it leaves has the
    shape, [n], [m], [tower_radius] and [towers] it had, and each cell
    either holds what it held or holds a marker (['*'], ['B'] or ['E']) and
    is the cell denoted by a coordinate of the path. *)
Theorem build_path_on_grid_frame s path :
  shape_ok s →
  let s' := final (build_path_on_grid s path) in
  shape_ok s' ∧ n s' = n s ∧ m s' = m s ∧
  tower_radius s' = tower_radius s ∧ towers s' = towers s ∧
  ∀ q, in_bounds s q →
       state_at s' q = state_at s q ∨
       ((∃ c, state_at s' q = Some c ∧ marker c) ∧
        ∃ p, p ∈ path ∧ valid_index s p ∧ wrap s p = q).
Proof.
  intros Hs s'. subst s'. unfold build_path_on_grid. rewrite final_and_then.
  pose proof (overlay_mark_interior s path (Py.interior path) s
                (overlay_refl s path Hs) (interior_subseteq path)) as H1.
  destruct (mark_interior s (Py.interior path)) as [s1|e s1]; simpl in H1; [|done].
  rewrite getitem_first, getitem_last.
  destruct (head path) as [first|] eqn:Hhead; [|done].
  rewrite final_and_then.
  pose proof (overlay_store s path s1 first BeginMark H1) as H2.
  destruct (store s1 first BeginMark) as [s2|e s2]; simpl in H2.
  - assert (Ho2 : overlay s path s2).
    { apply H2; [by apply head_Some_elem_of|right; by left]. }
    destruct (last path) as [final_|] eqn:Hlast; [|done].
    apply overlay_store; [done|by apply last_Some_elem_of|right; by right].
  - apply H2; [by apply head_Some_elem_of|right; by left].
Qed.

Lemma build_path_on_grid_frame_witness :
  let s := mkCityGrid 1 4 1 [[Covered; Station; Station; Covered]] [(0, 1); (0, 2)] in
  let s' := final (build_path_on_grid s [(0, 1); (0, -2); (0, 9)]) in
  shape_ok s' ∧ n s' = n s ∧ m s' = m s ∧
  tower_radius s' = tower_radius s ∧ towers s' = towers s ∧
  ∀ q, in_bounds s q →
       state_at s' q = state_at s q ∨
       ((∃ c, state_at s' q = Some c ∧ marker c) ∧
        ∃ p, p ∈ [(0, 1); (0, -2); (0, 9)] ∧ valid_index s p ∧ wrap s p = q).
Proof.
  intros s. apply (build_path_on_grid_frame s [(0, 1); (0, -2); (0, 9)]).
  split; [reflexivity|]. repeat constructor.
Defined.

(** The path above: the cell in between and the first cell are marked
    before the last coordinate raises. *)
Example build_path_on_grid_partial :
  build_path_on_grid
    (mkCityGrid 1 4 1 [[Covered; Station; Station; Covered]] [(0, 1); (0, 2)])
    [(0, 1); (0, -2); (0, 9)]
  = Raised IndexError
      (mkCityGrid 1 4 1 [[Covered; BeginMark; PathMark; Covered]] [(0, 1); (0, 2)]).
Proof. reflexivity. Qed.

Lemma raises_store s p v :
  shape_ok s → raises (store s p v) ↔ ¬ valid_index s p.
Proof.
  intros Hs. destruct (valid_index_dec s p) as [Hv|Hn].
  - destruct (store_valid s p v Hs Hv) as [-> _]. simpl. tauto.
  - rewrite store_invalid by done. simpl. tauto.
Qed.

Lemma overlay_valid s path s1 p :
  overlay s path s1 → valid_index s1 p ↔ valid_index s p.
Proof.
  intros (_ & Hn & Hm & _). unfold valid_index. by rewrite Hn, Hm.
Qed.

Lemma raises_mark_interior s path l s1 :
  overlay s path s1 → (∀ p, p ∈ l → p ∈ path) →
  raises (mark_interior s1 l) ↔ ∃ c, c ∈ l ∧ ¬ valid_index s c.
Proof.
  revert s1. induction l as [|p l IH]; intros s1 Ho Hl.
  - simpl. split; [done|]. intros (c & Hc & _). by apply elem_of_nil in Hc.
  - simpl. rewrite raises_and_then.
    assert (Hs1 : shape_ok s1) by by destruct Ho.
    rewrite (raises_store s1 p PathMark Hs1), (overlay_valid s path s1 p Ho).
    pose proof (overlay_store s path s1 p PathMark Ho) as Hst.
    split.
    + intros [Hn|(s2 & Hs2 & Hr)]; [exists p; split; [left|done]|].
      rewrite Hs2 in Hst. simpl in Hst.
      apply IH in Hr as (c & Hc & Hn).
      * exists c. split; [by right|done].
      * apply Hst; [apply Hl; left|by left].
      * intros q Hq. apply Hl. by right.
    + intros (c & Hc & Hn).
      destruct (valid_index_dec s p) as [Hv|Hnv]; [|by left]. right.
      apply elem_of_cons in Hc as [->|Hc]; [done|].
      destruct (store s1 p PathMark) as [s2|e s2] eqn:Hstore.
      * exists s2. split; [done|]. simpl in Hst. apply IH.
        -- apply Hst; [apply Hl; left|by left].
        -- intros q Hq. apply Hl. by right.
        -- by exists c.
      * exfalso. assert (Hr : raises (store s1 p PathMark)) by by rewrite Hstore.
        apply (raises_store s1 p PathMark Hs1) in Hr.
        by apply Hr, (overlay_valid s path s1 p Ho).
Qed.

(* ---------------------------------------------------------------------- *)
(** ** X17: when build_path_on_grid raises *)

(** X17. On a grid of the right shape [build_path_on_grid] raises
    ([IndexError]) exactly when the path is empty or one of its coordinates
    has a row index outside [-n, n) or a column index outside [-m, m);
    coordinates with negative indices inside these ranges are accepted. *)
Theorem build_path_on_grid_raises_iff s path :
  shape_ok s →
  raises (build_path_on_grid s path) ↔
  path = [] ∨ ∃ c, c ∈ path ∧ ¬ valid_index s c.
Proof.
  intros Hs. unfold build_path_on_grid. rewrite raises_and_then.
  pose proof (overlay_refl s path Hs) as Ho.
  rewrite (raises_mark_interior s path (Py.interior path) s Ho (interior_subseteq path)).
  pose proof (overlay_mark_interior s path (Py.interior path) s Ho
                (interior_subseteq path)) as Ho1.
  rewrite getitem_first, getitem_last.
  destruct path as [|a rest] eqn:Epath.
  { simpl. split; [by left|]. intros _. right. by exists s. }
  rewrite <- Epath in *.
  assert (Hhead : head path = Some a) by by rewrite Epath.
  destruct (last path) as [z|] eqn:Hlast; [|apply last_None in Hlast; congruence].
  rewrite Hhead.
  assert (Hk : ∀ s1, overlay s path s1 →
            raises (and_then (store s1 a BeginMark) (fun s2 => store s2 z EndMark))
            ↔ ¬ valid_index s a ∨ ¬ valid_index s z).
  { intros s1 Hov. assert (Hs1 : shape_ok s1) by by destruct Hov.
    rewrite raises_and_then, (raises_store s1 a BeginMark Hs1),
      (overlay_valid s path s1 a Hov).
    pose proof (overlay_store s path s1 a BeginMark Hov) as Hst.
    split.
    - intros [Hn|(s2 & Hs2 & Hr)]; [by left|]. right.
      rewrite Hs2 in Hst. simpl in Hst.
      assert (Hov2 : overlay s path s2).
      { apply Hst; [by apply head_Some_elem_of|right; by left]. }
      apply raises_store in Hr; [|by destruct Hov2].
      by rewrite (overlay_valid s path s2 z Hov2) in Hr.
    - intros [Hn|Hn]; [by left|].
      destruct (valid_index_dec s a) as [Hv|Hnv]; [|by left]. right.
      destruct (store s1 a BeginMark) as [s2|e s2] eqn:Hstore.
      + exists s2. split; [done|]. simpl in Hst.
        assert (Hov2 : overlay s path s2).
        { apply Hst; [by apply head_Some_elem_of|right; by left]. }
        apply raises_store; [by destruct Hov2|].
        by rewrite (overlay_valid s path s2 z Hov2).
      + exfalso. assert (Hr : raises (store s1 a BeginMark)) by by rewrite Hstore.
        apply (raises_store s1 a BeginMark Hs1) in Hr.
        by apply Hr, (overlay_valid s path s1 a Hov). }
  split.
  - intros [(c & Hc & Hn)|(s1 & Hm1 & Hr)].
    + right. exists c. split; [by apply interior_subseteq|done].
    + rewrite Hm1 in Ho1. simpl in Ho1. apply (Hk s1 Ho1) in Hr as [Hn|Hn].
      * right. exists a. split; [by apply head_Some_elem_of|done].
      * right. exists z. split; [by apply last_Some_elem_of|done].
  - intros [?|(c & Hc & Hn)]; [congruence|].
    destruct (mark_interior s (Py.interior path)) as [s1|e s1] eqn:Hmark.
    + right. exists s1. split; [done|]. simpl in Ho1. apply (Hk s1 Ho1).
      destruct (decide (head path = Some c)) as [Hh|Hh]; [left; congruence|].
      destruct (decide (last path = Some c)) as [Hl|Hl]; [right; congruence|].
      exfalso.
      assert (Hr : raises (mark_interior s (Py.interior path))).
      { apply (raises_mark_interior s path _ s Ho (interior_subseteq path)).
        exists c. split; [by apply elem_of_interior|done]. }
      by rewrite Hmark in Hr.
    + left.
      assert (Hr : raises (mark_interior s (Py.interior path))) by by rewrite Hmark.
      by apply (raises_mark_interior s path _ s Ho (interior_subseteq path)) in Hr.
Qed.

Lemma build_path_on_grid_raises_iff_witness :
  let s := mkCityGrid 1 4 1 [[Covered; Station; Station; Covered]] [(0, 1); (0, 2)] in
  (raises (build_path_on_grid s [(0, 1); (0, -2); (0, 9)]) ↔
   [(0, 1); (0, -2); (0, 9)] = [] ∨
   ∃ c, c ∈ [(0, 1); (0, -2); (0, 9)] ∧ ¬ valid_index s c) ∧
  (raises (build_path_on_grid s [(0, -3); (-1, -1)]) ↔
   [(0, -3); (-1, -1)] = [] ∨
   ∃ c, c ∈ [(0, -3); (-1, -1)] ∧ ¬ valid_index s c).
Proof.
  intros s.
  assert (Hs : shape_ok s) by (split; [reflexivity | repeat constructor]).
  split.
  - apply (build_path_on_grid_raises_iff s [(0, 1); (0, -2); (0, 9)] Hs).
  - apply (build_path_on_grid_raises_iff s [(0, -3); (-1, -1)] Hs).
Defined.

Example init_small :
  init 2 2 1 1 [(1, 1); (1, 1)] 4
  = Some (Built (mkCityGrid 2 2 1 [[Station; Covered]; [Covered; Obstructed]] [(0, 0)])).
Proof. vm_compute. reflexivity. Qed.

(** ** Counting cells *)

Lemma length_filter_gain {A} (P P' : A → Prop)
    `{!∀ x, Decision (P x), !∀ x, Decision (P' x)} (l : list A) (p : A) :
  NoDup l → p ∈ l → ¬ P p → P' p →
  (∀ x, x ∈ l → x ≠ p → P' x ↔ P x) →
  length (filter P' l) = S (length (filter P l)).
Proof.
  intros Hnd Hin HnP HP' Hext.
  induction l as [|a l IH]; [by apply elem_of_nil in Hin|].
  apply NoDup_cons in Hnd as [Ha Hnd]. rewrite !filter_cons.
  apply elem_of_cons in Hin as [<-|Hin].
  - rewrite decide_True by done. rewrite decide_False by done. simpl. f_equal.
    f_equal. apply filter_ext_in. intros x Hx. apply Hext; [by right|].
    intros ->. done.
  - assert (Hap : a ≠ p) by (intros ->; done).
    assert (Heq : P' a ↔ P a) by (apply Hext; [left|done]).
    assert (Hext' : ∀ x, x ∈ l → x ≠ p → P' x ↔ P x).
    { intros x Hx. apply Hext. by right. }
    specialize (IH Hnd Hin Hext').
    destruct (decide (P' a)), (decide (P a)); simpl; try tauto; by rewrite IH.
Qed.

(** Writing [v] on a cell of the grid that held something else: one more
    cell holds [v], one fewer holds what the cell held. *)
Lemma count_cells_put s p v c0 :
  shape_ok s → in_bounds s p → state_at s p = Some c0 → c0 ≠ v →
  let s1 := with_grid s (grid_put (grid s) p.1 p.2 v) in
  count_cells v s1 = S (count_cells v s) ∧
  S (count_cells c0 s1) = count_cells c0 s.
Proof.
  intros Hs Hp Hc0 Hne s1. unfold count_cells.
  change (all_cells s1) with (all_cells s).
  assert (Hst : ∀ q, q ∈ all_cells s →
                     state_at s1 q = if decide (p = q) then Some v else state_at s q).
  { intros q Hq. apply with_grid_put_state; [done|done|]. by apply elem_of_all_cells. }
  assert (Hpin : p ∈ all_cells s) by by apply elem_of_all_cells.
  split.
  - apply (length_filter_gain _ _ _ p); [apply all_cells_NoDup|done| | |].
    + rewrite Hc0. congruence.
    + rewrite (Hst p Hpin). by rewrite decide_True.
    + intros q Hq Hqp. rewrite (Hst q Hq). by rewrite decide_False.
  - symmetry. apply (length_filter_gain _ _ _ p); [apply all_cells_NoDup|done| |done|].
    + rewrite (Hst p Hpin). rewrite decide_True by done. congruence.
    + intros q Hq Hqp. rewrite (Hst q Hq). by rewrite decide_False.
Qed.

Lemma count_cells_Empty s :
  count_cells Empty s = length (get_uncovered_blocks s).
Proof.
  unfold count_cells. rewrite get_uncovered_blocks_filter. f_equal.
  apply filter_ext_in. intros q _. by rewrite cell_is_Empty.
Qed.

(** ** The loop of generate_obstructions *)

Lemma gen_loop_spec quota draws count s :
  shape_ok s → 0 < n s → 0 < m s → Forall (in_bounds s) draws →
  match Gen.loop quota draws count s with
  | Gen.Done s' unused =>
      shape_ok s' ∧ n s' = n s ∧ m s' = m s ∧
      tower_radius s' = tower_radius s ∧ towers s' = towers s ∧
      unused `suffix_of` draws ∧
      (∀ q, in_bounds s q →
            state_at s' q = state_at s q ∨
            (state_at s q = Some Empty ∧ state_at s' q = Some Obstructed)) ∧
      Z.of_nat (count_cells Obstructed s')
        = Z.of_nat (count_cells Obstructed s) + Z.max 0 (quota - count) ∧
      Z.of_nat (count_cells Empty s') + Z.max 0 (quota - count)
        = Z.of_nat (count_cells Empty s)
  | Gen.Starved s' count' => count' < quota
  | Gen.Failed _ _ => False
  end.
Proof.
  intros Hs Hn Hm Hdraws. revert count s Hs Hn Hm Hdraws.
  induction draws as [|[rn rm] draws IH]; intros count s Hs Hn Hm Hdraws.
  - simpl. case_bool_decide as Hc.
    + rewrite bool_decide_eq_false_2 by lia. rewrite bool_decide_eq_false_2 by lia. done.
    + repeat (split; [done|]). split; [by left|]. lia.
  - simpl. case_bool_decide as Hc.
    2: { repeat (split; [done|]). split; [by left|]. lia. }
    rewrite bool_decide_eq_false_2 by lia. rewrite bool_decide_eq_false_2 by lia.
    apply Forall_cons in Hdraws as [Hp Hdraws].
    destruct (grid_get_in_bounds s (rn, rm) Hs Hp) as [c Hget].
    unfold state_at in Hget. simpl in Hget. rewrite Hget.
    unfold Gen.falsy. case_bool_decide as Hfalsy.
    + subst c.
      set (s1 := with_grid s (grid_put (grid s) rn rm Obstructed)).
      assert (Hs1 : shape_ok s1) by by apply shape_ok_put.
      specialize (IH (count + 1) s1 Hs1 Hn Hm Hdraws).
      destruct (Gen.loop quota draws (count + 1) s1) as [s' unused|s' count'|e s'];
        [|done|done].
      destruct IH as (Hs' & Hn' & Hm' & Hr' & Ht' & Hsuf & Hch & Hobs & Hemp).
      destruct (count_cells_put s (rn, rm) Obstructed Empty Hs Hp Hget) as [Hco Hce];
        [done|]. cbn [fst snd] in Hco, Hce. fold s1 in Hco, Hce.
      repeat (split; [done|]). split; [by apply suffix_cons_r|]. split.
      * intros q Hq. destruct (Hch q Hq) as [Hsame|[He Ho]].
        -- rewrite Hsame. unfold s1.
           rewrite (with_grid_put_state s (rn, rm)) by done.
           case_decide as Hqp; [|by left]. subst q. right. done.
        -- right. split; [|done]. unfold s1 in He.
           rewrite (with_grid_put_state s (rn, rm)) in He by done.
           by case_decide.
      * split; lia.
    + specialize (IH count s Hs Hn Hm Hdraws).
      destruct (Gen.loop quota draws count s) as [s' unused|s' count'|e s'];
        [|done|done].
      destruct IH as (Hs' & Hn' & Hm' & Hr' & Ht' & Hsuf & Hrest).
      repeat (split; [done|]). split; [by apply suffix_cons_r|]. done.
Qed.

Lemma gen_loop_no_quota quota draws count s :
  ¬ count < quota → Gen.loop quota draws count s = Gen.Done s draws.
Proof.
  intros Hc. destruct draws as [|[rn rm] draws]; simpl;
    by rewrite bool_decide_eq_false_2.
Qed.

Lemma gen_loop_empty_range quota draws count s :
  count < quota → n s <= 0 ∨ m s <= 0 →
  Gen.loop quota draws count s = Gen.Failed Gen.ValueError s.
Proof.
  intros Hc Hnm. destruct draws as [|[rn rm] draws]; simpl;
    rewrite bool_decide_eq_true_2 by done;
    (case_bool_decide; [done|]); by rewrite bool_decide_eq_true_2 by lia.
Qed.

(* ---------------------------------------------------------------------- *)
(** ** X18: what generate_obstructions changes *)

(** X18. On a grid of the right shape, for draws inside the grid, when
    [generate_obstructions] returns: the shape, [n], [m], [tower_radius]
    and [towers] are kept; each cell holds what it held, or held [0] and
    holds ['X']; and, with [quota] the value of
    [int(n * m * obs_coverage)], exactly [max(0, quota)] cells have gone
    from [0] to ['X']. *)
Theorem generate_obstructions_effect s quota draws s' unused :
  shape_ok s → Forall (in_bounds s) draws →
  generate_obstructions s quota draws = Gen.Done s' unused →
  shape_ok s' ∧ n s' = n s ∧ m s' = m s ∧
  tower_radius s' = tower_radius s ∧ towers s' = towers s ∧
  (∀ q, in_bounds s q →
        state_at s' q = state_at s q ∨
        (state_at s q = Some Empty ∧ state_at s' q = Some Obstructed)) ∧
  Z.of_nat (count_cells Obstructed s')
    = Z.of_nat (count_cells Obstructed s) + Z.max 0 quota ∧
  Z.of_nat (length (get_uncovered_blocks s')) + Z.max 0 quota
    = Z.of_nat (length (get_uncovered_blocks s)).
Proof.
  intros Hs Hdraws Hgen. unfold generate_obstructions in Hgen.
  destruct (decide (0 < quota)) as [Hq|Hq].
  - destruct (decide (0 < n s ∧ 0 < m s)) as [[Hn Hm]|Hnm].
    + pose proof (gen_loop_spec quota draws 0 s Hs Hn Hm Hdraws) as H.
      rewrite Hgen in H.
      destruct H as (Hs' & Hn' & Hm' & Hr' & Ht' & _ & Hch & Hobs & Hemp).
      rewrite !count_cells_Empty in Hemp. rewrite Z.sub_0_r in Hobs, Hemp.
      done.
    + rewrite gen_loop_empty_range in Hgen by lia. done.
  - rewrite gen_loop_no_quota in Hgen by lia. simplify_eq.
    repeat (split; [done|]). split; [by left|]. lia.
Qed.

Lemma generate_obstructions_effect_witness :
  let s := uniform 2 2 1 Empty in
  let s' := mkCityGrid 2 2 1 [[Empty; Obstructed]; [Obstructed; Empty]] [] in
  shape_ok s' ∧ n s' = n s ∧ m s' = m s ∧
  tower_radius s' = tower_radius s ∧ towers s' = towers s ∧
  (∀ q, in_bounds s q →
        state_at s' q = state_at s q ∨
        (state_at s q = Some Empty ∧ state_at s' q = Some Obstructed)) ∧
  Z.of_nat (count_cells Obstructed s')
    = Z.of_nat (count_cells Obstructed s) + Z.max 0 2 ∧
  Z.of_nat (length (get_uncovered_blocks s')) + Z.max 0 2
    = Z.of_nat (length (get_uncovered_blocks s)).
Proof.
  intros s s'.
  apply (generate_obstructions_effect s 2 [(0, 1); (0, 1); (1, 0); (1, 1)] s' [(1, 1)]).
  - split; [reflexivity|]. repeat constructor.
  - repeat constructor; simpl; lia.
  - reflexivity.
Defined.

(* ---------------------------------------------------------------------- *)
(** ** X19: generate_obstructions asked for more than fits *)

(** X19. On a grid of the right shape with [n > 0] and [m > 0], when
    [quota] (the value of [int(n * m * obs_coverage)]) exceeds the number
    of cells holding [0], [generate_obstructions] does not return whatever
    the draws: when the draws given are used up its loop is still running,
    with fewer than [quota] obstructions made. *)
Theorem generate_obstructions_needs_room s quota draws :
  shape_ok s → 0 < n s → 0 < m s → Forall (in_bounds s) draws →
  Z.of_nat (length (get_uncovered_blocks s)) < quota →
  ∃ s' count, generate_obstructions s quota draws = Gen.Starved s' count ∧
              count < quota.
Proof.
  intros Hs Hn Hm Hdraws Hroom. unfold generate_obstructions.
  pose proof (gen_loop_spec quota draws 0 s Hs Hn Hm Hdraws) as H.
  destruct (Gen.loop quota draws 0 s) as [s' unused|s' count|e s'].
  - destruct H as (_ & _ & _ & _ & _ & _ & _ & _ & Hemp).
    rewrite !count_cells_Empty in Hemp. lia.
  - by exists s', count.
  - done.
Qed.

Lemma generate_obstructions_needs_room_witness :
  ∃ s' count,
    generate_obstructions (uniform 1 2 1 Empty) 3 [(0, 0); (0, 1); (0, 0); (0, 1)]
    = Gen.Starved s' count ∧ count < 3.
Proof.
  apply (generate_obstructions_needs_room (uniform 1 2 1 Empty) 3
           [(0, 0); (0, 1); (0, 0); (0, 1)]).
  - split; [reflexivity|]. repeat constructor.
  - simpl. lia.
  - simpl. lia.
  - repeat constructor; simpl; lia.
  - vm_compute. reflexivity.
Defined.

(** ** The grid the constructor starts from *)

Lemma uniform_shape n0 m0 r c : 0 <= n0 → 0 <= m0 → shape_ok (uniform n0 m0 r c).
Proof.
  intros Hn Hm. split; simpl.
  - rewrite length_replicate. lia.
  - apply Forall_replicate. rewrite length_replicate. lia.
Qed.

Lemma uniform_cells n0 m0 r c : every_cell (fun x => x = c) (uniform n0 m0 r c).
Proof.
  unfold every_cell. simpl. apply Forall_replicate, Forall_replicate. done.
Qed.

Lemma count_cells_none c s :
  (∀ q, in_bounds s q → state_at s q ≠ Some c) → count_cells c s = 0%nat.
Proof.
  intros Hnone. unfold count_cells.
  destruct (filter _ (all_cells s)) as [|q l] eqn:E; [done|]. exfalso.
  assert (Hq : q ∈ q :: l) by left. rewrite <- E in Hq.
  apply list_elem_of_filter in Hq as [Hc Hq]. apply elem_of_all_cells in Hq.
  by apply (Hnone q).
Qed.

(* ---------------------------------------------------------------------- *)
(** ** X20: the object the constructor builds *)

(** X20. When [CityGrid(n, m, r, obs_coverage)] returns an object, for
    draws in range and [quota] the value of [int(n * m * obs_coverage)]:
    [n], [m] and [r] are positive and are the object's [n], [m] and
    [tower_radius]; the grid has [n] rows of [m] cells; exactly
    [max(0, quota)] cells hold ['X'] and every other cell holds ['#'] or
    ['|']; [towers] lists, each once, coordinates of cells that hold
    ['|']; and every cell holding ['#'] is within Chebyshev distance [r]
    of a tower. *)
Theorem init_establishes n0 m0 r quota draws fuel s :
  Forall (fun p : coord => 0 <= p.1 < n0 ∧ 0 <= p.2 < m0) draws →
  init n0 m0 r quota draws fuel = Some (Built s) →
  0 < n0 ∧ 0 < m0 ∧ 0 < r ∧
  shape_ok s ∧ n s = n0 ∧ m s = m0 ∧ tower_radius s = r ∧
  Z.of_nat (count_cells Obstructed s) = Z.max 0 quota ∧
  every_cell (fun c => c = Obstructed ∨ c = Covered ∨ c = Station) s ∧
  NoDup (towers s) ∧
  (∀ t, t ∈ towers s → in_bounds s t ∧ state_at s t = Some Station) ∧
  (∀ q, in_bounds s q → state_at s q = Some Covered →
        ∃ t, t ∈ towers s ∧ chebyshev t q <= r).
Proof.
  intros Hdraws Hinit. unfold init in Hinit.
  case_bool_decide as Hn; [|done]. case_bool_decide as Hm; [|done].
  case_bool_decide as Hr; [|done].
  set (s0 := uniform n0 m0 r Empty) in *.
  assert (Hs0 : shape_ok s0) by (apply uniform_shape; lia).
  assert (Hall0 : ∀ q c, in_bounds s0 q → state_at s0 q = Some c → c = Empty).
  { intros q c. apply (every_cell_in_bounds (fun x => x = Empty) s0 Hs0), uniform_cells. }
  pose proof (gen_loop_spec quota draws 0 s0 Hs0 ltac:(simpl; lia) ltac:(simpl; lia) Hdraws)
    as Hgen.
  unfold generate_obstructions in Hinit.
  destruct (Gen.loop quota draws 0 s0) as [s1 unused|s1 count|e s1]; [|done|done].
  destruct Hgen as (Hs1 & Hn1 & Hm1 & Hr1 & Ht1 & _ & Hch & Hobs & _).
  destruct (place_optimal_towers fuel s1) as [[s2|[] s2]|] eqn:Hplace; simplify_eq.
  unfold place_optimal_towers in Hplace.
  assert (Hcells1 : ∀ q c, in_bounds s1 q → state_at s1 q = Some c →
                           c = Empty ∨ c = Obstructed).
  { intros q c Hq Hc.
    assert (Hq0 : in_bounds s0 q) by (apply (in_bounds_same s1); done).
    destruct (grid_get_in_bounds s0 q Hs0 Hq0) as [c0 Hc0].
    pose proof (Hall0 q c0 Hq0 Hc0) as ->.
    destruct (Hch q Hq0) as [Hsame|[_ Ho]]; [left|right]; congruence. }
  destruct (place_loop_inv
              (fun s => registry_ok s ∧ covered_ok s ∧ placed_from s1 s))
    with (fuel := fuel) (s := s1) (s' := s)
    as ((Hreg & Hcov & Hfrom) & Hs2 & Hnone & Hn2 & Hm2 & Hr2); [| done | | done |].
  { intros s' b (Hreg & Hcov & Hfrom) Hs' Hb. split; [by apply registry_step|].
    split; [by apply covered_step|by apply placed_from_step]. }
  { split; [|split; [|apply placed_from_refl]].
    - unfold registry_ok. rewrite Ht1. split; [constructor|].
      intros t Ht. by apply elem_of_nil in Ht.
    - intros q Hq Hc. destruct (Hcells1 q Covered Hq Hc); done. }
  assert (Hfinal : ∀ q c, in_bounds s q → state_at s q = Some c →
                          ∃ c1, state_at s1 q = Some c1 ∧
                                ((c1 = Empty ∧ (c = Covered ∨ c = Station)) ∨
                                 (c1 = Obstructed ∧ c = Obstructed))).
  { intros q c Hq Hc.
    assert (Hq1 : in_bounds s1 q) by (apply (in_bounds_same s); done).
    destruct (grid_get_in_bounds s1 q Hs1 Hq1) as [c1 Hc1]. exists c1. split; [done|].
    pose proof (placed_from_final s1 s q c1 Hfrom Hnone Hq1 Hc1) as Hf.
    destruct (Hcells1 q c1 Hq1 Hc1) as [-> | ->].
    - left. split; [done|]. rewrite decide_True in Hf by by left.
      destruct Hf as [Hf|Hf]; rewrite Hf in Hc; simplify_eq; auto.
    - right. split; [done|]. rewrite decide_False in Hf by (intros [?|?]; done).
      congruence. }
  split; [lia|]. split; [lia|]. split; [lia|]. split; [done|].
  split; [by rewrite Hn2, Hn1|]. split; [by rewrite Hm2, Hm1|].
  split; [by rewrite Hr2, Hr1|]. split; [|split; [|split; [|split]]].
  - rewrite <- (Z.add_0_l (Z.max 0 quota)).
    replace 0 with (Z.of_nat (count_cells Obstructed s0)) at 1.
    2: { rewrite count_cells_none; [done|]. intros q Hq Hc.
         by pose proof (Hall0 q Obstructed Hq Hc). }
    rewrite Z.sub_0_r in Hobs. rewrite <- Hobs. f_equal.
    unfold count_cells. unfold all_cells. rewrite Hn2, Hm2.
    fold (all_cells s1). f_equal. apply filter_ext_in. intros q Hq.
    assert (Hq1 : in_bounds s1 q) by by apply elem_of_all_cells.
    assert (Hq2 : in_bounds s q) by by apply (in_bounds_same s1).
    split.
    + intros Hc. destruct (Hfinal q Obstructed Hq2 Hc) as (c1 & Hc1 & [[_ [?|?]]|[-> _]]);
        done.
    + intros Hc1. pose proof (placed_from_final s1 s q Obstructed Hfrom Hnone Hq1 Hc1) as Hf.
      rewrite decide_False in Hf by (intros [?|?]; done). done.
  - apply every_cell_in_bounds; [done|]. intros q c Hq Hc.
    destruct (Hfinal q c Hq Hc) as (c1 & _ & [[_ [-> | ->]]|[_ ->]]); auto.
  - by destruct Hreg.
  - by destruct Hreg.
  - intros q Hq Hc. destruct (Hcov q Hq Hc) as (t & Ht & Hd).
    exists t. split; [done|]. by rewrite Hr2, Hr1 in Hd.
Qed.

Lemma init_establishes_witness :
  let s := mkCityGrid 2 2 1 [[Station; Covered]; [Covered; Obstructed]] [(0, 0)] in
  0 < 2 ∧ 0 < 2 ∧ 0 < 1 ∧
  shape_ok s ∧ n s = 2 ∧ m s = 2 ∧ tower_radius s = 1 ∧
  Z.of_nat (count_cells Obstructed s) = Z.max 0 1 ∧
  every_cell (fun c => c = Obstructed ∨ c = Covered ∨ c = Station) s ∧
  NoDup (towers s) ∧
  (∀ t, t ∈ towers s → in_bounds s t ∧ state_at s t = Some Station) ∧
  (∀ q, in_bounds s q → state_at s q = Some Covered →
        ∃ t, t ∈ towers s ∧ chebyshev t q <= 1).
Proof.
  intros s. apply (init_establishes 2 2 1 1 [(1, 1); (1, 1)] 4 s).
  - repeat constructor; simpl; lia.
  - vm_compute. reflexivity.
Defined.

(* ---------------------------------------------------------------------- *)
(** ** X21: the coverage score as a count of uncovered blocks *)

(** X21. On a grid of the right shape, for any [x], [y] (inside the grid
    or not) and any [R], [get_coverage(x, y, R)] is the number of
    uncovered blocks at Chebyshev distance at most [R] from [(x, y)]. *)
Theorem get_coverage_chebyshev s x y R :
  shape_ok s →
  get_coverage s x y R
  = Z.of_nat (length (filter (fun q => chebyshev (x, y) q <= R)
                             (get_uncovered_blocks s))).
Proof.
  intros Hs. rewrite get_coverage_count, <- window_uncovered_count. f_equal. f_equal.
  apply filter_ext_in. intros q Hq. apply elem_of_uncovered in Hq as [Hq _].
  rewrite elem_of_window. unfold chebyshev. simpl. split.
  - intros (_ & Hx & Hy). lia.
  - intros Hd. split; [done|]. lia.
Qed.

Lemma get_coverage_chebyshev_witness :
  let s := mkCityGrid 2 3 1 [[Empty; Obstructed; Empty]; [Covered; Empty; Empty]] [] in
  get_coverage s (-1) 3 2
  = Z.of_nat (length (filter (fun q => chebyshev (-1, 3) q <= 2)
                             (get_uncovered_blocks s))).
Proof.
  intros s. apply (get_coverage_chebyshev s (-1) 3 2).
  split; [reflexivity|]. repeat constructor.
Defined.

(* ---------------------------------------------------------------------- *)
(** ** X22: placement run again *)

(** X22. On a grid of the right shape with a non-negative radius, once
    [place_optimal_towers] has returned, a second call returns without
    running the body of its loop and leaves the object as it is: no tower
    is added. *)
Theorem placement_twice s fuel :
  shape_ok s → 0 <= tower_radius s → (Z.to_nat (n s * m s) <= fuel)%nat →
  ∃ s', place_optimal_towers fuel s = Some (Returned s') ∧
        place_optimal_towers 0 s' = Some (Returned s').
Proof.
  intros Hs Hr Hfuel.
  destruct (place_loop_returns_inv (fun _ => True) s fuel)
    as (s' & Hloop & _ & _ & Hnone & _); try done.
  exists s'. split; [done|]. unfold place_optimal_towers. simpl. by rewrite Hnone.
Qed.

Lemma placement_twice_witness :
  ∃ s', place_optimal_towers 12 (uniform 3 4 1 Empty) = Some (Returned s') ∧
        place_optimal_towers 0 s' = Some (Returned s').
Proof.
  apply (placement_twice (uniform 3 4 1 Empty) 12).
  - split; [reflexivity|]. repeat constructor.
  - simpl. lia.
  - simpl. lia.
Defined.

(* ---------------------------------------------------------------------- *)
(** ** X23: searching again after the path is annotated *)

(** X23. On a grid of the right shape, for a start inside the grid and an
    end other than the start: once a path found by [find_path] has been
    annotated by [build_path_on_grid], [find_path] between the same two
    coordinates returns [None], the cell of the end now holding ['E']. *)
Theorem search_after_annotation s start end_ fuel fuel' path s1 :
  shape_ok s → in_bounds s start → start ≠ end_ →
  find_path fuel s start end_ = Some (Some path, s1) →
  (search_bound s <= fuel')%nat →
  ∃ s', build_path_on_grid s path = Returned s' ∧
        state_at s' end_ = Some EndMark ∧
        find_path fuel' s' start end_ = Some (None, s').
Proof.
  intros Hs Hstart Hne Hfind Hfuel.
  destruct (find_path_some_walk _ _ _ _ _ _ Hfind) as [Hw Hlast].
  assert (Hall : Forall (in_bounds s) path).
  { apply Forall_forall. intros q Hq.
    destruct (walk_elem_of s start path q Hw Hq) as [->|[? _]]; done. }
  destruct (build_path_on_grid_marks s path Hs) as (s' & Hb & Hs' & Hn & Hm & _ & _ & Hst);
    [by intros ->|done|].
  assert (Hend : state_at s' end_ = Some EndMark).
  { rewrite Hst, decide_True; [done|done|].
    rewrite Forall_forall in Hall. by apply Hall, last_Some_elem_of. }
  exists s'. split; [done|]. split; [done|].
  destruct (find_path_returns s' start end_ fuel') as [[path'|] Hret].
  { unfold search_bound in *. by rewrite Hn, Hm. }
  - exfalso. destruct (find_path_some_walk _ _ _ _ _ _ Hret) as [Hw' Hlast'].
    apply last_Some in Hlast' as [l ->].
    destruct (walk_elem_of s' start (l ++ [end_]) end_ Hw') as [?|[_ [Hc|Hc]]];
      [apply elem_of_app; right; left|done|congruence|congruence].
  - done.
Qed.

Lemma search_after_annotation_witness :
  let s := mkCityGrid 2 3 1 [[Station; Covered; Obstructed];
                             [Obstructed; Covered; Station]] [(0, 0); (1, 2)] in
  ∃ s', build_path_on_grid s [(0, 0); (1, 1); (1, 2)] = Returned s' ∧
        state_at s' (1, 2) = Some EndMark ∧
        find_path 64 s' (0, 0) (1, 2) = Some (None, s').
Proof.
  intros s.
  apply (search_after_annotation s (0, 0) (1, 2) 20 64 [(0, 0); (1, 1); (1, 2)] s).
  - split; [reflexivity|]. repeat constructor.
  - split; simpl; lia.
  - discriminate.
  - vm_compute. reflexivity.
  - vm_compute. lia.
Defined.

(** ** Python's order on the entries of the open list *)

Lemma coord_ltb_lt a b : Search.coord_ltb a b = true ↔ row_major_lt a b.
Proof.
  unfold Search.coord_ltb, row_major_lt.
  case_bool_decide; rewrite bool_decide_eq_true; lia.
Qed.

Lemma coord_ltb_trans a b c :
  Search.coord_ltb a b = true → Search.coord_ltb b c = true →
  Search.coord_ltb a c = true.
Proof. rewrite !coord_ltb_lt. unfold row_major_lt. lia. Qed.

Lemma coord_ltb_total a b :
  a ≠ b → Search.coord_ltb a b = true ∨ Search.coord_ltb b a = true.
Proof.
  intros Hne. rewrite !coord_ltb_lt. unfold row_major_lt.
  destruct a as [a1 a2], b as [b1 b2]. simpl.
  destruct (decide (a1 = b1)) as [->|]; [|lia].
  assert (a2 ≠ b2) by congruence. lia.
Qed.

Lemma path_ltb_trans p q r :
  Search.path_ltb p q = true → Search.path_ltb q r = true →
  Search.path_ltb p r = true.
Proof.
  revert q r. induction p as [|a p IH]; intros [|b q] [|c r]; simpl; try done.
  repeat case_bool_decide; subst; try done.
  - apply IH.
  - intros H1 H2. apply coord_ltb_lt in H1, H2. unfold row_major_lt in *. lia.
  - apply coord_ltb_trans.
Qed.

Lemma path_ltb_total p q :
  p ≠ q → Search.path_ltb p q = true ∨ Search.path_ltb q p = true.
Proof.
  revert q. induction p as [|a p IH]; intros [|b q] Hne; simpl;
    [done|by left|by right|].
  destruct (decide (a = b)) as [->|Hab].
  - rewrite !bool_decide_eq_true_2 by done. apply IH. congruence.
  - rewrite !bool_decide_eq_false_2 by done. by apply coord_ltb_total.
Qed.

Lemma entry_ltb_spec e1 e2 :
  Search.entry_ltb e1 e2 = true ↔
  Search.key e1 < Search.key e2 ∨
  (Search.key e1 = Search.key e2 ∧
   (row_major_lt (Search.pos e1) (Search.pos e2) ∨
    (Search.pos e1 = Search.pos e2 ∧
     Search.path_ltb (Search.trail e1) (Search.trail e2) = true))).
Proof.
  unfold Search.entry_ltb.
  case_bool_decide as Hk; [case_bool_decide as Hp|].
  - split; [by auto|]. intros [?|[_ [Hlt|[_ ?]]]]; [lia| |done].
    rewrite Hp in Hlt. by apply row_major_lt_irrefl in Hlt.
  - rewrite coord_ltb_lt. split; [by auto|].
    intros [?|[_ [?|[? _]]]]; [lia|done|done].
  - rewrite bool_decide_eq_true. split; [by auto|]. intros [?|[? _]]; [done|lia].
Qed.

Lemma row_major_lt_trans a b c :
  row_major_lt a b → row_major_lt b c → row_major_lt a c.
Proof. unfold row_major_lt. lia. Qed.

Lemma entry_ltb_trans e1 e2 e3 :
  Search.entry_ltb e1 e2 = true → Search.entry_ltb e2 e3 = true →
  Search.entry_ltb e1 e3 = true.
Proof.
  rewrite !entry_ltb_spec.
  intros [H1|[Hk1 H1]] [H2|[Hk2 H2]]; [left; lia|left; lia|left; lia|].
  right. split; [lia|].
  destruct H1 as [H1|[Hp1 H1]], H2 as [H2|[Hp2 H2]].
  - left. by apply (row_major_lt_trans _ (Search.pos e2)).
  - left. by rewrite <- Hp2.
  - left. by rewrite Hp1.
  - right. split; [congruence|]. by apply (path_ltb_trans _ (Search.trail e2)).
Qed.

Lemma entry_ltb_total e1 e2 :
  e1 ≠ e2 → Search.entry_ltb e1 e2 = true ∨ Search.entry_ltb e2 e1 = true.
Proof.
  intros Hne. rewrite !entry_ltb_spec.
  destruct (Z.lt_trichotomy (Search.key e1) (Search.key e2)) as [?|[Hk|?]];
    [by left; left| |by right; left].
  destruct (decide (Search.pos e1 = Search.pos e2)) as [Hp|Hp].
  - assert (Ht : Search.trail e1 ≠ Search.trail e2).
    { intros Ht. apply Hne. destruct e1 as [[k1 p1] t1], e2 as [[k2 p2] t2].
      unfold Search.key, Search.pos, Search.trail in *. simpl in *. by subst. }
    destruct (path_ltb_total _ _ Ht) as [H|H].
    + left. right. split; [done|]. right. done.
    + right. right. split; [done|]. right. done.
  - destruct (coord_ltb_total _ _ Hp) as [H|H]; apply coord_ltb_lt in H.
    + left. right. split; [done|]. by left.
    + right. right. split; [done|]. by left.
Qed.

Lemma py_min_least rest e0 e :
  e ∈ e0 :: rest →
  e = Search.py_min e0 rest ∨ Search.entry_ltb (Search.py_min e0 rest) e = true.
Proof.
  unfold Search.py_min. revert e. induction rest as [|x rest IH] using rev_ind; intros e He.
  - simpl. apply list_elem_of_singleton in He. by left.
  - rewrite foldl_snoc. set (best := foldl _ e0 rest) in *.
    rewrite app_comm_cons in He. apply elem_of_app in He as [He|He].
    + destruct (Search.entry_ltb x best) eqn:Hlt; [|by apply IH].
      right. destruct (IH e He) as [->|Hbe]; [done|].
      by apply (entry_ltb_trans x best e).
    + apply list_elem_of_singleton in He as ->.
      destruct (Search.entry_ltb x best) eqn:Hlt; [by left|].
      destruct (decide (x = best)) as [|Hne]; [by left|]. right.
      destruct (entry_ltb_total x best Hne) as [H|H]; [congruence|done].
Qed.

Lemma remove_permutation v l : v ∈ l → l ≡ₚ v :: Search.remove v l.
Proof.
  induction l as [|x l IH]; intros Hin; [by apply elem_of_nil in Hin|].
  simpl. case_decide as Hx; [by subst|].
  apply elem_of_cons in Hin as [->|Hin]; [done|].
  rewrite (IH Hin) at 1. apply Permutation_swap.
Qed.

(* ---------------------------------------------------------------------- *)
(** ** X24: the entry an iteration takes from the open list *)

(** X24. The entry an iteration of [find_path] takes ([min(open_list)],
    then [open_list.remove]) is an entry of the open list that comes
    before every other entry of it in Python's order on the tuples
    [(key, (x, y), path)]: lowest key, then lowest coordinate, then lowest
    path. What stays on the list is the list less one occurrence of that
    entry. *)
Theorem explored_is_least e0 rest :
  Search.explored e0 rest ∈ e0 :: rest ∧
  (∀ e, e ∈ e0 :: rest →
        e = Search.explored e0 rest ∨
        Search.entry_ltb (Search.explored e0 rest) e = true) ∧
  e0 :: rest ≡ₚ
    Search.explored e0 rest :: Search.remove (Search.explored e0 rest) (e0 :: rest).
Proof.
  split; [apply explored_in|]. split.
  - intros e He. by apply py_min_least.
  - apply remove_permutation, explored_in.
Qed.
